(** * Hack-Bell: PII detection and redaction-zone pipeline

    A shallow embedding of the detection core of the repository
    (src/detection/pipeline.ts, gemini.ts, matchingEngine.ts, layer1.ts)
    and the properties its specification states about it, followed by the
    parts of the review dialog (src/components/ReviewModal.tsx) and of the
    image redaction (src/processing/imageProcessor.ts) that consume its
    output.

    Conventions of the embedding.
    - A JavaScript string is the list of its UTF-16 code units ([jsstring]).
    - Pixel coordinates are integers ([Z]): the OCR worker fills every word
      box from Tesseract's integer corners (x0, y0, x1, y1), and everything
      computed from them here (min, max, sums, differences, the padding 5)
      stays in the integers.
    - Confidences, thresholds and delays are exact rationals ([Qc]).
    - Arrays are lists; an array that the source mutates in place is threaded
      through the functions as explicit state. *)

From Stdlib Require Import ZArith QArith Qcanon List String Ascii Lia.
From Stdlib Require Import Permutation DecimalString.
From stdpp Require Import base decidable option list numbers gmap sorting.

Local Open Scope Z_scope.

(** ** JavaScript strings and the built-ins the sources call *)

Module JS.

Definition jsstring := list N.

(** A string literal of the sources, as code units (ASCII literals only). *)
Definition js (s : string) : jsstring :=
  map N_of_ascii (list_ascii_of_string s).

Definition str_eqb (s t : jsstring) : bool := bool_decide (s = t).

(** [\s] of a regular expression and the characters removed by
    [String.prototype.trim]: WhiteSpace and LineTerminator. *)
Definition isWhiteSpace (c : N) : bool :=
  ((9 <=? c) && (c <=? 13) || (c =? 32) || (c =? 160) || (c =? 5760)
   || (8192 <=? c) && (c <=? 8202) || (c =? 8232) || (c =? 8233)
   || (c =? 8239) || (c =? 8287) || (c =? 12288) || (c =? 65279))%N.

Fixpoint trimStart (s : jsstring) : jsstring :=
  match s with
  | c :: s' => if isWhiteSpace c then trimStart s' else s
  | [] => []
  end.

Definition trimEnd (s : jsstring) : jsstring := rev (trimStart (rev s)).

Definition trim (s : jsstring) : jsstring := trimEnd (trimStart s).

(** [s.split(/\s+/)]: the pieces between maximal runs of white space; a run
    at either end leaves an empty piece there, and the empty string gives
    one empty piece. [cur] is the piece being read, reversed; [inws] says
    that the previous code unit was white space (then [cur] is empty). *)
Fixpoint split_ws_aux (inws : bool) (cur : jsstring) (s : jsstring)
  : list jsstring :=
  match s with
  | [] => [rev cur]
  | c :: s' =>
      if isWhiteSpace c then
        if inws then split_ws_aux true cur s'
        else rev cur :: split_ws_aux true [] s'
      else split_ws_aux false (c :: cur) s'
  end.

Definition split_ws (s : jsstring) : list jsstring := split_ws_aux false [] s.

(** [s.toLowerCase()]. Exact on ASCII, and on the two other code points
    whose lower-case form contains an ASCII letter (KELVIN SIGN U+212A and
    LATIN CAPITAL LETTER I WITH DOT ABOVE U+0130); every other cased letter
    is left as it is. The [clean] functions of the sources delete such a
    letter whether it is lower-cased or not, so they are exact. *)
Definition lowerUnit (c : N) : jsstring :=
  (if (65 <=? c) && (c <=? 90) then [c + 32]
   else if c =? 8490 then [107]
   else if c =? 304 then [105; 775]
   else [c])%N.

Definition toLowerCase (s : jsstring) : jsstring := concat (map lowerUnit s).

Fixpoint startsWith (needle s : jsstring) : bool :=
  match needle, s with
  | [], _ => true
  | _ :: _, [] => false
  | a :: needle', b :: s' => (a =? b)%N && startsWith needle' s'
  end.

(** [s.indexOf(needle)] counted from the head of [s], [i] being the index
    of that head in the whole string. *)
Fixpoint indexOf_aux (needle s : jsstring) (i : nat) : option nat :=
  if startsWith needle s then Some i
  else match s with
       | [] => None
       | _ :: s' => indexOf_aux needle s' (S i)
       end.

(** [s.indexOf(needle, from)]; [None] is the source's -1. A start beyond
    the end is clamped to the length. *)
Definition indexOf (s needle : jsstring) (from : nat) : option nat :=
  let from' := Nat.min from (length s) in
  indexOf_aux needle (drop from' s) from'.

Definition includes (s needle : jsstring) : bool :=
  bool_decide (is_Some (indexOf s needle 0)).

(** [s.substring(a, b)]: the arguments are clamped to the string and
    swapped when [a > b]. *)
Definition substring (s : jsstring) (a b : nat) : jsstring :=
  let lo := Nat.min a b in
  let hi := Nat.max a b in
  take (hi - lo) (drop lo s).

End JS.

Import JS.

(** ** Rationals *)

Definition qc (n : Z) (d : positive) : Qc := Q2Qc (n # d).

Definition Qcltb (a b : Qc) : bool :=
  match (a ?= b)%Qc with Lt => true | _ => false end.

Definition Qcleb (a b : Qc) : bool := negb (Qcltb b a).

(** ** The data model (src/types) *)

Inductive PIIType :=
  | AADHAAR | PAN | CREDIT_CARD | PHONE | NAME
  | ADDRESS | MEDICAL | EMAIL | DOB | SENSITIVE.

Global Instance PIIType_eq_dec : EqDecision PIIType.
Proof. solve_decision. Defined.

(** The string a [PIIType] value is at run time. *)
Definition PIIType_name (t : PIIType) : jsstring :=
  match t with
  | AADHAAR => js "AADHAAR" | PAN => js "PAN"
  | CREDIT_CARD => js "CREDIT_CARD" | PHONE => js "PHONE"
  | NAME => js "NAME" | ADDRESS => js "ADDRESS"
  | MEDICAL => js "MEDICAL" | EMAIL => js "EMAIL"
  | DOB => js "DOB" | SENSITIVE => js "SENSITIVE"
  end.

Record BoundingBox := mkBBox {
  bbox_x : Z;
  bbox_y : Z;
  bbox_w : Z;
  bbox_h : Z;
  bbox_pageIndex : Z
}.

Global Instance BoundingBox_eq_dec : EqDecision BoundingBox.
Proof. solve_decision. Defined.

Record DetectedEntity := mkEntity {
  ent_id : jsstring;
  ent_type : PIIType;
  ent_value : jsstring;
  ent_confidence : Qc;
  ent_bbox : BoundingBox;
  ent_masked : bool;
  ent_layer : nat
}.

Record OCRWord := mkWord {
  word_text : jsstring;
  word_confidence : Qc;
  word_bbox : BoundingBox
}.

Record SpatialMapEntry := mkEntry {
  sm_text : jsstring;
  sm_left : Z;
  sm_top : Z;
  sm_width : Z;
  sm_height : Z;
  sm_pageIndex : Z;
  sm_redact : bool
}.

Record RedactionZone := mkZone {
  zone_x : Z;
  zone_y : Z;
  zone_w : Z;
  zone_h : Z;
  zone_pageIndex : Z;
  zone_matchedPhrase : jsstring;
  zone_matchedWords : list jsstring
}.

(** ** Array built-ins *)

(** [Array.prototype.sort(cmp)], given as [gtb a b], the test [cmp(a, b) > 0].
    The sort is stable; it is modelled as the stable insertion sort. For a
    comparator that is a consistent ordering every engine returns this list.
    The zone comparator is not one (its 5px bucket is not transitive); there
    the list is still what every engine returns for two elements, and for a
    list in which no element is to go behind a later one. *)
Section Sort.
Context {A : Type} (gtb : A -> A -> bool).

Fixpoint sort_insert (a : A) (l : list A) : list A :=
  match l with
  | [] => [a]
  | b :: l' => if gtb a b then b :: sort_insert a l' else a :: b :: l'
  end.

Fixpoint js_sort (l : list A) : list A :=
  match l with
  | [] => []
  | a :: l' => sort_insert a (js_sort l')
  end.
End Sort.

(** [Math.min(...l)] and [Math.max(...l)]. Every spread in the sources is
    over a list that has an element; the value at the empty list (an
    infinity in JavaScript) is not modelled and is 0 here. *)
Definition Math_min (l : list Z) : Z :=
  match l with [] => 0 | a :: l' => fold_left Z.min l' a end.

Definition Math_max (l : list Z) : Z :=
  match l with [] => 0 | a :: l' => fold_left Z.max l' a end.

(** [a.slice(i, j)] for [0 <= i]. *)
Definition slice {A} (l : list A) (i j : nat) : list A :=
  take (j - i) (drop i l).

(** ** src/detection/layer1.ts *)

Module Layer1.

(** A match of [findAllRegexMatches]. src/detection/regex.ts is not among
    the sources at hand; these are the fields [runLayer1Detection] reads. *)
Record RegexMatch := mkMatch {
  match_type : PIIType;
  match_value : jsstring;
  match_raw : jsstring;
  match_startIndex : nat;
  match_endIndex : nat
}.

Definition isAlnum (c : N) : bool :=
  ((48 <=? c) && (c <=? 57) || (65 <=? c) && (c <=? 90)
   || (97 <=? c) && (c <=? 122))%N.

(** [s.replace(/[^a-zA-Z0-9]/g, '')] *)
Definition clean (s : jsstring) : jsstring := List.filter isAlnum s.

Definition nonEmpty (t : jsstring) : bool := (0 <? length t)%nat.

Definition mergeWordBBoxes (matchingWords : list OCRWord) (pageIndex : Z)
  : BoundingBox :=
  let minX := Math_min (map (fun w => bbox_x (word_bbox w)) matchingWords) in
  let minY := Math_min (map (fun w => bbox_y (word_bbox w)) matchingWords) in
  let maxX :=
    Math_max (map (fun w => bbox_x (word_bbox w) + bbox_w (word_bbox w))
                  matchingWords) in
  let maxY :=
    Math_max (map (fun w => bbox_y (word_bbox w) + bbox_h (word_bbox w))
                  matchingWords) in
  mkBBox minX minY (maxX - minX) (maxY - minY) pageIndex.

(** The inner [for j] loop of the window match at offset [i]. *)
Definition allMatch (cleanedTokens : list jsstring) (words : list OCRWord)
  (i : nat) : bool :=
  forallb
    (fun j => match words !! (i + j)%nat, cleanedTokens !! j with
              | Some w, Some t => str_eqb (clean (word_text w)) t
              | _, _ => false
              end)
    (seq 0 (length cleanedTokens)).

(** Strategy 1a: the first [i <= words.length - cleanedTokens.length] at
    which the window matches. *)
Definition exactWindow (cleanedTokens : list jsstring) (words : list OCRWord)
  : option nat :=
  let n := length cleanedTokens in
  if (n <=? length words)%nat
  then List.find (allMatch cleanedTokens words) (seq 0 (length words - n + 1))
  else None.

(** The inner [for j] loop of strategy 1b over the words after [words[i]]:
    a word equal to the next expected token is taken, any other is skipped,
    until the tokens are used up. *)
Fixpoint greedyScan (cleanedTokens : list jsstring) (rest : list OCRWord)
  (next : nat) (matched : list OCRWord) : list OCRWord :=
  match rest with
  | [] => matched
  | w :: rest' =>
      if (next <? length cleanedTokens)%nat then
        if bool_decide (cleanedTokens !! next = Some (clean (word_text w)))
        then greedyScan cleanedTokens rest' (S next) (matched ++ [w])
        else greedyScan cleanedTokens rest' next matched
      else matched
  end.

(** One round of the outer loop of strategy 1b. *)
Definition partialAt (cleanedTokens : list jsstring) (words : list OCRWord)
  (i : nat) : option (list OCRWord) :=
  match words !! i with
  | Some w =>
      if bool_decide (cleanedTokens !! 0%nat = Some (clean (word_text w)))
      then
        let matched := greedyScan cleanedTokens (drop (S i) words) 1 [w] in
        if ((length cleanedTokens + 1) / 2 <=? length matched)%nat
        then Some matched else None
      else None
  | None => None
  end.

Fixpoint firstSome {A B} (f : A -> option B) (l : list A) : option B :=
  match l with
  | [] => None
  | a :: l' => match f a with Some b => Some b | None => firstSome f l' end
  end.

Definition partialMatch (cleanedTokens : list jsstring) (words : list OCRWord)
  : option (list OCRWord) :=
  firstSome (partialAt cleanedTokens words) (seq 0 (length words)).

(** Strategy 1 as a whole: [Some] box when it returns, [None] when control
    falls through to strategy 2. *)
Definition tokenStrategy (matchedText : jsstring) (words : list OCRWord)
  (pageIndex : Z) : option BoundingBox :=
  let tokens := List.filter nonEmpty (split_ws matchedText) in
  if (0 <? length tokens)%nat && (0 <? length words)%nat then
    let cleanedTokens := List.filter nonEmpty (map clean tokens) in
    if (0 <? length cleanedTokens)%nat then
      match exactWindow cleanedTokens words with
      | Some i =>
          Some (mergeWordBBoxes
                  (slice words i (i + length cleanedTokens)) pageIndex)
      | None =>
          match partialMatch cleanedTokens words with
          | Some matched => Some (mergeWordBBoxes matched pageIndex)
          | None => None
          end
      end
    else None
  else None.

(** Strategy 2: the [for (const word of words)] loop, with its cursor
    [currentPos] and the words collected so far. *)
Fixpoint positionScan (fullText : jsstring) (startIdx endIdx : nat)
  (words : list OCRWord) (currentPos : nat) (matchingWords : list OCRWord)
  : list OCRWord :=
  match words with
  | [] => matchingWords
  | word :: rest =>
      match indexOf fullText (word_text word) currentPos with
      | None => positionScan fullText startIdx endIdx rest currentPos
                             matchingWords
      | Some wordStart =>
          let wordEnd := (wordStart + length (word_text word))%nat in
          let matchingWords' :=
            if (startIdx <? wordEnd)%nat && (wordStart <? endIdx)%nat
            then matchingWords ++ [word] else matchingWords in
          if (endIdx <? wordStart)%nat then matchingWords'
          else positionScan fullText startIdx endIdx rest wordEnd
                            matchingWords'
      end
  end.

(** The box of the last [return] of [mapTextToBBox]. *)
Definition fallbackBBox (pageIndex : Z) : BoundingBox :=
  mkBBox 0 0 100 20 pageIndex.

Definition mapTextToBBox (startIdx endIdx : nat) (fullText : jsstring)
  (words : list OCRWord) (pageIndex : Z) : BoundingBox :=
  let matchedText := trim (substring fullText startIdx endIdx) in
  match tokenStrategy matchedText words pageIndex with
  | Some result => result
  | None =>
      let matchingWords :=
        positionScan fullText startIdx endIdx words 0 [] in
      if (0 <? length matchingWords)%nat
      then mergeWordBBoxes matchingWords pageIndex
      else fallbackBBox pageIndex
  end.

Section Detection.
(** The validators of src/detection/checksums.ts and the matcher of
    src/detection/regex.ts are not among the sources at hand and are taken
    as given, as is the source of random identifiers: [randomUUID k] is
    the k-th identifier drawn. *)
Variables verhoeffValidate luhnValidate panValidate : jsstring -> bool.
Variable findAllRegexMatches : jsstring -> list RegexMatch.
Variable randomUUID : nat -> jsstring.

(** The [switch]: the values of [confidence] and [valid] after it. *)
Definition classify (m : RegexMatch) : Qc * bool :=
  match match_type m with
  | AADHAAR =>
      let valid := verhoeffValidate (match_value m) in
      (if valid then qc 1 1 else qc 6 10, valid)
  | CREDIT_CARD =>
      let valid := luhnValidate (match_value m) in
      (if valid then qc 1 1 else qc 5 10, valid)
  | PAN =>
      let valid := panValidate (match_value m) in
      (if valid then qc 1 1 else qc 7 10, valid)
  | PHONE => (qc 9 10, true)
  | _ => (qc 85 100, true)
  end.

(** Whether the Validation Primitive of the match's category accepts
    its value (true for a category without one). *)
Definition validatorAccepts (m : RegexMatch) : bool :=
  match match_type m with
  | AADHAAR => verhoeffValidate (match_value m)
  | CREDIT_CARD => luhnValidate (match_value m)
  | PAN => panValidate (match_value m)
  | _ => true
  end.

Definition layer1Step (fullText : jsstring) (words : list OCRWord)
  (pageIndex : Z) (entities : list DetectedEntity) (m : RegexMatch)
  : list DetectedEntity :=
  let '(confidence, valid) := classify m in
  if negb valid && Qcltb confidence (qc 5 10) then entities
  else
    let bbox := mapTextToBBox (match_startIndex m) (match_endIndex m)
                              fullText words pageIndex in
    entities ++
      [mkEntity (js "l1_" ++ substring (randomUUID (length entities)) 0 8)
                (match_type m) (match_raw m) confidence bbox true 1].

Definition runLayer1Detection (fullText : jsstring) (words : list OCRWord)
  (pageIndex : Z) : list DetectedEntity :=
  fold_left (layer1Step fullText words pageIndex)
            (findAllRegexMatches fullText) [].
End Detection.

(** Vocabulary of the confidence rule, in the words of the specification:
    whether a category has a Validation Primitive, its floor, and the
    confidence a match should get. *)
Definition hasValidator (t : PIIType) : bool :=
  match t with AADHAAR | CREDIT_CARD | PAN => true | _ => false end.

Definition floorOf (t : PIIType) : Qc :=
  match t with
  | AADHAAR => qc 6 10
  | CREDIT_CARD => qc 5 10
  | PAN => qc 7 10
  | _ => qc 0 1
  end.

Definition baseConfidence (t : PIIType) : Qc :=
  match t with PHONE => qc 9 10 | _ => qc 85 100 end.

Definition specConfidence (accepts : bool) (t : PIIType) : Qc :=
  if hasValidator t then (if accepts then qc 1 1 else floorOf t)
  else baseConfidence t.

Definition specDiscarded (accepts : bool) (t : PIIType) : bool :=
  hasValidator t && negb accepts && Qcltb (floorOf t) (qc 5 10).

(** The cleaned tokens strategy 1 looks for. *)
Definition cleanedTokensOf (matchedText : jsstring) : list jsstring :=
  List.filter nonEmpty
              (map clean (List.filter nonEmpty (split_ws matchedText))).

(** The entity pushed for a match [m] that is kept, [accepted] telling
    whether the validator of its category accepted its value. *)
Definition emitted (accepts : RegexMatch -> bool) (fullText : jsstring)
  (words : list OCRWord) (pageIndex : Z) (m : RegexMatch)
  (e : DetectedEntity) : Prop :=
  ent_type e = match_type m
  /\ ent_value e = match_raw m
  /\ ent_confidence e = specConfidence (accepts m) (match_type m)
  /\ ent_bbox e
     = mapTextToBBox (match_startIndex m) (match_endIndex m)
                     fullText words pageIndex
  /\ ent_masked e = true
  /\ ent_layer e = 1%nat.

End Layer1.

(** ** src/detection/matchingEngine.ts *)

Module MatchingEngine.

Definition REDACTION_PADDING : Z := 5.

(** [w.bbox.pageIndex ?? pageIndex]: a [BoundingBox] always carries its
    page, so the default is never taken. *)
Definition buildSpatialMap (words : list OCRWord) (pageIndex : Z)
  : list SpatialMapEntry :=
  map (fun w => mkEntry (word_text w)
                        (bbox_x (word_bbox w)) (bbox_y (word_bbox w))
                        (bbox_w (word_bbox w)) (bbox_h (word_bbox w))
                        (bbox_pageIndex (word_bbox w)) false)
      words.

Definition isKept (c : N) : bool :=
  ((97 <=? c) && (c <=? 122) || (48 <=? c) && (c <=? 57)
   || (2304 <=? c) && (c <=? 2431))%N.

(** [s.toLowerCase().replace(/[^a-z0-9\u0900-\u097F]/g, '')] *)
Definition clean (s : jsstring) : jsstring :=
  List.filter isKept (toLowerCase s).

Definition nonEmpty (t : jsstring) : bool := (0 <? length t)%nat.

Record MultiPhrase := mkPhrase {
  original : jsstring;
  tokens : list jsstring
}.

(** The loop that sorts the forbidden list into [singleWords] and
    [multiPhrases]. *)
Definition partitionStep (acc : gset jsstring * list MultiPhrase)
  (phrase : jsstring) : gset jsstring * list MultiPhrase :=
  let '(singleWords, multiPhrases) := acc in
  let tokens := List.filter nonEmpty (split_ws (trim phrase)) in
  let cleanedTokens := List.filter nonEmpty (map clean tokens) in
  match cleanedTokens with
  | [] => acc
  | [t] => ({[ t ]} ∪ singleWords, multiPhrases)
  | _ => (singleWords, multiPhrases ++ [mkPhrase (trim phrase) cleanedTokens])
  end.

(** [entry.redact = true] *)
Definition markRedact (e : SpatialMapEntry) : SpatialMapEntry :=
  mkEntry (sm_text e) (sm_left e) (sm_top e) (sm_width e) (sm_height e)
          (sm_pageIndex e) true.

(** Marking the entries at the indices [js] of the shared spatial map. *)
Definition markAll (js : list nat) (spatialMap : list SpatialMapEntry)
  : list SpatialMapEntry :=
  fold_left (fun sm j => alter markRedact j sm) js spatialMap.

(** The zone pushed for the entries [matched] of a phrase. *)
Definition zoneOf (matched : list SpatialMapEntry) (original : jsstring)
  : RedactionZone :=
  let minLeft := Math_min (map sm_left matched) in
  let minTop := Math_min (map sm_top matched) in
  let maxRight := Math_max (map (fun e => sm_left e + sm_width e) matched) in
  let maxBottom := Math_max (map (fun e => sm_top e + sm_height e) matched) in
  mkZone (minLeft - REDACTION_PADDING)
         (minTop - REDACTION_PADDING)
         ((maxRight - minLeft) + REDACTION_PADDING * 2)
         ((maxBottom - minTop) + REDACTION_PADDING * 2)
         (match matched with e :: _ => sm_pageIndex e | [] => 0 end)
         original
         (map sm_text matched).

Definition allMatch (tokens : list jsstring)
  (spatialMap : list SpatialMapEntry) (i : nat) : bool :=
  forallb
    (fun j => match spatialMap !! (i + j)%nat, tokens !! j with
              | Some e, Some t => str_eqb (clean (sm_text e)) t
              | _, _ => false
              end)
    (seq 0 (length tokens)).

Definition state : Type := list SpatialMapEntry * list RedactionZone.

(** One round [i] of the sliding-window loop of pass 1. *)
Definition exactStep (phrase : MultiPhrase) (st : state) (i : nat) : state :=
  let '(spatialMap, zones) := st in
  let n := length (tokens phrase) in
  if allMatch (tokens phrase) spatialMap i then
    let matchedEntries := slice spatialMap i (i + n) in
    (markAll (map (fun j => (i + j)%nat) (seq 0 n)) spatialMap,
     zones ++ [zoneOf matchedEntries (original phrase)])
  else st.

Definition exactPass (phrase : MultiPhrase) (st : state) : state :=
  let n := length (tokens phrase) in
  let len := length (fst st) in
  if (n <=? len)%nat
  then fold_left (exactStep phrase) (seq 0 (len - n + 1)) st
  else st.

(** The look-ahead loop of the fallback, over the indices [js]; [matched]
    holds the indices of the entries taken so far. *)
Fixpoint lookahead (tokens : list jsstring)
  (spatialMap : list SpatialMapEntry) (js : list nat) (nextToken : nat)
  (matched : list nat) : list nat :=
  match js with
  | [] => matched
  | j :: js' =>
      if (nextToken <? length tokens)%nat then
        match spatialMap !! j with
        | Some e =>
            if bool_decide (tokens !! nextToken = Some (clean (sm_text e)))
            then lookahead tokens spatialMap js' (S nextToken) (matched ++ [j])
            else lookahead tokens spatialMap js' nextToken matched
        | None => matched
        end
      else matched
  end.

(** One round [i] of the fallback loop: the indices matched, when at least
    [Math.ceil(tokens.length * 0.6)] of them were. *)
Definition fallbackAt (phrase : MultiPhrase)
  (spatialMap : list SpatialMapEntry) (i : nat) : option (list nat) :=
  let n := length (tokens phrase) in
  match spatialMap !! i with
  | Some e =>
      if bool_decide (tokens phrase !! 0%nat = Some (clean (sm_text e)))
      then
        let bound := Nat.min (length spatialMap) (i + n * 2) in
        let matched :=
          lookahead (tokens phrase) spatialMap
                    (seq (S i) (bound - S i)) 1 [i] in
        if ((3 * n + 4) / 5 <=? length matched)%nat
        then Some matched else None
      else None
  | None => None
  end.

Definition fallbackPass (phrase : MultiPhrase) (st : state) : state :=
  let '(spatialMap, zones) := st in
  if existsb (fun z => str_eqb (zone_matchedPhrase z) (original phrase)) zones
  then st
  else
    match Layer1.firstSome (fallbackAt phrase spatialMap)
                           (seq 0 (length spatialMap)) with
    | Some matched =>
        (markAll matched spatialMap,
         zones ++ [zoneOf (omap (fun j => spatialMap !! j) matched)
                          (original phrase)])
    | None => st
    end.

(** One round [i] of pass 2. *)
Definition singleStep (singleWords : gset jsstring) (st : state) (i : nat)
  : state :=
  let '(spatialMap, zones) := st in
  match spatialMap !! i with
  | Some entry =>
      if sm_redact entry then st
      else
        let cleaned := clean (sm_text entry) in
        if (length cleaned =? 0)%nat then st
        else if bool_decide (cleaned ∈ singleWords) then
          (alter markRedact i spatialMap,
           zones ++
             [mkZone (sm_left entry - REDACTION_PADDING)
                     (sm_top entry - REDACTION_PADDING)
                     (sm_width entry + REDACTION_PADDING * 2)
                     (sm_height entry + REDACTION_PADDING * 2)
                     (sm_pageIndex entry)
                     (sm_text entry)
                     [sm_text entry]])
        else st
  | None => st
  end.

(** The comparator of the zone sort, as the test [cmp(a, b) > 0]. *)
Definition zoneOrder (a b : RedactionZone) : bool :=
  if bool_decide (zone_pageIndex a <> zone_pageIndex b)
  then 0 <? zone_pageIndex a - zone_pageIndex b
  else if 5 <? Z.abs (zone_y a - zone_y b)
       then 0 <? zone_y a - zone_y b
       else 0 <? zone_x a - zone_x b.

(** The test under which [current] is folded into [last]. *)
Definition adjacent (last current : RedactionZone) : bool :=
  bool_decide (zone_pageIndex current = zone_pageIndex last)
  && (zone_x current <=? zone_x last + zone_w last + 2)
  && (zone_y current <=? zone_y last + zone_h last + 2)
  && (zone_y last - 2 <=? zone_y current + zone_h current).

Definition mergeInto (last current : RedactionZone) : RedactionZone :=
  let newX := Z.min (zone_x last) (zone_x current) in
  let newY := Z.min (zone_y last) (zone_y current) in
  let newRight :=
    Z.max (zone_x last + zone_w last) (zone_x current + zone_w current) in
  let newBottom :=
    Z.max (zone_y last + zone_h last) (zone_y current + zone_h current) in
  mkZone newX newY (newRight - newX) (newBottom - newY)
         (zone_pageIndex last)
         (zone_matchedPhrase last ++ js " | " ++ zone_matchedPhrase current)
         (zone_matchedWords last ++ zone_matchedWords current).

(** The body of the merge loop; [merged] is never empty there. *)
Definition mergeStep (merged : list RedactionZone) (current : RedactionZone)
  : list RedactionZone :=
  match last merged with
  | Some lastZone =>
      if adjacent lastZone current
      then removelast merged ++ [mergeInto lastZone current]
      else merged ++ [current]
  | None => merged ++ [current]
  end.

(** The first sorted zone is updated in place and so is shared with the
    argument; the only caller passes a list it drops afterwards. *)
Definition mergeAdjacentZones (zones : list RedactionZone)
  : list RedactionZone :=
  if (length zones <=? 1)%nat then zones
  else
    match js_sort zoneOrder zones with
    | [] => []
    | first :: rest => fold_left mergeStep rest [first]
    end.

(** Everything before the final merge: the spatial map with its flags and
    the zones pushed by the two passes. *)
Definition collectZones (spatialMap : list SpatialMapEntry)
  (forbiddenList : list jsstring) : state :=
  let '(singleWords, multiPhrases) :=
    fold_left partitionStep forbiddenList (∅, []) in
  let afterPhrases :=
    fold_left (fun st phrase => fallbackPass phrase (exactPass phrase st))
              multiPhrases (spatialMap, []) in
  fold_left (singleStep singleWords) (seq 0 (length spatialMap)) afterPhrases.

(** The result is the spatial map as the call leaves it, and the zones it
    returns. [_requiredFields] is not read. *)
Definition calculateRedactionZones (spatialMap : list SpatialMapEntry)
  (forbiddenList : list jsstring) (_requiredFields : list jsstring) : state :=
  let '(spatialMap', zones) := collectZones spatialMap forbiddenList in
  (spatialMap', mergeAdjacentZones zones).

Section Entities.
Variable randomUUID : nat -> jsstring.

Definition zoneToEntity (k : nat) (zone : RedactionZone) : DetectedEntity :=
  mkEntity (js "mz_" ++ substring (randomUUID k) 0 8)
           SENSITIVE
           (zone_matchedPhrase zone)
           (qc 9 10)
           (mkBBox (Z.max 0 (zone_x zone)) (Z.max 0 (zone_y zone))
                   (zone_w zone) (zone_h zone) (zone_pageIndex zone))
           true 3.

Definition zonesToEntities (zones : list RedactionZone)
  : list DetectedEntity := imap zoneToEntity zones.
End Entities.

(** Vocabulary of the matcher properties: an entry without its flag, the
    indices of the window at [i], and the windows of a spatial map that
    match a phrase. *)
Definition unmark (e : SpatialMapEntry) : SpatialMapEntry :=
  mkEntry (sm_text e) (sm_left e) (sm_top e) (sm_width e) (sm_height e)
          (sm_pageIndex e) false.

Definition windowIndices (i n : nat) : list nat :=
  map (fun j => (i + j)%nat) (seq 0 n).

Definition matchingWindows (phrase : MultiPhrase)
  (spatialMap : list SpatialMapEntry) : list nat :=
  List.filter (allMatch (tokens phrase) spatialMap)
              (seq 0 (length spatialMap - length (tokens phrase) + 1)).

Definition windowZone (phrase : MultiPhrase)
  (spatialMap : list SpatialMapEntry) (i : nat) : RedactionZone :=
  zoneOf (slice spatialMap i (i + length (tokens phrase))) (original phrase).

(** The cleaned tokens of a forbidden phrase, and the phrase record pass 1
    keeps for it when there are at least two. *)
Definition cleanedTokensOf (phrase : jsstring) : list jsstring :=
  List.filter nonEmpty
              (map clean (List.filter nonEmpty (split_ws (trim phrase)))).


(** [st'] comes from [st] by marking entries and pushing zones. *)
Definition extends (st st' : state) : Prop :=
  exists js zs, fst st' = markAll js (fst st) /\ snd st' = snd st ++ zs.





End MatchingEngine.

(** ** src/detection/gemini.ts *)

Module Gemini.

(** *** Promises and JSON *)

(** How an asynchronous call settles (and how a synchronous one completes):
    with a value, or with an error that carries a message. *)
Inductive outcome (T : Type) :=
  | Resolved (v : T)
  | Rejected (message : jsstring).
Arguments Resolved {T} v.
Arguments Rejected {T} message.

(** The values [JSON.parse] produces. A number is kept as its text. *)
#[warnings="-register-all"]
Inductive json :=
  | JNull
  | JBool (b : bool)
  | JNumber (lexeme : jsstring)
  | JString (s : jsstring)
  | JArray (items : list json)
  | JObject (fields : list (jsstring * json)).

(** A JSON text of the examples, written with ['] for the double quote. *)
Definition jsq (s : string) : jsstring :=
  map (fun c => if (c =? 39)%N then 34%N else c) (js s).

Definition isDigit (c : N) : bool := ((48 <=? c) && (c <=? 57))%N.

Definition isHex (c : N) : bool :=
  (isDigit c || (65 <=? c) && (c <=? 70) || (97 <=? c) && (c <=? 102))%N.

Definition hexVal (c : N) : N :=
  (if isDigit c then c - 48 else if c <=? 70 then c - 55 else c - 87)%N.

Definition isJsonWs (c : N) : bool :=
  ((c =? 32) || (c =? 9) || (c =? 10) || (c =? 13))%N.

Fixpoint skipWs (s : jsstring) : jsstring :=
  match s with
  | c :: s' => if isJsonWs c then skipWs s' else s
  | [] => []
  end.

(** The characters of a string literal after its opening quote. *)
Fixpoint parseString (s : jsstring) (acc : jsstring)
  : option (jsstring * jsstring) :=
  match s with
  | [] => None
  | c :: r =>
      if (c =? 34)%N then Some (rev acc, r)
      else if (c =? 92)%N then
        match r with
        | [] => None
        | e :: r1 =>
            if ((e =? 34) || (e =? 92) || (e =? 47))%N
            then parseString r1 (e :: acc)
            else if (e =? 98)%N then parseString r1 (8%N :: acc)
            else if (e =? 102)%N then parseString r1 (12%N :: acc)
            else if (e =? 110)%N then parseString r1 (10%N :: acc)
            else if (e =? 114)%N then parseString r1 (13%N :: acc)
            else if (e =? 116)%N then parseString r1 (9%N :: acc)
            else if (e =? 117)%N then
              match r1 with
              | h1 :: h2 :: h3 :: h4 :: r2 =>
                  if isHex h1 && isHex h2 && isHex h3 && isHex h4
                  then parseString r2
                         ((hexVal h1 * 4096 + hexVal h2 * 256
                           + hexVal h3 * 16 + hexVal h4)%N :: acc)
                  else None
              | _ => None
              end
            else None
        end
      else if (c <? 32)%N then None
      else parseString r (c :: acc)
  end.

Fixpoint spanDigits (s : jsstring) : jsstring * jsstring :=
  match s with
  | c :: r => if isDigit c
              then let '(d, r') := spanDigits r in (c :: d, r')
              else ([], s)
  | [] => ([], [])
  end.

(** A JSON number: an optional minus sign; a zero, or a non-zero digit
    followed by digits; optionally a point and digits; optionally an
    exponent mark, a sign and digits. *)
Definition parseNumber (s : jsstring) : option (jsstring * jsstring) :=
  let '(sign, s1) :=
    match s with
    | c :: r => if (c =? 45)%N then ([c], r) else ([], s)
    | [] => ([], s)
    end in
  let intPart :=
    match s1 with
    | c :: r => if (c =? 48)%N then Some ([c], r)
                else if isDigit c then Some (spanDigits s1) else None
    | [] => None
    end in
  match intPart with
  | None => None
  | Some (int, s2) =>
      let fracPart :=
        match s2 with
        | c :: r =>
            if (c =? 46)%N then
              match spanDigits r with
              | ([], _) => None
              | (d, r') => Some (c :: d, r')
              end
            else Some ([], s2)
        | [] => Some ([], s2)
        end in
      match fracPart with
      | None => None
      | Some (frac, s3) =>
          let expPart :=
            match s3 with
            | c :: r =>
                if ((c =? 101) || (c =? 69))%N then
                  let '(esign, r1) :=
                    match r with
                    | c1 :: r0 => if ((c1 =? 43) || (c1 =? 45))%N
                                  then ([c1], r0) else ([], r)
                    | [] => ([], r)
                    end in
                  match spanDigits r1 with
                  | ([], _) => None
                  | (d, r') => Some (c :: esign ++ d, r')
                  end
                else Some ([], s3)
            | [] => Some ([], s3)
            end in
          match expPart with
          | None => None
          | Some (ex, s4) => Some (sign ++ int ++ frac ++ ex, s4)
          end
      end
  end.

(** The elements of an array after the first has been found to exist,
    [pv] parsing one value. *)
Fixpoint parseElements (pv : jsstring -> option (json * jsstring))
  (fuel : nat) (s : jsstring) (acc : list json)
  : option (list json * jsstring) :=
  match fuel with
  | O => None
  | S fuel' =>
      match pv s with
      | Some (v, r) =>
          match skipWs r with
          | c :: r' =>
              if (c =? 44)%N then parseElements pv fuel' r' (acc ++ [v])
              else if (c =? 93)%N then Some (acc ++ [v], r')
              else None
          | [] => None
          end
      | None => None
      end
  end.

(** The members of an object, likewise. *)
Fixpoint parseMembers (pv : jsstring -> option (json * jsstring))
  (fuel : nat) (s : jsstring) (acc : list (jsstring * json))
  : option (list (jsstring * json) * jsstring) :=
  match fuel with
  | O => None
  | S fuel' =>
      match skipWs s with
      | q :: r0 =>
          if (q =? 34)%N then
            match parseString r0 [] with
            | Some (key, r1) =>
                match skipWs r1 with
                | colon :: r2 =>
                    if (colon =? 58)%N then
                      match pv r2 with
                      | Some (v, r3) =>
                          match skipWs r3 with
                          | c :: r4 =>
                              if (c =? 44)%N
                              then parseMembers pv fuel' r4 (acc ++ [(key, v)])
                              else if (c =? 125)%N
                                   then Some (acc ++ [(key, v)], r4)
                                   else None
                          | [] => None
                          end
                      | None => None
                      end
                    else None
                | [] => None
                end
            | None => None
            end
          else None
      | [] => None
      end
  end.

(** One JSON value at the head of [s]. Every level of nesting and every
    element uses up a code unit, so a fuel above the length of the text is
    never exhausted ([JSON_parse_fuel] below). *)
Fixpoint parseValue (fuel : nat) (s : jsstring) : option (json * jsstring) :=
  match fuel with
  | O => None
  | S fuel' =>
      match skipWs s with
      | [] => None
      | c :: r =>
          if (c =? 91)%N then
            match skipWs r with
            | c2 :: r' =>
                if (c2 =? 93)%N then Some (JArray [], r')
                else
                  match parseElements (parseValue fuel') (length r) r [] with
                  | Some (items, r'') => Some (JArray items, r'')
                  | None => None
                  end
            | [] => None
            end
          else if (c =? 123)%N then
            match skipWs r with
            | c2 :: r' =>
                if (c2 =? 125)%N then Some (JObject [], r')
                else
                  match parseMembers (parseValue fuel') (length r) r [] with
                  | Some (fields, r'') => Some (JObject fields, r'')
                  | None => None
                  end
            | [] => None
            end
          else if (c =? 34)%N then
            match parseString r [] with
            | Some (str, r') => Some (JString str, r')
            | None => None
            end
          else if startsWith (js "null") (c :: r)
               then Some (JNull, drop 4 (c :: r))
          else if startsWith (js "true") (c :: r)
               then Some (JBool true, drop 4 (c :: r))
          else if startsWith (js "false") (c :: r)
               then Some (JBool false, drop 5 (c :: r))
          else
            match parseNumber (c :: r) with
            | Some (lexeme, r') => Some (JNumber lexeme, r')
            | None => None
            end
      end
  end.

(** [JSON.parse(s)]; [None] is its SyntaxError. *)
Definition JSON_parse (s : jsstring) : option json :=
  match parseValue (S (length s)) s with
  | Some (v, r) => match skipWs r with [] => Some v | _ => None end
  | None => None
  end.

(** *** Category mapping *)

Definition CATEGORY_MAP : list (string * PIIType) :=
  [ ("name", NAME); ("person", NAME); ("full name", NAME);
    ("person name", NAME); ("first name", NAME); ("last name", NAME);
    ("phone", PHONE); ("phone number", PHONE); ("mobile", PHONE);
    ("mobile number", PHONE); ("telephone", PHONE);
    ("contact number", PHONE);
    ("email", EMAIL); ("email address", EMAIL);
    ("address", ADDRESS); ("location", ADDRESS); ("residence", ADDRESS);
    ("home address", ADDRESS);
    ("aadhaar", AADHAAR); ("aadhar", AADHAAR); ("uid", AADHAAR);
    ("aadhaar number", AADHAAR);
    ("pan", PAN); ("pan number", PAN); ("permanent account number", PAN);
    ("credit card", CREDIT_CARD); ("card number", CREDIT_CARD);
    ("debit card", CREDIT_CARD);
    ("dob", DOB); ("date of birth", DOB); ("birth date", DOB);
    ("birthday", DOB);
    ("medical", MEDICAL); ("health", MEDICAL); ("diagnosis", MEDICAL);
    ("disease", MEDICAL); ("medication", MEDICAL);
    ("medical condition", MEDICAL); ("prescription", MEDICAL) ]%string.

Fixpoint lookupCategory (table : list (string * PIIType)) (key : jsstring)
  : option PIIType :=
  match table with
  | [] => None
  | (k, t) :: table' =>
      if str_eqb (js k) key then Some t else lookupCategory table' key
  end.

(** [CATEGORY_MAP[lower] ?? 'SENSITIVE'] for a string [category]. (For the
    keys [constructor] and [__proto__] the table object answers with an
    inherited property, which is no [PIIType]; the embedding gives
    [SENSITIVE] there as for every other unknown key.) *)
Definition mapCategory (category : jsstring) : PIIType :=
  let lower := trim (toLowerCase category) in
  default SENSITIVE (lookupCategory CATEGORY_MAP lower).

(** *** BBox finder *)

Definition isLowerAlnum (c : N) : bool :=
  ((97 <=? c) && (c <=? 122) || (48 <=? c) && (c <=? 57))%N.

(** [s.toLowerCase().replace(/[^a-z0-9]/g, '')] *)
Definition clean (s : jsstring) : jsstring :=
  List.filter isLowerAlnum (toLowerCase s).

(** [slice.every((w, j) => clean(w.text) === needleCleaned[j])] *)
Definition everyMatches (needleCleaned : list jsstring) (sl : list OCRWord)
  : bool :=
  forallb (fun '(j, w) =>
             bool_decide (needleCleaned !! j = Some (clean (word_text w))))
          (imap pair sl).

(** The box both returns of [findBBoxForString] build from a slice: the
    left edge of its first word, the right edge of its last word, and the
    least top and greatest bottom of all its words. *)
Definition sliceBBox (sl : list OCRWord) (pageIndex : Z)
  : option BoundingBox :=
  match sl, last sl with
  | firstW :: _, Some lastW =>
      let ys := map (fun w => bbox_y (word_bbox w)) sl in
      let bottoms :=
        map (fun w => bbox_y (word_bbox w) + bbox_h (word_bbox w)) sl in
      Some (mkBBox (bbox_x (word_bbox firstW))
                   (Math_min ys)
                   ((bbox_x (word_bbox lastW) + bbox_w (word_bbox lastW))
                    - bbox_x (word_bbox firstW))
                   (Math_max bottoms - Math_min ys)
                   pageIndex)
  | _, _ => None
  end.

(** The [while] loop of the partial match: the number of consecutive words
    from [words[i]] on that equal the needle tokens, counted from [j]. *)
Fixpoint consecutive (needleCleaned : list jsstring) (rest : list OCRWord)
  (j : nat) : nat :=
  match rest with
  | [] => j
  | w :: rest' =>
      if (j <? length needleCleaned)%nat
         && bool_decide (needleCleaned !! j = Some (clean (word_text w)))
      then consecutive needleCleaned rest' (S j)
      else j
  end.

Definition partialAt (needleCleaned : list jsstring) (words : list OCRWord)
  (pageIndex : Z) (i : nat) : option BoundingBox :=
  match words !! i with
  | Some w =>
      if bool_decide (needleCleaned !! 0%nat = Some (clean (word_text w)))
      then
        let j := consecutive needleCleaned (drop (S i) words) 1 in
        if ((length needleCleaned + 1) / 2 <=? j)%nat
        then sliceBBox (slice words i (i + j)) pageIndex
        else None
      else None
  | None => None
  end.

Definition findBBoxForString (sensitiveText : jsstring)
  (words : list OCRWord) (pageIndex : Z) : option BoundingBox :=
  let needleTokens := split_ws (trim sensitiveText) in
  let needleCleaned := map clean needleTokens in
  let n := length needleTokens in
  let window :=
    if (n <=? length words)%nat then
      List.find (fun i => everyMatches needleCleaned (slice words i (i + n)))
                (seq 0 (length words - n + 1))
    else None in
  match window with
  | Some i => sliceBBox (slice words i (i + n)) pageIndex
  | None =>
      let single :=
        if (n =? 1)%nat then
          List.find (fun w => bool_decide (needleCleaned !! 0%nat
                                           = Some (clean (word_text w))))
                    words
        else None in
      match single with
      | Some word =>
          Some (mkBBox (bbox_x (word_bbox word)) (bbox_y (word_bbox word))
                       (bbox_w (word_bbox word)) (bbox_h (word_bbox word))
                       pageIndex)
      | None =>
          Layer1.firstSome (partialAt needleCleaned words pageIndex)
                           (seq 0 (length words))
      end
  end.

(** *** Reading the classifier's answer *)

Fixpoint fromFirstOpen (s : jsstring) : option jsstring :=
  match s with
  | [] => None
  | c :: r => if (c =? 91)%N then Some s else fromFirstOpen r
  end.

Fixpoint fromFirstClose (s : jsstring) : option jsstring :=
  match s with
  | [] => None
  | c :: r => if (c =? 93)%N then Some s else fromFirstClose r
  end.

(** [raw.match(/\[[\s\S]*\]/)]: the star is greedy, so the match runs from
    the first opening bracket to the last closing bracket after it. *)
Definition matchArray (raw : jsstring) : option jsstring :=
  match fromFirstOpen raw with
  | Some (open :: rest) =>
      match fromFirstClose (rev rest) with
      | Some upto => Some (open :: rev upto)
      | None => None
      end
  | _ => None
  end.

(** [typeof item === 'string' && item.trim().length > 0] *)
Definition keptString (item : json) : option jsstring :=
  match item with
  | JString s => if (0 <? length (trim s))%nat then Some s else None
  | _ => None
  end.

(** The part of [getGeminiForbiddenList] after the response text [raw] has
    been read. [items.filter] exists only on an array. *)
Definition parseForbiddenList (raw : jsstring) : outcome (list jsstring) :=
  match matchArray raw with
  | None => Resolved []
  | Some jsonMatch =>
      match JSON_parse jsonMatch with
      | None => Resolved []
      | Some (JArray items) => Resolved (omap keptString items)
      | Some _ => Rejected (js "TypeError: items.filter is not a function")
      end
  end.

(** What the server did with one request. *)
Inductive httpResponse :=
  | NetworkFailure (message : jsstring)
  | HttpError (status : nat) (errText statusText : jsstring)
  | HttpOk (raw : jsstring).

Definition decimal (n : nat) : jsstring :=
  js (NilEmpty.string_of_uint (Nat.to_uint n)).

(** The error thrown for a response that is not [ok]. *)
Definition apiError (status : nat) (errText statusText : jsstring)
  : jsstring :=
  js "Gemini API error " ++ decimal status ++ js ": "
     ++ (if (0 <? length errText)%nat then errText else statusText).

Definition getGeminiForbiddenList (fullText : jsstring) (apiKey : jsstring)
  (response : httpResponse) : outcome (list jsstring) :=
  if (length apiKey =? 0)%nat || (length (trim fullText) =? 0)%nat
  then Resolved []
  else
    match response with
    | NetworkFailure message => Rejected message
    | HttpError status errText statusText =>
        Rejected (apiError status errText statusText)
    | HttpOk raw => parseForbiddenList raw
    end.

(** *** The legacy entity detection *)

(** [item.key] for a parsed value: [None] is [undefined]. Of several
    members with one key the last one counts. Reading a property of [null]
    throws, which [geminiStep] checks before. *)
Definition getProp (item : json) (key : jsstring) : option json :=
  match item with
  | JObject fields =>
      snd <$> List.find (fun kv => str_eqb (fst kv) key) (rev fields)
  | _ => None
  end.

Section Detection.
Variable randomUUID : nat -> jsstring.
Variables (words : list OCRWord) (pageIndex : Z).

Definition loopState : Type := list DetectedEntity * gset jsstring.

(** One round of [for (const item of items)]. *)
Definition geminiStep (st : loopState) (item : json) : outcome loopState :=
  let '(entities, seenTexts) := st in
  match item with
  | JNull => Rejected (js "TypeError: Cannot read properties of null")
  | _ =>
      match getProp item (js "text") with
      | Some (JString text) =>
          if (length text =? 0)%nat then Resolved st
          else
            let key := toLowerCase (trim text) in
            if bool_decide (key ∈ seenTexts) then Resolved st
            else
              let seenTexts' := {[ key ]} ∪ seenTexts in
              let category :=
                match getProp item (js "category") with
                | None | Some JNull => Some []
                | Some (JString c) => Some c
                | Some _ => None
                end in
              match category with
              | None =>
                  Rejected (js "TypeError: toLowerCase is not a function")
              | Some c =>
                  let type := mapCategory c in
                  match findBBoxForString (trim text) words pageIndex with
                  | None => Resolved (entities, seenTexts')
                  | Some bbox =>
                      Resolved
                        (entities ++
                           [mkEntity
                              (js "gem_" ++
                                 substring (randomUUID (length entities))
                                           0 8)
                              type (trim text) (qc 9 10) bbox true 2],
                         seenTexts')
                  end
              end
      | _ => Resolved st
      end
  end.

Fixpoint geminiLoop (st : loopState) (items : list json)
  : outcome loopState :=
  match items with
  | [] => Resolved st
  | item :: items' =>
      match geminiStep st item with
      | Resolved st' => geminiLoop st' items'
      | Rejected message => Rejected message
      end
  end.

(** The part of [runGeminiDetection] after the response text has been
    read. *)
Definition parseDetection (raw : jsstring) : outcome (list DetectedEntity) :=
  match matchArray raw with
  | None => Resolved []
  | Some jsonMatch =>
      match JSON_parse jsonMatch with
      | None => Resolved []
      | Some (JArray items) =>
          match geminiLoop ([], ∅) items with
          | Resolved (entities, _) => Resolved entities
          | Rejected message => Rejected message
          end
      | Some _ => Rejected (js "TypeError: items is not iterable")
      end
  end.

Definition runGeminiDetection (fullText : jsstring) (apiKey : jsstring)
  (response : httpResponse) : outcome (list DetectedEntity) :=
  if (length apiKey =? 0)%nat || (length (trim fullText) =? 0)%nat
  then Resolved []
  else
    match response with
    | NetworkFailure message => Rejected message
    | HttpError status errText statusText =>
        Rejected (apiError status errText statusText)
    | HttpOk raw => parseDetection raw
    end.
End Detection.


(** Vocabulary of the legacy-path properties: every entity of the list
    carries the box the finder returns for its value; and a category that
    [mapCategory] can read. *)
Definition allAligned (words : list OCRWord) (pageIndex : Z)
  (entities : list DetectedEntity) : Prop :=
  forall e, e ∈ entities ->
            findBBoxForString (ent_value e) words pageIndex
            = Some (ent_bbox e).

Definition readableCategory (item : json) : Prop :=
  match getProp item (js "category") with
  | None | Some JNull | Some (JString _) => True
  | Some _ => False
  end.


(** Vocabulary of the JSON model: a parser that returns less input than
    it was given. *)
Definition shrinking (pv : jsstring -> option (json * jsstring)) : Prop :=
  forall s v r, pv s = Some (v, r) -> (length r < length s)%nat.

End Gemini.

(** ** src/detection/pipeline.ts *)

Module Pipeline.

Definition overlapArea (a b : BoundingBox) : Z :=
  let overlapX :=
    Z.max 0 (Z.min (bbox_x a + bbox_w a) (bbox_x b + bbox_w b)
             - Z.max (bbox_x a) (bbox_x b)) in
  let overlapY :=
    Z.max 0 (Z.min (bbox_y a + bbox_h a) (bbox_y b + bbox_h b)
             - Z.max (bbox_y a) (bbox_y b)) in
  overlapX * overlapY.

Definition minArea (a b : BoundingBox) : Z :=
  Z.min (bbox_w a * bbox_h a) (bbox_w b * bbox_h b).

(** [overlapArea / minArea], the intersection over the smaller area. *)
Definition overlapRatio (a b : BoundingBox) : Qc :=
  (Qc_of_Z (overlapArea a b) / Qc_of_Z (minArea a b))%Qc.

Definition boxesOverlap (a b : BoundingBox) (threshold : Qc) : bool :=
  bool_decide (0 < minArea a b) && Qcltb threshold (overlapRatio a b).

(** The predicate of [result.some(...)]. *)
Definition conflicts (existing entity : DetectedEntity) : bool :=
  bool_decide (bbox_pageIndex (ent_bbox existing)
               = bbox_pageIndex (ent_bbox entity))
  && boxesOverlap (ent_bbox existing) (ent_bbox entity) (qc 1 2).

(** The comparator [(a, b) => b.confidence - a.confidence] is positive when
    [b] is the more confident. *)
Definition byConfidenceDesc (a b : DetectedEntity) : bool :=
  Qcltb (ent_confidence a) (ent_confidence b).

(** The body of the [for (const entity of sorted)] loop. *)
Definition dedupStep (result : list DetectedEntity) (entity : DetectedEntity)
  : list DetectedEntity :=
  if existsb (fun existing => conflicts existing entity) result
  then result else result ++ [entity].

Definition deduplicateEntities (entities : list DetectedEntity)
  : list DetectedEntity :=
  fold_left dedupStep (js_sort byConfidenceDesc entities) [].

(** *** Retry helper *)

(** What one call of [withRetry] did: how it settled, the delays it slept,
    in order, and how many times it called [fn]. *)
Record retryRun (T : Type) := mkRun {
  run_outcome : Gemini.outcome T;
  run_delays : list Qc;
  run_calls : nat
}.
Arguments mkRun {T} _ _ _.
Arguments run_outcome {T} _.
Arguments run_delays {T} _.
Arguments run_calls {T} _.

(** [lastError.message.includes('429')] *)
Definition isRateLimit (message : jsstring) : bool :=
  includes message (js "429").

(** The [for] loop from [attempt] on, [remaining] being
    [maxRetries - attempt]. [fn] reaches over the network, so its calls can
    settle differently: [fn k] is how its call number [k] (from 0) settles. *)
Fixpoint retryFrom {T} (fn : nat -> Gemini.outcome T)
  (remaining attempt : nat) (delay : Qc) : retryRun T :=
  match fn attempt with
  | Gemini.Resolved v => mkRun (Gemini.Resolved v) [] 1
  | Gemini.Rejected message =>
      match remaining with
      | O => mkRun (Gemini.Rejected message) [] 1
      | S remaining' =>
          if negb (isRateLimit message)
          then mkRun (Gemini.Rejected message) [] 1
          else
            let r := retryFrom fn remaining' (S attempt) (delay * qc 3 2) in
            mkRun (run_outcome r) (delay :: run_delays r) (S (run_calls r))
      end
  end.

Definition withRetry {T} (fn : nat -> Gemini.outcome T)
  (maxRetries : nat) (initialDelayMs : Qc) : retryRun T :=
  retryFrom fn maxRetries 0 initialDelayMs.

(** The two call sites in [runDetectionPipeline]. *)
Definition primaryCall {T} (fn : nat -> Gemini.outcome T) : retryRun T :=
  withRetry fn 3 (qc 15000 1).

Definition legacyCall {T} (fn : nat -> Gemini.outcome T) : retryRun T :=
  withRetry fn 2 (qc 15000 1).

(** *** The pipeline *)

(** Step 7 for one entity. *)
Definition markRequired (requiredFields : list jsstring)
  (entity : DetectedEntity) : DetectedEntity :=
  if bool_decide (PIIType_name (ent_type entity) ∈ requiredFields)
  then mkEntity (ent_id entity) (ent_type entity) (ent_value entity)
                (ent_confidence entity) (ent_bbox entity) false
                (ent_layer entity)
  else entity.

(** The entities that pass deduplication and the confidence filter. *)
Definition survivors (allEntities : list DetectedEntity)
  (confidenceThreshold : Qc) : list DetectedEntity :=
  List.filter (fun e => Qcleb confidenceThreshold (ent_confidence e))
              (deduplicateEntities allEntities).

(** Steps 6 and 7. *)
Definition mergeLayers (allEntities : list DetectedEntity)
  (confidenceThreshold : Qc) (requiredFields : list jsstring)
  : list DetectedEntity :=
  map (markRequired requiredFields) (survivors allEntities confidenceThreshold).

Section Orchestration.
(** What lies outside the sources at hand: the validators, the regex
    matcher, the NLP worker, the random identifiers of the three layers,
    and the classifier's answers to the successive requests of the
    primary and of the legacy call. *)
Variables verhoeffValidate luhnValidate panValidate : jsstring -> bool.
Variable findAllRegexMatches : jsstring -> list Layer1.RegexMatch.
Variable runNLPWorker :
  list OCRWord -> Z -> Gemini.outcome (list DetectedEntity).
Variables uuidLayer1 uuidZones uuidLegacy : nat -> jsstring.
Variables primaryResponses legacyResponses : nat -> Gemini.httpResponse.

(** Steps 4 and 5: the entities of the semantic layer. *)
Definition semanticStage (fullText : jsstring) (words : list OCRWord)
  (geminiApiKey : jsstring) (requiredFields : list jsstring)
  (pageIndex : Z) (spatialMap : list SpatialMapEntry)
  : list DetectedEntity :=
  if (length geminiApiKey =? 0)%nat then []
  else
    let primary :=
      primaryCall (fun k => Gemini.getGeminiForbiddenList
                              fullText geminiApiKey (primaryResponses k)) in
    match run_outcome primary with
    | Gemini.Resolved forbiddenList =>
        if (0 <? length forbiddenList)%nat && (0 <? length spatialMap)%nat
        then
          let redactionZones :=
            snd (MatchingEngine.calculateRedactionZones
                   spatialMap forbiddenList requiredFields) in
          MatchingEngine.zonesToEntities uuidZones redactionZones
        else []
    | Gemini.Rejected _ =>
        let legacy :=
          legacyCall (fun k => Gemini.runGeminiDetection
                                 uuidLegacy words pageIndex
                                 fullText geminiApiKey
                                 (legacyResponses k)) in
        match run_outcome legacy with
        | Gemini.Resolved legacyEntities => legacyEntities
        | Gemini.Rejected _ => []
        end
    end.

(** The three lists that step 6 concatenates. *)
Definition detectedLayers (fullText : jsstring) (words : list OCRWord)
  (geminiApiKey : jsstring) (requiredFields : list jsstring)
  (pageIndex : Z) : list DetectedEntity :=
  let spatialMap := MatchingEngine.buildSpatialMap words pageIndex in
  let layer1Entities :=
    Layer1.runLayer1Detection verhoeffValidate luhnValidate panValidate
                              findAllRegexMatches uuidLayer1
                              fullText words pageIndex in
  let nlpEntities :=
    match runNLPWorker words pageIndex with
    | Gemini.Resolved entities => entities
    | Gemini.Rejected _ => []
    end in
  let matchingEngineEntities :=
    semanticStage fullText words geminiApiKey requiredFields pageIndex
                  spatialMap in
  layer1Entities ++ nlpEntities ++ matchingEngineEntities.

Definition runDetectionPipeline (fullText : jsstring)
  (words : list OCRWord) (geminiApiKey : jsstring)
  (confidenceThreshold : Qc) (requiredFields : list jsstring)
  (pageIndex : Z) : list DetectedEntity :=
  mergeLayers
    (detectedLayers fullText words geminiApiKey requiredFields pageIndex)
    confidenceThreshold requiredFields.
End Orchestration.

(** Vocabulary of the retry properties: a call that failed with the
    rate-limit signal, and the first [k] delays of the backoff. *)
Definition rateLimited {T} (o : Gemini.outcome T) : bool :=
  match o with
  | Gemini.Rejected message => isRateLimit message
  | Gemini.Resolved _ => false
  end.

Definition backoff (initialDelayMs : Qc) (k : nat) : list Qc :=
  map (fun j => (initialDelayMs * Qcpower (qc 3 2) j)%Qc) (seq 0 k).

(** Vocabulary of the required-field rule: [e] is [e0] but for its mask. *)
Definition sameButMask (e0 e : DetectedEntity) : Prop :=
  ent_id e = ent_id e0 /\ ent_type e = ent_type e0
  /\ ent_value e = ent_value e0 /\ ent_confidence e = ent_confidence e0
  /\ ent_bbox e = ent_bbox e0 /\ ent_layer e = ent_layer e0.

(** Vocabulary of the deduplication properties: [confGe a b] says that [a]
    is at least as confident as [b]; [NoConflict l] that no entity of [l]
    conflicts with a later one. *)
Definition confGe (a b : DetectedEntity) : Prop :=
  (ent_confidence b <= ent_confidence a)%Qc.

Definition NoConflict (l : list DetectedEntity) : Prop :=
  forall i j a b, (i < j)%nat -> l !! i = Some a -> l !! j = Some b ->
                  conflicts a b = false.


End Pipeline.

(** ** Vocabulary of the geometry properties *)

Definition isMin (m : Z) (l : list Z) : Prop :=
  m ∈ l /\ forall z, z ∈ l -> m <= z.

Definition isMax (m : Z) (l : list Z) : Prop :=
  m ∈ l /\ forall z, z ∈ l -> z <= m.

(** The rectangle with the given edges is the min/max union of the token
    rectangles whose edges are listed. *)
Definition isUnion (lefts tops rights bottoms : list Z)
  (left top right bottom : Z) : Prop :=
  isMin left lefts /\ isMin top tops
  /\ isMax right rights /\ isMax bottom bottoms.

Definition unionOfWords (ws : list OCRWord) (b : BoundingBox) : Prop :=
  isUnion (map (fun w => bbox_x (word_bbox w)) ws)
          (map (fun w => bbox_y (word_bbox w)) ws)
          (map (fun w => bbox_x (word_bbox w) + bbox_w (word_bbox w)) ws)
          (map (fun w => bbox_y (word_bbox w) + bbox_h (word_bbox w)) ws)
          (bbox_x b) (bbox_y b)
          (bbox_x b + bbox_w b) (bbox_y b + bbox_h b).

(** The zone rectangle, less [pad] on every side, is the union of the
    entries. *)
Definition paddedUnionOfEntries (pad : Z) (es : list SpatialMapEntry)
  (z : RedactionZone) : Prop :=
  isUnion (map sm_left es) (map sm_top es)
          (map (fun e => sm_left e + sm_width e) es)
          (map (fun e => sm_top e + sm_height e) es)
          (zone_x z + pad) (zone_y z + pad)
          (zone_x z + zone_w z - pad) (zone_y z + zone_h z - pad).

(** ** Sample data used by the instances below *)

Module Samples.

Definition entA : DetectedEntity :=
  mkEntity (js "l1_0001") PAN (js "ABCDE1234F") (qc 9 10)
           (mkBBox 10 10 100 20 0) true 1.

Definition entB : DetectedEntity :=
  mkEntity (js "mz_0002") SENSITIVE (js "ABCDE1234F") (qc 6 10)
           (mkBBox 5 5 110 30 0) true 3.

(** A classifier that answers the first [n] requests with HTTP status 429
    and the following ones with a JSON array. *)
Definition quota : Gemini.httpResponse :=
  Gemini.HttpError 429 (js "quota exceeded") (js "Too Many Requests").

Definition answer : Gemini.httpResponse :=
  Gemini.HttpOk (Gemini.jsq "Forbidden: ['John Doe']").

Definition limitedFor (n k : nat) : Gemini.httpResponse :=
  if (k <? n)%nat then quota else answer.

Definition forbiddenCall (n k : nat) : Gemini.outcome (list jsstring) :=
  Gemini.getGeminiForbiddenList (js "John Doe lives in Pune") (js "key")
                                (limitedFor n k).

(** A phrase that wraps over a line break: its second word lies on the
    next line, to the left of the first. *)
Definition wrappedWords : list OCRWord :=
  [ mkWord (js "John") (qc 95 100) (mkBBox 100 0 40 12 0);
    mkWord (js "Doe") (qc 93 100) (mkBBox 10 20 30 12 0) ].

(** A page on which the matched text cannot be found among the words. *)
Definition strangerWords : list OCRWord :=
  [ mkWord (js "Ram") (qc 90 100) (mkBBox 12 30 44 14 0);
    mkWord (js "Kumar") (qc 90 100) (mkBBox 60 30 70 14 0) ].

(** The sentence of the matcher example, set on one line. *)
Definition sentenceWords : list OCRWord :=
  [ mkWord (js "John") (qc 96 100) (mkBBox 10 10 40 12 0);
    mkWord (js "Doe") (qc 95 100) (mkBBox 55 11 32 12 0);
    mkWord (js "lives") (qc 97 100) (mkBBox 92 10 44 12 0);
    mkWord (js "in") (qc 99 100) (mkBBox 140 10 16 12 0);
    mkWord (js "Pune") (qc 94 100) (mkBBox 160 10 40 13 0) ].

Definition sentenceMap : list SpatialMapEntry :=
  MatchingEngine.buildSpatialMap sentenceWords 0.

(** Zones that do not overlap: [zoneLeft] and [zoneNear] are 1px apart on
    one line; [zoneRight] and [zoneLow] are 80px apart horizontally;
    [zoneLeft] and [zoneFar] are 30px apart on one line. *)
Definition zoneLeft : RedactionZone :=
  mkZone 0 0 10 10 0 (js "John") [js "John"].

Definition zoneNear : RedactionZone :=
  mkZone 11 0 10 10 0 (js "Doe") [js "Doe"].




(** An answer of the legacy classifier naming one phrase that is on the
    page and one that is not. *)
Definition legacyAnswer : Gemini.httpResponse :=
  Gemini.HttpOk
    (Gemini.jsq
       ("[{'text':'John Doe','category':'name'},"
        ++ "{'text':'Jane Roe','category':'person'}]")).

Definition sampleUUID (k : nat) : jsstring :=
  js "3f2a9c1e-0000-4000-8000-00000000000" ++ Gemini.decimal k.

(** A regex matcher that reports one PAN in the text. *)
Definition panMatches (fullText : jsstring) : list Layer1.RegexMatch :=
  [Layer1.mkMatch PAN (js "ABCDE1234F") (js "ABCDE1234F") 5 15].

End Samples.

(** ** src/components/ReviewModal.tsx *)

Module ReviewModal.



(** [{ ...e, masked: m }] *)
Definition withMasked (m : bool) (e : DetectedEntity) : DetectedEntity :=
  mkEntity (ent_id e) (ent_type e) (ent_value e) (ent_confidence e)
           (ent_bbox e) m (ent_layer e).

(** The function [toggleEntity] maps over the entities of the dialog. *)
Definition toggleOne (requiredFields : list jsstring) (entityId : jsstring)
  (e : DetectedEntity) : DetectedEntity :=
  if negb (str_eqb (ent_id e) entityId) then e
  else if bool_decide (PIIType_name (ent_type e) ∈ requiredFields)
          && ent_masked e
       then e
       else withMasked (negb (ent_masked e)) e.

(** The state update of [toggleEntity]: the new value of [localEntities]
    from the previous one. *)
Definition toggleEntity (requiredFields : list jsstring)
  (entityId : jsstring) (prev : list DetectedEntity) : list DetectedEntity :=
  map (toggleOne requiredFields entityId) prev.

Definition maskedCount (localEntities : list DetectedEntity) : nat :=
  length (List.filter ent_masked localEntities).

Definition keptCount (localEntities : list DetectedEntity) : nat :=
  length (List.filter (fun e => negb (ent_masked e)) localEntities).

End ReviewModal.

(** ** src/processing/imageProcessor.ts *)

Module ImageProcessor.

Definition SUB_PIXEL_PADDING : Z := 5.

(** The arguments of one [ctx.fillRect(x, y, w, h)]. *)
Record Rect := mkRect {
  rect_x : Z;
  rect_y : Z;
  rect_w : Z;
  rect_h : Z
}.

(** The rectangles [redactImageRegions] fills with black, in the order of
    the calls. [hasContext] tells whether [canvas.getContext('2d')] gave a
    context; [canvasWidth] and [canvasHeight] are [canvas.width] and
    [canvas.height]. *)
Definition redactImageRegions (hasContext : bool)
  (canvasWidth canvasHeight : Z) (entities : list DetectedEntity)
  : list Rect :=
  if negb hasContext then []
  else
    let maskedEntities := List.filter ent_masked entities in
    map (fun entity =>
           let x := bbox_x (ent_bbox entity) in
           let y := bbox_y (ent_bbox entity) in
           let w := bbox_w (ent_bbox entity) in
           let h := bbox_h (ent_bbox entity) in
           let px := Z.max 0 (x - SUB_PIXEL_PADDING) in
           let py := Z.max 0 (y - SUB_PIXEL_PADDING) in
           let pw := Z.min (canvasWidth - px) (w + SUB_PIXEL_PADDING * 2) in
           let ph := Z.min (canvasHeight - py) (h + SUB_PIXEL_PADDING * 2) in
           mkRect px py pw ph)
        maskedEntities.

(** The pixel whose top-left corner is [(u, v)] is filled by
    [fillRect(x, y, w, h)]; a negative width or height extends the
    rectangle to the left of [x] or above [y]. *)
Definition paints (r : Rect) (u v : Z) : Prop :=
  Z.min (rect_x r) (rect_x r + rect_w r) <= u
  /\ u < Z.max (rect_x r) (rect_x r + rect_w r)
  /\ Z.min (rect_y r) (rect_y r + rect_h r) <= v
  /\ v < Z.max (rect_y r) (rect_y r + rect_h r).

(** The pixel [(u, v)] lies on a canvas of the given size, and in a box. *)
Definition onCanvas (canvasWidth canvasHeight u v : Z) : Prop :=
  0 <= u < canvasWidth /\ 0 <= v < canvasHeight.

Definition inBox (b : BoundingBox) (u v : Z) : Prop :=
  bbox_x b <= u < bbox_x b + bbox_w b
  /\ bbox_y b <= v < bbox_y b + bbox_h b.

End ImageProcessor.

(** ** Vocabulary of the further properties *)

(** The rectangle of [outer] contains that of [inner], on one page. *)
Definition zoneCovers (outer inner : RedactionZone) : Prop :=
  zone_pageIndex outer = zone_pageIndex inner
  /\ zone_x outer <= zone_x inner
  /\ zone_y outer <= zone_y inner
  /\ zone_x inner + zone_w inner <= zone_x outer + zone_w outer
  /\ zone_y inner + zone_h inner <= zone_y outer + zone_h outer.

(** A response the classifier call fails on. *)
Definition failing (r : Gemini.httpResponse) : Prop :=
  match r with Gemini.HttpOk _ => False | _ => True end.

(** No width or height of the words is negative. *)
Definition properWords (words : list OCRWord) : Prop :=
  forall w, w ∈ words ->
            0 <= bbox_w (word_bbox w) /\ 0 <= bbox_h (word_bbox w).

(** The cleaned texts of the [length tokens] words from index [i] on are
    the tokens. *)
Definition spellsAt (clean : jsstring -> jsstring) (tokens : list jsstring)
  (words : list OCRWord) (i : nat) : Prop :=
  map (fun w => clean (word_text w)) (slice words i (i + length tokens))
  = tokens.

(** The rectangle of the zone contains that of the entry with [pad] added
    on every side, on the entry's page. *)
Definition zoneCoversEntry (pad : Z) (z : RedactionZone)
  (e : SpatialMapEntry) : Prop :=
  zone_pageIndex z = sm_pageIndex e
  /\ zone_x z <= sm_left e - pad
  /\ zone_y z <= sm_top e - pad
  /\ sm_left e + sm_width e + pad <= zone_x z + zone_w z
  /\ sm_top e + sm_height e + pad <= zone_y z + zone_h z.

(** A spatial map as [buildSpatialMap] makes it for the words of one page:
    every entry is on that page and none is flagged. *)
Definition freshMap (pageIndex : Z) (spatialMap : list SpatialMapEntry)
  : Prop :=
  forall e, e ∈ spatialMap ->
            sm_pageIndex e = pageIndex /\ sm_redact e = false.

(** Every entry of the state is on page [p], and every flagged entry lies,
    with the padding, in a zone of the state. *)
Definition flaggedCovered (p : Z) (st : MatchingEngine.state) : Prop :=
  (forall e, e ∈ fst st -> sm_pageIndex e = p)
  /\ forall e, e ∈ fst st -> sm_redact e = true ->
               exists z, z ∈ snd st
                         /\ zoneCoversEntry MatchingEngine.REDACTION_PADDING
                                            z e.

(** The box the legacy finder builds from a run of words: from the left
    edge of the first word to the right edge of the last, and from the
    least top to the greatest bottom of all. *)
Definition legacyBoxOf (sl : list OCRWord) (b : BoundingBox) : Prop :=
  exists firstW lastW,
    head sl = Some firstW /\ last sl = Some lastW
    /\ bbox_x b = bbox_x (word_bbox firstW)
    /\ bbox_x b + bbox_w b
       = bbox_x (word_bbox lastW) + bbox_w (word_bbox lastW)
    /\ isMin (bbox_y b) (map (fun w => bbox_y (word_bbox w)) sl)
    /\ isMax (bbox_y b + bbox_h b)
             (map (fun w => bbox_y (word_bbox w) + bbox_h (word_bbox w)) sl).

(** The key under which the legacy loop remembers an entity's text. *)
Definition seenKey (e : DetectedEntity) : jsstring :=
  toLowerCase (ent_value e).

(** What the legacy loop keeps true of its state: every entity is one it
    would push, its key is among the texts seen, and no key occurs twice. *)
Definition legacyInv (pageIndex : Z) (st : list DetectedEntity * gset jsstring)
  : Prop :=
  (forall e, e ∈ fst st ->
             seenKey e ∈ snd st
             /\ ent_confidence e = qc 9 10 /\ ent_masked e = true
             /\ ent_layer e = 2%nat
             /\ bbox_pageIndex (ent_bbox e) = pageIndex
             /\ take 4 (ent_id e) = js "gem_")
  /\ NoDup (map seenKey (fst st)).

(** Vocabulary of the answers the classifier is asked for: a JSON array of
    string literals without escapes. [plainChar] is a character that
    stands for itself in a string literal; an element is a string with the
    white space written before and after its literal. *)
Definition plainChar (c : N) : bool :=
  (negb (c =? 34) && negb (c =? 92) && negb (c <? 32))%N.

Definition quoted (s : jsstring) : jsstring := 34%N :: s ++ [34%N].

Definition arrayElement : Type := jsstring * jsstring * jsstring.

Definition elementString (e : arrayElement) : jsstring := snd (fst e).

Definition elementText (e : arrayElement) : jsstring :=
  fst (fst e) ++ quoted (elementString e) ++ snd e.

Definition wellFormedElement (e : arrayElement) : bool :=
  forallb Gemini.isJsonWs (fst (fst e))
  && forallb plainChar (elementString e)
  && forallb Gemini.isJsonWs (snd e).

(** The elements separated by commas. *)
Fixpoint elementsText (l : list arrayElement) : jsstring :=
  match l with
  | [] => []
  | e :: l' =>
      match l' with
      | [] => elementText e
      | _ :: _ => elementText e ++ [44%N] ++ elementsText l'
      end
  end.

Definition arrayText (l : list arrayElement) : jsstring :=
  [91%N] ++ elementsText l ++ [93%N].

(** [item.trim().length > 0] *)
Definition nonBlank (s : jsstring) : bool := (0 <? length (trim s))%nat.

(** The sum of the delays a run slept, in milliseconds. *)
Definition totalDelay (delays : list Qc) : Qc :=
  fold_right Qcplus (qc 0 1) delays.

(** ** Further sample data *)

Module Cases.

(** An entity with the box the legacy finder returns for the wrapped
    phrase of [Samples.wrappedWords]: its width is negative. *)
Definition entWrapped : DetectedEntity :=
  mkEntity (js "gem_0003") NAME (js "John Doe") (qc 9 10)
           (mkBBox 100 0 (-60) 32 0) true 2.

(** An entity far from [Samples.entA] on the same page. *)
Definition entFar : DetectedEntity :=
  mkEntity (js "l1_0004") PHONE (js "9876543210") (qc 9 10)
           (mkBBox 10 200 90 20 0) true 1.

Definition textOfPage : jsstring := js "John Doe lives in Pune".

(** The entry of [Samples.sentenceMap] for the word John, and for the word
    Pune, as the matcher finds them. *)
Definition entryJohn : SpatialMapEntry :=
  mkEntry (js "John") 10 10 40 12 0 false.

Definition entryPune : SpatialMapEntry :=
  mkEntry (js "Pune") 160 10 40 13 0 false.


(** An entity of a required category in the review dialog. *)
Definition entName : DetectedEntity :=
  mkEntity (js "l2_0005") NAME (js "John Doe") (qc 85 100)
           (mkBBox 10 10 77 13 0) false 2.

(** The entity the semantic stage makes from the zone of John Doe. *)
Definition entZone : DetectedEntity :=
  mkEntity (js "mz_3f2a9c1e") SENSITIVE (js "John Doe") (qc 9 10)
           (mkBBox 5 5 87 23 0) true 3.

End Cases.

(** * Properties *)

Example split_ws_samples :
  split_ws (js "John  Doe") = [js "John"; js "Doe"]
  /\ split_ws (js "") = [[]]
  /\ split_ws (js " a") = [[]; js "a"]
  /\ split_ws (js "a ") = [js "a"; []]
  /\ trim (js "  John Doe ") = js "John Doe"
  /\ toLowerCase (js "John DOE-42") = js "john doe-42"
  /\ indexOf (js "abcabc") (js "bc") 2 = Some 4%nat
  /\ indexOf (js "abc") (js "") 7 = Some 3%nat
  /\ includes (js "Gemini API error 429: quota") (js "429") = true
  /\ substring (js "hello world") 6 11 = js "world".
Proof. repeat split; reflexivity. Qed.

(** ** The stable sort *)

Section SortFacts.
Context {A : Type} (gtb : A -> A -> bool).

Lemma sort_insert_perm a l : sort_insert gtb a l ≡ₚ a :: l.
Proof.
  induction l as [|b l IH]; simpl; [done|].
  destruct (gtb a b); [|done].
  rewrite IH. apply Permutation_swap.
Qed.

Lemma js_sort_perm l : js_sort gtb l ≡ₚ l.
Proof.
  induction l as [|a l IH]; simpl; [done|].
  by rewrite sort_insert_perm, IH.
Qed.



(** With a comparator that is a total preorder the result is sorted. *)
Context (le : relation A).
Hypothesis gtb_le : forall a b, gtb a b = false -> le a b.
Hypothesis gtb_ge : forall a b, gtb a b = true -> le b a.
Hypothesis le_trans : Transitive le.

Lemma sort_insert_sorted a l :
  StronglySorted le l -> StronglySorted le (sort_insert gtb a l).
Proof.
  induction 1 as [|b l Hl IH Hb]; simpl.
  - repeat constructor.
  - destruct (gtb a b) eqn:Hab.
    + constructor; [done|].
      rewrite sort_insert_perm. constructor; eauto.
    + constructor; [by constructor|].
      constructor; [eauto|].
      eapply Forall_impl; [exact Hb|]. intros c Hc.
      etrans; [|exact Hc]. eauto.
Qed.

Lemma js_sort_sorted l : StronglySorted le (js_sort gtb l).
Proof.
  induction l; simpl; [constructor|by apply sort_insert_sorted].
Qed.
End SortFacts.

(** ** Rational comparisons *)

Lemma Qcltb_true a b : Qcltb a b = true <-> (a < b)%Qc.
Proof.
  unfold Qcltb. rewrite Qclt_alt.
  destruct (a ?= b)%Qc; intuition congruence.
Qed.

Lemma Qcltb_false a b : Qcltb a b = false <-> (b <= a)%Qc.
Proof.
  rewrite <- not_true_iff_false, Qcltb_true.
  split; [apply Qcnot_lt_le | apply Qcle_not_lt].
Qed.

Lemma Qc_ratio_gt_half (a m : Z) :
  0 <= a -> (qc 1 2 < Qc_of_Z a / Qc_of_Z m)%Qc <-> 0 < m /\ m < 2 * a.
Proof.
  intros Ha.
  unfold Qclt, Qcdiv, Qcmult, Qcinv, qc, Qc_of_Z, Q2Qc. simpl this.
  rewrite !Qred_correct.
  destruct m as [|p|p]; unfold Qlt, Qinv, Qmult, inject_Z;
    simpl Qnum; simpl Qden; rewrite ?Pos2Z.inj_mul; lia.
Qed.

(** ** Cross-layer deduplication *)

Section DedupFacts.
Import Pipeline.

Lemma overlapArea_nonneg a b : 0 <= overlapArea a b.
Proof. unfold overlapArea. apply Z.mul_nonneg_nonneg; lia. Qed.

Lemma overlapRatio_gt_half a b :
  (qc 1 2 < overlapRatio a b)%Qc
  <-> 0 < minArea a b /\ minArea a b < 2 * overlapArea a b.
Proof. apply Qc_ratio_gt_half, overlapArea_nonneg. Qed.

Lemma conflicts_true k e :
  conflicts k e = true
  <-> bbox_pageIndex (ent_bbox k) = bbox_pageIndex (ent_bbox e)
      /\ (qc 1 2 < overlapRatio (ent_bbox k) (ent_bbox e))%Qc.
Proof.
  unfold conflicts, boxesOverlap.
  rewrite !andb_true_iff, !bool_decide_eq_true, Qcltb_true.
  rewrite overlapRatio_gt_half. tauto.
Qed.

Lemma dedupStep_cases acc e :
  (existsb (fun k => conflicts k e) acc = true /\ dedupStep acc e = acc)
  \/ (existsb (fun k => conflicts k e) acc = false
      /\ dedupStep acc e = acc ++ [e]).
Proof. unfold dedupStep. destruct (existsb _ acc); auto. Qed.

Lemma dedup_fold_extends l acc :
  exists r, fold_left dedupStep l acc = acc ++ r /\ r `sublist_of` l.
Proof.
  revert acc. induction l as [|e l IH]; intros acc; simpl.
  - exists []. by rewrite app_nil_r.
  - destruct (dedupStep_cases acc e) as [[_ ->]|[_ ->]].
    + destruct (IH acc) as (r & -> & Hr). exists r.
      split; [done|by apply sublist_cons].
    + destruct (IH (acc ++ [e])) as (r & -> & Hr). exists (e :: r).
      rewrite <- app_assoc. split; [done|by apply sublist_skip].
Qed.

Lemma dedupStep_NoConflict acc e :
  NoConflict acc -> NoConflict (dedupStep acc e).
Proof.
  intros Hacc.
  destruct (dedupStep_cases acc e) as [[_ ->]|[Hex ->]]; [done|].
  intros i j a b Hij Ha Hb.
  assert (Hj : (j < length (acc ++ [e]))%nat) by eauto using lookup_lt_Some.
  rewrite length_app in Hj. simpl in Hj.
  rewrite lookup_app_l in Ha by lia.
  destruct (decide (j < length acc)%nat).
  - rewrite lookup_app_l in Hb by lia. eauto.
  - rewrite lookup_app_r in Hb by lia.
    replace (j - length acc)%nat with 0%nat in Hb by lia.
    simpl in Hb. injection Hb as <-.
    apply not_true_iff_false. intros Hc.
    apply not_true_iff_false in Hex. apply Hex.
    apply existsb_exists. exists a. split; [|done].
    apply list_elem_of_In. eauto using list_elem_of_lookup_2.
Qed.

Lemma dedup_fold_NoConflict l acc :
  NoConflict acc -> NoConflict (fold_left dedupStep l acc).
Proof.
  revert acc. induction l; simpl; auto using dedupStep_NoConflict.
Qed.


Lemma byConfidenceDesc_sorted entities :
  StronglySorted confGe (js_sort byConfidenceDesc entities).
Proof.
  apply js_sort_sorted.
  - intros a b H. by apply Qcltb_false in H.
  - intros a b H. apply Qcltb_true in H. by apply Qclt_le_weak.
  - intros a b c Hab Hbc. unfold confGe in *. by etrans.
Qed.
End DedupFacts.



(** ** Required fields *)

Lemma survivors_subset allEntities threshold e :
  e ∈ Pipeline.survivors allEntities threshold -> e ∈ allEntities.
Proof.
  unfold Pipeline.survivors, Pipeline.deduplicateEntities. intros He.
  apply list_elem_of_In, filter_In in He as [He _].
  apply list_elem_of_In in He.
  destruct (dedup_fold_extends
              (js_sort Pipeline.byConfidenceDesc allEntities) [])
    as (r & Heq & Hr).
  rewrite Heq in He. simpl in He.
  rewrite <- (js_sort_perm Pipeline.byConfidenceDesc allEntities).
  by apply (sublist_subseteq _ _ Hr).
Qed.

Lemma markRequired_spec requiredFields e0 :
  Pipeline.sameButMask e0 (Pipeline.markRequired requiredFields e0)
  /\ (PIIType_name (ent_type e0) ∈ requiredFields ->
      ent_masked (Pipeline.markRequired requiredFields e0) = false)
  /\ (PIIType_name (ent_type e0) ∉ requiredFields ->
      Pipeline.markRequired requiredFields e0 = e0).
Proof.
  unfold Pipeline.markRequired, Pipeline.sameButMask.
  case_bool_decide; simpl; repeat split; try done.
Qed.

(** C5. In the output of the pipeline every entity whose category is in
    [requiredFields] has [masked = false], whichever layer produced it and
    whatever mask that layer set; an entity whose category is not in
    [requiredFields] is the entity its layer produced, with the mask the
    layer gave it. The output lists, in order, exactly the entities that
    survive deduplication and the confidence filter. *)
Theorem required_fields_forced_visible :
  forall (verhoeffValidate luhnValidate panValidate : jsstring -> bool)
         (findAllRegexMatches : jsstring -> list Layer1.RegexMatch)
         (runNLPWorker :
            list OCRWord -> Z -> Gemini.outcome (list DetectedEntity))
         (uuidLayer1 uuidZones uuidLegacy : nat -> jsstring)
         (primaryResponses legacyResponses : nat -> Gemini.httpResponse)
         (fullText : jsstring) (words : list OCRWord)
         (geminiApiKey : jsstring) (confidenceThreshold : Qc)
         (requiredFields : list jsstring) (pageIndex : Z),
    let layers :=
      Pipeline.detectedLayers verhoeffValidate luhnValidate panValidate
        findAllRegexMatches runNLPWorker uuidLayer1 uuidZones uuidLegacy
        primaryResponses legacyResponses
        fullText words geminiApiKey requiredFields pageIndex in
    let output :=
      Pipeline.runDetectionPipeline verhoeffValidate luhnValidate
        panValidate findAllRegexMatches runNLPWorker uuidLayer1 uuidZones
        uuidLegacy primaryResponses legacyResponses
        fullText words geminiApiKey confidenceThreshold requiredFields
        pageIndex in
    Forall2 (fun e0 e =>
               e0 ∈ layers
               /\ Pipeline.sameButMask e0 e
               /\ (PIIType_name (ent_type e0) ∈ requiredFields ->
                   ent_masked e = false)
               /\ (PIIType_name (ent_type e0) ∉ requiredFields -> e = e0))
            (Pipeline.survivors layers confidenceThreshold) output
    /\ (forall e, e ∈ output ->
          PIIType_name (ent_type e) ∈ requiredFields ->
          ent_masked e = false)
    /\ (forall e, e ∈ output ->
          PIIType_name (ent_type e) ∉ requiredFields ->
          e ∈ layers).
Proof.
  intros. unfold output, Pipeline.runDetectionPipeline, Pipeline.mergeLayers.
  fold layers.
  assert (Hin : forall e0,
             e0 ∈ Pipeline.survivors layers confidenceThreshold ->
             e0 ∈ layers) by (intros; by eapply survivors_subset).
  revert Hin. generalize (Pipeline.survivors layers confidenceThreshold).
  intros kept Hin. split; [|split].
  - induction kept as [|e0 kept IH]; simpl; constructor.
    + destruct (markRequired_spec requiredFields e0) as (H1 & H2 & H3).
      repeat split; try apply H1; auto. apply Hin. by left.
    + apply IH. intros. apply Hin. by right.
  - intros e He Hreq. apply list_elem_of_fmap in He as (e0 & -> & He0).
    destruct (markRequired_spec requiredFields e0) as ((_ & Ht & _) & H2 & _).
    apply H2. by rewrite <- Ht.
  - intros e He Hreq. apply list_elem_of_fmap in He as (e0 & -> & He0).
    destruct (markRequired_spec requiredFields e0) as ((_ & Ht & _) & _ & H3).
    rewrite H3; [by apply Hin|]. by rewrite <- Ht.
Qed.

(** ** Retry with backoff *)

Section RetryFacts.
Context {T : Type}.
Implicit Types (fn : nat -> Gemini.outcome T) (delay : Qc).

Lemma backoff_S delay k :
  Pipeline.backoff delay (S k)
  = delay :: Pipeline.backoff (delay * qc 3 2)%Qc k.
Proof.
  unfold Pipeline.backoff. rewrite <- cons_seq. rewrite map_cons. f_equal.
  - apply Qcmult_1_r.
  - rewrite <- seq_shift, map_map. apply map_ext. intros j.
    simpl Qcpower. by rewrite Qcmult_assoc.
Qed.

Lemma retryFrom_not_rateLimited fn remaining attempt delay :
  Pipeline.rateLimited (fn attempt) = false ->
  Pipeline.retryFrom fn remaining attempt delay
  = Pipeline.mkRun (fn attempt) [] 1.
Proof.
  intros H. destruct remaining; simpl; destruct (fn attempt); try done.
  simpl in H. by rewrite H.
Qed.

Lemma retryFrom_exhausted fn attempt delay :
  Pipeline.retryFrom fn 0 attempt delay = Pipeline.mkRun (fn attempt) [] 1.
Proof. simpl. by destruct (fn attempt). Qed.

Lemma retryFrom_rateLimited fn remaining attempt delay :
  Pipeline.rateLimited (fn attempt) = true ->
  Pipeline.retryFrom fn (S remaining) attempt delay
  = let r := Pipeline.retryFrom fn remaining (S attempt)
                                (delay * qc 3 2)%Qc in
    Pipeline.mkRun (Pipeline.run_outcome r)
                   (delay :: Pipeline.run_delays r)
                   (S (Pipeline.run_calls r)).
Proof.
  intros H. simpl. destruct (fn attempt); [done|].
  simpl in H. by rewrite H.
Qed.

(** The run is settled by the first call that is not rate-limited, or by
    the last call allowed. *)
Lemma retryFrom_run fn k : forall remaining attempt delay,
  (k <= remaining)%nat ->
  (forall j, (j < k)%nat ->
             Pipeline.rateLimited (fn (attempt + j)%nat) = true) ->
  Pipeline.rateLimited (fn (attempt + k)%nat) = false \/ k = remaining ->
  Pipeline.retryFrom fn remaining attempt delay
  = Pipeline.mkRun (fn (attempt + k)%nat) (Pipeline.backoff delay k) (S k).
Proof.
  induction k as [|k IH]; intros remaining attempt delay Hk Hlim Hend.
  - rewrite Nat.add_0_r in *. destruct Hend as [Hend| <-].
    + by apply retryFrom_not_rateLimited.
    + apply retryFrom_exhausted.
  - destruct remaining as [|remaining]; [lia|].
    rewrite retryFrom_rateLimited.
    2:{ specialize (Hlim 0%nat). rewrite Nat.add_0_r in Hlim.
        apply Hlim. lia. }
    rewrite (IH remaining (S attempt) (delay * qc 3 2)%Qc).
    + simpl. rewrite backoff_S. by rewrite Nat.add_succ_r.
    + lia.
    + intros j Hj. specialize (Hlim (S j)).
      rewrite Nat.add_succ_r in Hlim. apply Hlim. lia.
    + rewrite Nat.add_succ_r in Hend. destruct Hend; [by left|right; lia].
Qed.

Lemma retryFrom_bounded fn : forall remaining attempt delay,
  let r := Pipeline.retryFrom fn remaining attempt delay in
  (Pipeline.run_calls r <= S remaining)%nat
  /\ S (length (Pipeline.run_delays r)) = Pipeline.run_calls r.
Proof.
  induction remaining as [|remaining IH]; intros attempt delay; simpl.
  - destruct (fn attempt); simpl; lia.
  - destruct (fn attempt) as [v|message]; simpl; [lia|].
    destruct (Pipeline.isRateLimit message); simpl; [|lia].
    specialize (IH (S attempt) (delay * qc 3 2)%Qc). simpl in IH. lia.
Qed.
End RetryFacts.

Ltac qc_eq := apply Qc_is_canon; reflexivity.

(** C4, as stated, fails: the bound of the primary call is 3 retries, not 3
    attempts, and that of the legacy call 2 retries. A primary call that is
    rate-limited three times succeeds at its fourth attempt, and a legacy
    call that is rate-limited twice makes a third attempt. *)
Lemma withRetry_fourth_attempt :
  Pipeline.run_outcome (Pipeline.primaryCall (Samples.forbiddenCall 3))
  = Gemini.Resolved [js "John Doe"]
  /\ Pipeline.run_calls (Pipeline.primaryCall (Samples.forbiddenCall 3))
     = 4%nat
  /\ Pipeline.run_calls (Pipeline.legacyCall (Samples.forbiddenCall 2))
     = 3%nat.
Proof. repeat split; vm_compute; reflexivity. Qed.

(** C4, amended. [withRetry] calls [fn] again only after a failure whose
    message carries the 429 signal, at most [maxRetries] times: 3 retries
    (4 attempts) for the primary forbidden-list call and 2 retries
    (3 attempts) for the legacy call. The delays start at the initial delay
    (15000 ms at both call sites) and are multiplied by 1.5 after each
    attempt. The first call that succeeds or fails without the signal
    settles the run at once; a call that fails twice with the signal and
    then succeeds returns that result after exactly two delayed retries. *)
Theorem withRetry_contract :
  (forall T (fn : nat -> Gemini.outcome T) maxRetries initialDelayMs,
     let r := Pipeline.withRetry fn maxRetries initialDelayMs in
     (Pipeline.run_calls r <= maxRetries + 1)%nat
     /\ S (length (Pipeline.run_delays r)) = Pipeline.run_calls r)
  /\ (forall T (fn : nat -> Gemini.outcome T) maxRetries initialDelayMs k,
        (k <= maxRetries)%nat ->
        (forall j, (j < k)%nat -> Pipeline.rateLimited (fn j) = true) ->
        Pipeline.rateLimited (fn k) = false ->
        Pipeline.withRetry fn maxRetries initialDelayMs
        = Pipeline.mkRun (fn k) (Pipeline.backoff initialDelayMs k) (S k))
  /\ (forall T (fn : nat -> Gemini.outcome T) maxRetries initialDelayMs,
        (forall j, (j < maxRetries)%nat ->
                   Pipeline.rateLimited (fn j) = true) ->
        Pipeline.withRetry fn maxRetries initialDelayMs
        = Pipeline.mkRun (fn maxRetries)
                         (Pipeline.backoff initialDelayMs maxRetries)
                         (S maxRetries))
  /\ (forall T (fn : nat -> Gemini.outcome T) (v : T),
        Pipeline.rateLimited (fn 0%nat) = true ->
        Pipeline.rateLimited (fn 1%nat) = true ->
        fn 2%nat = Gemini.Resolved v ->
        Pipeline.primaryCall fn
        = Pipeline.mkRun (Gemini.Resolved v) [qc 15000 1; qc 22500 1] 3
        /\ Pipeline.legacyCall fn
           = Pipeline.mkRun (Gemini.Resolved v) [qc 15000 1; qc 22500 1] 3)
  /\ (forall T (fn : nat -> Gemini.outcome T),
        (forall j, Pipeline.rateLimited (fn j) = true) ->
        Pipeline.primaryCall fn
        = Pipeline.mkRun (fn 3%nat)
                         [qc 15000 1; qc 22500 1; qc 33750 1] 4
        /\ Pipeline.legacyCall fn
           = Pipeline.mkRun (fn 2%nat) [qc 15000 1; qc 22500 1] 3).
Proof.
  assert (Hb2 : Pipeline.backoff (qc 15000 1) 2 = [qc 15000 1; qc 22500 1]).
  { unfold Pipeline.backoff. simpl. repeat f_equal; qc_eq. }
  assert (Hb3 : Pipeline.backoff (qc 15000 1) 3
                = [qc 15000 1; qc 22500 1; qc 33750 1]).
  { unfold Pipeline.backoff. simpl. repeat f_equal; qc_eq. }
  split; [|split; [|split; [|split]]].
  - intros T fn maxRetries d r. unfold r, Pipeline.withRetry.
    rewrite Nat.add_1_r. apply retryFrom_bounded.
  - intros T fn maxRetries d k Hk Hlim Hend. unfold Pipeline.withRetry.
    rewrite (retryFrom_run fn k); auto.
  - intros T fn maxRetries d Hlim. unfold Pipeline.withRetry.
    rewrite (retryFrom_run fn maxRetries); auto.
  - intros T fn v H0 H1 H2.
    assert (Hlim : forall j, (j < 2)%nat -> Pipeline.rateLimited (fn j) = true).
    { intros j Hj. destruct j as [|[|j]]; [done|done|lia]. }
    unfold Pipeline.primaryCall, Pipeline.legacyCall, Pipeline.withRetry.
    assert (Hend : Pipeline.rateLimited (fn 2%nat) = false)
      by (by rewrite H2).
    rewrite (retryFrom_run fn 2 3), (retryFrom_run fn 2 2); auto.
    simpl. by rewrite H2, Hb2.
  - intros T fn Hlim.
    unfold Pipeline.primaryCall, Pipeline.legacyCall, Pipeline.withRetry.
    rewrite (retryFrom_run fn 3), (retryFrom_run fn 2); auto.
    simpl. by rewrite Hb2, Hb3.
Qed.

(** Two responses with status 429, then an answer. *)
Lemma withRetry_two_retries_then_success :
  Pipeline.primaryCall (Samples.forbiddenCall 2)
  = Pipeline.mkRun (Gemini.Resolved [js "John Doe"])
                   [qc 15000 1; qc 22500 1] 3
  /\ Pipeline.legacyCall (Samples.forbiddenCall 2)
     = Pipeline.mkRun (Gemini.Resolved [js "John Doe"])
                      [qc 15000 1; qc 22500 1] 3.
Proof.
  apply (proj1 (proj2 (proj2 (proj2 withRetry_contract)))
           _ (Samples.forbiddenCall 2) [js "John Doe"]);
    vm_compute; reflexivity.
Defined.

(** ** Deterministic matcher *)

Section Layer1Facts.
Variables verhoeffValidate luhnValidate panValidate : jsstring -> bool.
Variable findAllRegexMatches : jsstring -> list Layer1.RegexMatch.
Variable randomUUID : nat -> jsstring.

Local Abbreviation accepts :=
  (Layer1.validatorAccepts verhoeffValidate luhnValidate panValidate).
Local Abbreviation classify :=
  (Layer1.classify verhoeffValidate luhnValidate panValidate).

Lemma classify_spec m :
  classify m
  = (Layer1.specConfidence (accepts m) (Layer1.match_type m),
     negb (Layer1.hasValidator (Layer1.match_type m)) || accepts m).
Proof.
  unfold classify, accepts, Layer1.classify, Layer1.validatorAccepts,
    Layer1.specConfidence.
  destruct (Layer1.match_type m); simpl; try done;
    match goal with |- context [if ?b then _ else _] => by destruct b end.
Qed.

Lemma never_discarded accepted t : Layer1.specDiscarded accepted t = false.
Proof. by destruct accepted, t. Qed.

Lemma layer1_fold fullText words pageIndex ms : forall entities,
  exists new,
    fold_left (Layer1.layer1Step verhoeffValidate luhnValidate panValidate
                                 randomUUID fullText words pageIndex)
              ms entities
    = entities ++ new
    /\ Forall2 (Layer1.emitted accepts fullText words pageIndex)
               (List.filter
                  (fun m => negb (Layer1.specDiscarded
                                    (accepts m) (Layer1.match_type m)))
                  ms)
               new.
Proof.
  induction ms as [|m ms IH]; intros entities; simpl.
  { exists []. by rewrite app_nil_r. }
  unfold Layer1.layer1Step at 2. fold classify.
  rewrite classify_spec.
  assert (Hd : negb (negb (Layer1.hasValidator (Layer1.match_type m))
                     || accepts m)
               && Qcltb (Layer1.specConfidence (accepts m)
                                               (Layer1.match_type m))
                        (qc 5 10)
               = Layer1.specDiscarded (accepts m) (Layer1.match_type m)).
  { unfold Layer1.specDiscarded, Layer1.specConfidence.
    destruct (accepts m), (Layer1.match_type m); reflexivity. }
  rewrite Hd. destruct (Layer1.specDiscarded _ _); simpl; [apply IH|].
  edestruct IH as (new & -> & Hnew). eexists (_ :: new).
  rewrite <- app_assoc. split; [reflexivity|].
  constructor; [|exact Hnew]. by repeat split.
Qed.
End Layer1Facts.

(** C6. For every raw regex match the Deterministic Matcher emits an entity
    whose confidence is 1.0 when the category's validator accepts the value,
    else the floor of the category (AADHAAR 0.6, CREDIT_CARD 0.5, PAN 0.7);
    a category without a validator gets 0.85, PHONE 0.9. A match is dropped
    exactly when it is invalid and its demoted confidence is below 0.5; no
    floor is, so every match yields its entity, in order. *)
Theorem layer1_confidence_rule :
  forall (verhoeffValidate luhnValidate panValidate : jsstring -> bool)
         (findAllRegexMatches : jsstring -> list Layer1.RegexMatch)
         (randomUUID : nat -> jsstring)
         (fullText : jsstring) (words : list OCRWord) (pageIndex : Z),
    let accepts :=
      Layer1.validatorAccepts verhoeffValidate luhnValidate panValidate in
    let discarded m :=
      Layer1.specDiscarded (accepts m) (Layer1.match_type m) in
    let output :=
      Layer1.runLayer1Detection verhoeffValidate luhnValidate panValidate
        findAllRegexMatches randomUUID fullText words pageIndex in
    Forall2 (Layer1.emitted accepts fullText words pageIndex)
            (List.filter (fun m => negb (discarded m))
                         (findAllRegexMatches fullText))
            output
    /\ (forall m, discarded m = true
                  <-> Layer1.hasValidator (Layer1.match_type m) = true
                      /\ accepts m = false
                      /\ (Layer1.floorOf (Layer1.match_type m) < qc 5 10)%Qc)
    /\ Layer1.specConfidence true AADHAAR = qc 1 1
    /\ Layer1.specConfidence true CREDIT_CARD = qc 1 1
    /\ Layer1.specConfidence true PAN = qc 1 1
    /\ Layer1.specConfidence false AADHAAR = qc 6 10
    /\ Layer1.specConfidence false CREDIT_CARD = qc 5 10
    /\ Layer1.specConfidence false PAN = qc 7 10
    /\ (forall b, Layer1.specConfidence b PHONE = qc 9 10)
    /\ (forall b t, Layer1.hasValidator t = false -> t <> PHONE ->
                    Layer1.specConfidence b t = qc 85 100)
    /\ length output = length (findAllRegexMatches fullText).
Proof.
  intros.
  destruct (layer1_fold verhoeffValidate luhnValidate panValidate randomUUID
              fullText words pageIndex (findAllRegexMatches fullText) [])
    as (new & Heq & Hnew).
  assert (Hout : output = new) by apply Heq.
  rewrite Hout.
  split; [exact Hnew|]. split.
  { intros m. unfold discarded, Layer1.specDiscarded.
    rewrite !andb_true_iff, negb_true_iff, Qcltb_true. tauto. }
  do 6 (split; [reflexivity|]).
  split; [intros b; reflexivity|].
  split; [intros b t Ht Hp; destruct t; simpl in Ht;
           first [reflexivity | congruence]|].
  assert (Hkeep : forall l, List.filter (fun m => negb (discarded m)) l = l).
  { induction l as [|m l IH]; [done|]. simpl. unfold discarded at 1.
    rewrite never_discarded. simpl. by f_equal. }
  apply Forall2_length in Hnew. rewrite <- Hnew. f_equal. apply Hkeep.
Qed.

(** ** Merging token rectangles *)

Lemma fold_min_spec l : forall a,
  (fold_left Z.min l a = a \/ fold_left Z.min l a ∈ l)
  /\ fold_left Z.min l a <= a
  /\ forall z, z ∈ l -> fold_left Z.min l a <= z.
Proof.
  induction l as [|b l IH]; intros a; simpl.
  - split; [by left|]. split; [lia|]. intros z Hz. by apply elem_of_nil in Hz.
  - destruct (IH (Z.min a b)) as (Hin & Hle & Hall).
    split; [|split].
    + destruct Hin as [Hin|Hin]; [|right; by right].
      rewrite Hin. destruct (Z.min_spec a b) as [[_ ->]|[_ ->]];
        [by left|right; by left].
    + lia.
    + intros z Hz. apply elem_of_cons in Hz as [->|Hz]; [lia|auto].
Qed.

Lemma fold_max_spec l : forall a,
  (fold_left Z.max l a = a \/ fold_left Z.max l a ∈ l)
  /\ a <= fold_left Z.max l a
  /\ forall z, z ∈ l -> z <= fold_left Z.max l a.
Proof.
  induction l as [|b l IH]; intros a; simpl.
  - split; [by left|]. split; [lia|]. intros z Hz. by apply elem_of_nil in Hz.
  - destruct (IH (Z.max a b)) as (Hin & Hle & Hall).
    split; [|split].
    + destruct Hin as [Hin|Hin]; [|right; by right].
      rewrite Hin. destruct (Z.max_spec a b) as [[_ ->]|[_ ->]];
        [right; by left|by left].
    + lia.
    + intros z Hz. apply elem_of_cons in Hz as [->|Hz]; [lia|auto].
Qed.

Lemma Math_min_isMin l : l <> [] -> isMin (Math_min l) l.
Proof.
  destruct l as [|a l]; [done|]. intros _. simpl.
  destruct (fold_min_spec l a) as (Hin & Hle & Hall). split.
  - destruct Hin as [->|Hin]; [by left|by right].
  - intros z Hz. apply elem_of_cons in Hz as [->|Hz]; auto.
Qed.

Lemma Math_max_isMax l : l <> [] -> isMax (Math_max l) l.
Proof.
  destruct l as [|a l]; [done|]. intros _. simpl.
  destruct (fold_max_spec l a) as (Hin & Hle & Hall). split.
  - destruct Hin as [->|Hin]; [by left|by right].
  - intros z Hz. apply elem_of_cons in Hz as [->|Hz]; auto.
Qed.

Lemma map_not_nil {A B} (f : A -> B) l : l <> [] -> map f l <> [].
Proof. by destruct l. Qed.

(** The Alignment Engine merges by min/max union. *)
Lemma mergeWordBBoxes_union ws pageIndex :
  ws <> [] ->
  unionOfWords ws (Layer1.mergeWordBBoxes ws pageIndex)
  /\ bbox_pageIndex (Layer1.mergeWordBBoxes ws pageIndex) = pageIndex.
Proof.
  intros Hne. split; [|done].
  unfold unionOfWords, isUnion, Layer1.mergeWordBBoxes. simpl.
  rewrite !Zplus_minus.
  split; [|split; [|split]];
    first [apply Math_min_isMin | apply Math_max_isMax];
    by apply map_not_nil.
Qed.

(** The Phrase-to-Zone Matcher merges by min/max union, then pads. *)
Lemma zoneOf_padded_union matched original :
  matched <> [] ->
  paddedUnionOfEntries MatchingEngine.REDACTION_PADDING matched
                       (MatchingEngine.zoneOf matched original).
Proof.
  intros Hne.
  unfold paddedUnionOfEntries, isUnion, MatchingEngine.zoneOf,
    MatchingEngine.REDACTION_PADDING. simpl.
  set (minLeft := Math_min (map sm_left matched)).
  set (minTop := Math_min (map sm_top matched)).
  set (maxRight := Math_max (map (fun e => sm_left e + sm_width e) matched)).
  set (maxBottom := Math_max (map (fun e => sm_top e + sm_height e) matched)).
  replace (minLeft - 5 + 5) with minLeft by lia.
  replace (minTop - 5 + 5) with minTop by lia.
  replace (minLeft - 5 + (maxRight - minLeft + 5 * 2) - 5) with maxRight
    by lia.
  replace (minTop - 5 + (maxBottom - minTop + 5 * 2) - 5) with maxBottom
    by lia.
  split; [|split; [|split]];
    first [apply Math_min_isMin | apply Math_max_isMax];
    by apply map_not_nil.
Qed.

(** ** The fallback of the Alignment Engine *)

Lemma find_all_false {A} (f : A -> bool) l :
  (forall a, a ∈ l -> f a = false) -> List.find f l = None.
Proof.
  induction l as [|a l IH]; intros H; simpl; [done|].
  rewrite (H a) by (by left). apply IH. intros b Hb. apply H. by right.
Qed.

Lemma firstSome_all_None {A B} (f : A -> option B) l :
  (forall a, a ∈ l -> f a = None) -> Layer1.firstSome f l = None.
Proof.
  induction l as [|a l IH]; intros H; simpl; [done|].
  rewrite (H a) by (by left). apply IH. intros b Hb. apply H. by right.
Qed.

Lemma indexOf_aux_None_shift needle s : forall i j,
  indexOf_aux needle s i = None -> indexOf_aux needle s j = None.
Proof.
  induction s as [|c s IH]; intros i j; simpl;
    destruct (startsWith needle _); try done.
  apply IH.
Qed.

Lemma indexOf_aux_None_drop needle k : forall s i j,
  indexOf_aux needle s i = None -> indexOf_aux needle (drop k s) j = None.
Proof.
  induction k as [|k IH]; intros s i j H.
  - rewrite drop_0. by eapply indexOf_aux_None_shift.
  - destruct s as [|c s]; simpl drop.
    + by eapply indexOf_aux_None_shift.
    + apply (IH s (S i)). simpl in H.
      by destruct (startsWith needle (c :: s)).
Qed.

Lemma includes_false_indexOf s needle from :
  includes s needle = false -> indexOf s needle from = None.
Proof.
  unfold includes, indexOf. intros H. apply bool_decide_eq_false in H.
  apply eq_None_not_Some in H. simpl in H. rewrite drop_0 in H.
  by eapply indexOf_aux_None_drop.
Qed.

Section FallbackFacts.
Variables (fullText : jsstring) (startIdx endIdx : nat).
Variable words : list OCRWord.

Lemma positionScan_unlocated : forall ws currentPos matchingWords,
  (forall w, w ∈ ws -> includes fullText (word_text w) = false) ->
  Layer1.positionScan fullText startIdx endIdx ws currentPos matchingWords
  = matchingWords.
Proof.
  induction ws as [|w ws IH]; intros currentPos matchingWords H; [done|].
  simpl. rewrite includes_false_indexOf by (apply H; by left).
  apply IH. intros w' Hw'. apply H. by right.
Qed.

Lemma allMatch_first_mismatch cleanedTokens i :
  (forall w, w ∈ words ->
             head cleanedTokens <> Some (Layer1.clean (word_text w))) ->
  cleanedTokens <> [] ->
  Layer1.allMatch cleanedTokens words i = false.
Proof.
  intros H Hne. destruct cleanedTokens as [|t ts]; [done|].
  unfold Layer1.allMatch. simpl. rewrite Nat.add_0_r.
  destruct (words !! i) as [w|] eqn:Hw; [|done].
  apply list_elem_of_lookup_2 in Hw. apply H in Hw. simpl in Hw.
  unfold str_eqb. rewrite bool_decide_eq_false_2; [done|congruence].
Qed.

Lemma tokenStrategy_first_mismatch matchedText pageIndex :
  (forall w, w ∈ words ->
             head (Layer1.cleanedTokensOf matchedText)
             <> Some (Layer1.clean (word_text w))) ->
  Layer1.tokenStrategy matchedText words pageIndex = None.
Proof.
  intros H. unfold Layer1.tokenStrategy.
  fold (Layer1.cleanedTokensOf matchedText).
  destruct (_ && _); [|done].
  destruct (Layer1.cleanedTokensOf matchedText) as [|t ts] eqn:Htok;
    [done|].
  change (0 <? length (t :: ts))%nat with true. cbv iota.
  assert (Hex : Layer1.exactWindow (t :: ts) words = None).
  { unfold Layer1.exactWindow. destruct (_ <=? _)%nat; [|done].
    apply find_all_false. intros i _.
    by apply allMatch_first_mismatch. }
  assert (Hpa : Layer1.partialMatch (t :: ts) words = None).
  { unfold Layer1.partialMatch. apply firstSome_all_None. intros i _.
    unfold Layer1.partialAt.
    destruct (words !! i) as [w|] eqn:Hw; [|done].
    apply list_elem_of_lookup_2 in Hw. apply H in Hw. simpl in Hw.
    rewrite bool_decide_eq_false_2; [done|]. simpl. congruence. }
  by rewrite Hex, Hpa.
Qed.
End FallbackFacts.

(** C2, as stated, fails: the box returned when neither strategy locates a
    token is 100 wide and 20 high, not of zero size. *)
Lemma mapTextToBBox_fallback_not_zero_size :
  let fullText := js "PAN: ABCDE1234F" in
  Layer1.tokenStrategy (trim (substring fullText 5 15)) Samples.strangerWords 0
  = None
  /\ Layer1.positionScan fullText 5 15 Samples.strangerWords 0 [] = []
  /\ Layer1.mapTextToBBox 5 15 fullText Samples.strangerWords 0
     = mkBBox 0 0 100 20 0
  /\ bbox_w (Layer1.mapTextToBBox 5 15 fullText Samples.strangerWords 0) <> 0
  /\ bbox_h (Layer1.mapTextToBBox 5 15 fullText Samples.strangerWords 0) <> 0.
Proof. vm_compute. repeat split; discriminate. Qed.

(** C2, amended. Whenever the token-sequence strategy (exact window and
    partial fallback) and the character-offset strategy both locate no
    token, [mapTextToBBox] does not fail but returns the fixed box at the
    origin of the requested page, x = 0, y = 0, 100 wide and 20 high. That
    is the case, in particular, when no word equals the first token of the
    matched text and no word's text occurs in the full text, and when there
    are no words at all. *)
Theorem mapTextToBBox_fallback :
  forall (startIdx endIdx : nat) (fullText : jsstring)
         (words : list OCRWord) (pageIndex : Z),
    let matchedText := trim (substring fullText startIdx endIdx) in
    let result :=
      Layer1.mapTextToBBox startIdx endIdx fullText words pageIndex in
    (Layer1.tokenStrategy matchedText words pageIndex = None ->
     Layer1.positionScan fullText startIdx endIdx words 0 [] = [] ->
     result = mkBBox 0 0 100 20 pageIndex)
    /\ ((forall w, w ∈ words ->
                   head (Layer1.cleanedTokensOf matchedText)
                   <> Some (Layer1.clean (word_text w))) ->
        (forall w, w ∈ words -> includes fullText (word_text w) = false) ->
        result = mkBBox 0 0 100 20 pageIndex)
    /\ (words = [] -> result = mkBBox 0 0 100 20 pageIndex)
    /\ bbox_pageIndex result = pageIndex.
Proof.
  intros. unfold result, Layer1.mapTextToBBox. fold matchedText.
  assert (H1 : Layer1.tokenStrategy matchedText words pageIndex = None ->
               Layer1.positionScan fullText startIdx endIdx words 0 [] = [] ->
               match Layer1.tokenStrategy matchedText words pageIndex with
               | Some r => r
               | None =>
                   if (0 <? length (Layer1.positionScan fullText startIdx
                                      endIdx words 0 []))%nat
                   then Layer1.mergeWordBBoxes
                          (Layer1.positionScan fullText startIdx endIdx
                                               words 0 []) pageIndex
                   else Layer1.fallbackBBox pageIndex
               end = mkBBox 0 0 100 20 pageIndex).
  { intros -> ->. reflexivity. }
  split; [exact H1|]. split; [|split].
  - intros Htok Hpos. apply H1.
    + by apply tokenStrategy_first_mismatch.
    + by apply positionScan_unlocated.
  - intros ->. apply H1; [|done].
    apply tokenStrategy_first_mismatch. intros w Hw.
    by apply elem_of_nil in Hw.
  - destruct (Layer1.tokenStrategy matchedText words pageIndex) as [r|] eqn:E.
    + unfold Layer1.tokenStrategy in E.
      repeat match type of E with
             | (if ?b then _ else _) = _ => destruct b; [|done]
             | match ?o with _ => _ end = _ => destruct o; [|try done]
             end; by injection E as <-.
    + by destruct (0 <? _)%nat.
Qed.

(** A matched text none of whose tokens is among the words. *)
Lemma mapTextToBBox_fallback_instance :
  Layer1.mapTextToBBox 5 15 (js "PAN: ABCDE1234F") Samples.strangerWords 0
  = mkBBox 0 0 100 20 0.
Proof.
  apply (proj1 (mapTextToBBox_fallback 5 15 (js "PAN: ABCDE1234F")
                  Samples.strangerWords 0)); reflexivity.
Defined.

(** C7 fails on the code: for a phrase that wraps over a line break the
    legacy bbox finder takes the left edge of the first word and the right
    edge of the last, which is not the min/max union its sibling
    [mergeWordBBoxes] computes for the same words: the box starts at x = 100
    although a word starts at x = 10, and its width is negative. *)
Theorem findBBoxForString_wrapped_phrase :
  Gemini.findBBoxForString (js "John Doe") Samples.wrappedWords 0
  = Some (mkBBox 100 0 (-60) 32 0)
  /\ Layer1.mergeWordBBoxes Samples.wrappedWords 0 = mkBBox 10 0 130 32 0
  /\ unionOfWords Samples.wrappedWords (mkBBox 10 0 130 32 0)
  /\ ~ unionOfWords Samples.wrappedWords (mkBBox 100 0 (-60) 32 0).
Proof.
  split; [reflexivity|]. split; [reflexivity|]. split.
  - change (mkBBox 10 0 130 32 0)
      with (Layer1.mergeWordBBoxes Samples.wrappedWords 0).
    by apply mergeWordBBoxes_union.
  - intros [[_ Hmin] _]. specialize (Hmin 10). simpl in Hmin.
    assert (100 <= 10); [|lia]. apply Hmin. right. by left.
Qed.

(** ** The multi-word pass of the Phrase-to-Zone Matcher *)

Section MatcherFacts.
Import MatchingEngine.

Lemma unmark_markRedact e : unmark (markRedact e) = unmark e.
Proof. done. Qed.

Lemma markRedact_idemp e : markRedact (markRedact e) = markRedact e.
Proof. done. Qed.

Lemma unmark_alter j : forall sm : list SpatialMapEntry,
  map unmark (alter markRedact j sm) = map unmark sm.
Proof.
  induction j as [|j IH]; intros [|e sm]; try reflexivity.
  change (alter markRedact (S j) (e :: sm))
    with (e :: alter markRedact j sm).
  simpl. by rewrite IH.
Qed.

Lemma unmark_markAll js : forall sm,
  map unmark (markAll js sm) = map unmark sm.
Proof.
  induction js as [|j js IH]; intros sm; [done|].
  unfold markAll. simpl. fold (markAll js (alter markRedact j sm)).
  by rewrite IH, unmark_alter.
Qed.

Lemma length_markAll js sm : length (markAll js sm) = length sm.
Proof.
  rewrite <- (length_map unmark (markAll js sm)), unmark_markAll.
  apply length_map.
Qed.

Lemma lookup_unmark (sm sm' : list SpatialMapEntry) k :
  map unmark sm = map unmark sm' ->
  unmark <$> sm !! k = unmark <$> sm' !! k.
Proof.
  intros H. rewrite <- !list_lookup_fmap.
  change (fmap unmark sm) with (map unmark sm).
  change (fmap unmark sm') with (map unmark sm'). by rewrite H.
Qed.

Lemma forallb_pointwise {A} (f g : A -> bool) l :
  (forall a, f a = g a) -> forallb f l = forallb g l.
Proof. intros H. induction l; simpl; [done|]. by rewrite H, IHl. Qed.

Lemma allMatch_unmark toks sm sm' i :
  map unmark sm = map unmark sm' ->
  allMatch toks sm i = allMatch toks sm' i.
Proof.
  intros H. unfold allMatch. apply forallb_pointwise. intros j. cbv beta.
  pose proof (lookup_unmark sm sm' (i + j) H) as Hk.
  destruct (sm !! (i + j)%nat) as [e|], (sm' !! (i + j)%nat) as [e'|];
    simpl in Hk; try done.
  injection Hk as Hk _ _ _ _ _. by rewrite Hk.
Qed.

Lemma zoneOf_unmark l o : zoneOf l o = zoneOf (map unmark l) o.
Proof.
  unfold zoneOf. rewrite !map_map. simpl. by destruct l.
Qed.

Lemma slice_unmark (sm sm' : list SpatialMapEntry) i j :
  map unmark sm = map unmark sm' ->
  map unmark (slice sm i j) = map unmark (slice sm' i j).
Proof.
  intros H. unfold slice.
  change (map unmark) with (fmap (M:=list) unmark) in *.
  by rewrite !fmap_take, !fmap_drop, H.
Qed.

Lemma markAll_cons j js sm :
  markAll (j :: js) sm = markAll js (alter markRedact j sm).
Proof. done. Qed.

Lemma markAll_app js1 js2 sm :
  markAll (js1 ++ js2) sm = markAll js2 (markAll js1 sm).
Proof. unfold markAll. apply fold_left_app. Qed.

Lemma markAll_lookup js : forall sm k,
  markAll js sm !! k
  = if bool_decide (k ∈ js) then markRedact <$> sm !! k else sm !! k.
Proof.
  induction js as [|j js IH]; intros sm k; [done|].
  rewrite markAll_cons, IH.
  destruct (decide (k = j)) as [->|Hne].
  - rewrite (bool_decide_eq_true_2 (j ∈ j :: js)) by (by left).
    rewrite list_lookup_alter_eq.
    destruct (sm !! j); simpl; by case_bool_decide.
  - rewrite list_lookup_alter_ne by done.
    rewrite (bool_decide_ext (k ∈ j :: js) (k ∈ js)); [done|].
    rewrite elem_of_cons. intuition congruence.
Qed.

(** The exact pass pushes one zone for each matching window, in order,
    and marks the entries of those windows. *)
Lemma exactPass_fold phrase sm0 l : forall sm zones,
  map unmark sm = map unmark sm0 ->
  fold_left (exactStep phrase) l (sm, zones)
  = (markAll
       (concat (map (fun i => windowIndices i (length (tokens phrase)))
                    (List.filter (allMatch (tokens phrase) sm0) l)))
       sm,
     zones ++ map (windowZone phrase sm0)
                  (List.filter (allMatch (tokens phrase) sm0) l)).
Proof.
  induction l as [|i l IH]; intros sm zones Hsm; simpl.
  { by rewrite app_nil_r. }
  rewrite (allMatch_unmark _ sm sm0 i Hsm).
  destruct (allMatch (tokens phrase) sm0 i) eqn:Hm.
  - rewrite IH by (by rewrite unmark_markAll).
    simpl. rewrite markAll_app, <- app_assoc. simpl.
    unfold windowZone, windowIndices.
    rewrite (zoneOf_unmark (slice sm _ _)), (zoneOf_unmark (slice sm0 _ _)).
    by rewrite (slice_unmark sm sm0).
  - by apply IH.
Qed.

Lemma markRedact_unmark a b :
  unmark a = unmark b -> markRedact a = markRedact b.
Proof.
  destruct a, b. unfold unmark, markRedact. simpl. congruence.
Qed.

Lemma exactPass_windows phrase sm0 sm zones :
  map unmark sm = map unmark sm0 ->
  exactPass phrase (sm, zones)
  = (markAll
       (concat (map (fun i => windowIndices i (length (tokens phrase)))
                    (if (length (tokens phrase) <=? length sm0)%nat
                     then matchingWindows phrase sm0 else [])))
       sm,
     zones ++ map (windowZone phrase sm0)
                  (if (length (tokens phrase) <=? length sm0)%nat
                   then matchingWindows phrase sm0 else [])).
Proof.
  intros Hsm. unfold exactPass. simpl fst.
  assert (Hlen : length sm = length sm0).
  { rewrite <- (length_map unmark sm), Hsm. apply length_map. }
  rewrite Hlen. destruct (_ <=? _)%nat.
  - by apply exactPass_fold.
  - simpl. by rewrite app_nil_r.
Qed.

Lemma extends_refl : Reflexive extends.
Proof. intros st. exists [], []. by rewrite app_nil_r. Qed.

Lemma extends_trans : Transitive extends.
Proof.
  intros st1 st2 st3 (js & zs & H1 & H2) (js' & zs' & H3 & H4).
  exists (js ++ js'), (zs ++ zs').
  by rewrite markAll_app, <- H1, H3, H4, H2, app_assoc.
Qed.

Lemma exactPass_extends phrase st : extends st (exactPass phrase st).
Proof.
  destruct st as [sm zones].
  rewrite (exactPass_windows phrase sm sm zones eq_refl). by eexists _, _.
Qed.

Lemma fallbackPass_extends phrase st : extends st (fallbackPass phrase st).
Proof.
  destruct st as [sm zones]. unfold fallbackPass.
  destruct (existsb _ zones); [apply extends_refl|].
  destruct (Layer1.firstSome _ _); [|apply extends_refl]. by eexists _, _.
Qed.

Lemma singleStep_extends singleWords st i :
  extends st (singleStep singleWords st i).
Proof.
  destruct st as [sm zones]. unfold singleStep.
  destruct (sm !! i) as [entry|]; [|apply extends_refl].
  destruct (sm_redact entry); [apply extends_refl|].
  destruct (_ =? _)%nat; [apply extends_refl|].
  case_bool_decide; [|apply extends_refl].
  by exists [i], [mkZone (sm_left entry - REDACTION_PADDING)
                         (sm_top entry - REDACTION_PADDING)
                         (sm_width entry + REDACTION_PADDING * 2)
                         (sm_height entry + REDACTION_PADDING * 2)
                         (sm_pageIndex entry) (sm_text entry)
                         [sm_text entry]].
Qed.

Lemma fold_extends {A} (step : state -> A -> state) l :
  (forall st a, extends st (step st a)) ->
  forall st, extends st (fold_left step l st).
Proof.
  intros Hstep. induction l as [|a l IH]; intros st; simpl;
    [apply extends_refl|].
  eapply extends_trans; [apply Hstep|apply IH].
Qed.

Lemma extends_unmark st st' :
  extends st st' -> map unmark (fst st') = map unmark (fst st).
Proof. intros (js & zs & -> & _). apply unmark_markAll. Qed.

Lemma extends_marked st st' j e :
  extends st st' -> fst st !! j = Some (markRedact e) ->
  fst st' !! j = Some (markRedact e).
Proof.
  intros (js & zs & -> & _) H. rewrite markAll_lookup, H.
  by case_bool_decide.
Qed.


End MatcherFacts.

Section MatcherWindow.
Import MatchingEngine.


End MatcherWindow.



(** ** Zone merge *)

Lemma js_sort_in_order {A} (gtb : A -> A -> bool) (l : list A) :
  (forall i j a b, (i < j)%nat -> l !! i = Some a -> l !! j = Some b ->
                   gtb a b = false) ->
  js_sort gtb l = l.
Proof.
  induction l as [|a l IH]; intros H; [done|].
  simpl. rewrite IH.
  - destruct l as [|b l]; [done|]. simpl.
    by rewrite (H 0%nat 1%nat a b) by (done || lia).
  - intros i j x y Hij Hx Hy. apply (H (S i) (S j)); (done || lia).
Qed.

Section MergeFacts.
Import MatchingEngine.




Lemma removelast_last {A} (l : list A) (x : A) :
  last l = Some x -> l = removelast l ++ [x].
Proof.
  intros H. destruct (decide (l = [])) as [->|Hne]; [done|].
  rewrite (app_removelast_last x Hne) at 1. f_equal. f_equal.
  clear Hne. induction l as [|y [|z l] IH]; simpl in *; try done.
  - congruence.
  - by apply IH.
Qed.

Lemma mergeStep_words merged current :
  concat (map zone_matchedWords (mergeStep merged current))
  = concat (map zone_matchedWords merged) ++ zone_matchedWords current.
Proof.
  unfold mergeStep. destruct (last merged) as [lastZone|] eqn:Hl.
  - destruct (adjacent lastZone current).
    + rewrite (removelast_last merged lastZone Hl) at 2.
      rewrite !map_app, !concat_app. simpl.
      by rewrite !app_nil_r, app_assoc.
    + rewrite map_app, concat_app. simpl. by rewrite app_nil_r.
  - rewrite map_app, concat_app. simpl. by rewrite app_nil_r.
Qed.

Lemma merge_fold_words l : forall merged,
  concat (map zone_matchedWords (fold_left mergeStep l merged))
  = concat (map zone_matchedWords merged)
    ++ concat (map zone_matchedWords l).
Proof.
  induction l as [|c l IH]; intros merged; simpl.
  - by rewrite app_nil_r.
  - by rewrite IH, mergeStep_words, <- app_assoc.
Qed.

Lemma mergeAdjacentZones_unfold zones :
  mergeAdjacentZones zones
  = match js_sort zoneOrder zones with
    | [] => []
    | first :: rest => fold_left mergeStep rest [first]
    end.
Proof.
  unfold mergeAdjacentZones. destruct zones as [|a [|b zones]]; done.
Qed.
End MergeFacts.




(** ** The JSON model

    The fuel of the parser is never the reason for a rejection: every fuel
    above the length of the text gives the same result. *)

Section JsonFacts.
Import Gemini.

Lemma skipWs_length s : (length (skipWs s) <= length s)%nat.
Proof.
  induction s as [|c s IH]; simpl; [lia|].
  destruct (isJsonWs c); simpl; lia.
Qed.

Lemma parseString_shrinks n : forall s acc str r,
  (length s <= n)%nat -> parseString s acc = Some (str, r) ->
  (length r < length s)%nat.
Proof.
  induction n as [|n IH]; intros s acc str r Hn H.
  - destruct s; [done|simpl in Hn; lia].
  - destruct s as [|c s]; [done|]. simpl in H, Hn.
    repeat case_match; simplify_eq; simpl in *; try lia;
      match goal with
      | H : parseString ?s' _ = Some _ |- _ => apply IH in H; simpl in *; lia
      end.
Qed.

Lemma spanDigits_length s : forall d r,
  spanDigits s = (d, r) -> length s = (length d + length r)%nat.
Proof.
  induction s as [|c s IH]; intros d r H; simpl in H.
  - by simplify_eq.
  - destruct (isDigit c).
    + destruct (spanDigits s) as [d' r'] eqn:E. simplify_eq.
      simpl. by rewrite (IH d' r eq_refl).
    + by simplify_eq.
Qed.

Lemma spanDigits_digit c s d r :
  isDigit c = true -> spanDigits (c :: s) = (d, r) ->
  (length r <= length s)%nat.
Proof.
  intros Hc H. simpl in H. rewrite Hc in H.
  destruct (spanDigits s) as [d' r'] eqn:E. simplify_eq.
  apply spanDigits_length in E. lia.
Qed.

Local Opaque spanDigits.
Lemma parseNumber_shrinks s lex r :
  parseNumber s = Some (lex, r) -> (length r < length s)%nat.
Proof.
  unfold parseNumber. intros H.
  repeat case_match; simplify_eq;
    repeat match goal with
           | Hd : isDigit ?c = true, H : spanDigits (?c :: _) = _ |- _ =>
               apply (spanDigits_digit _ _ _ _ Hd) in H
           | H : spanDigits _ = _ |- _ => apply spanDigits_length in H
           end; simpl in *; lia.
Qed.
Local Transparent spanDigits.


Lemma parseElements_shrinks pv : shrinking pv ->
  forall fuel s acc items r,
    parseElements pv fuel s acc = Some (items, r) -> (length r < length s)%nat.
Proof.
  intros Hpv. induction fuel as [|fuel IH]; intros s acc items r H; [done|].
  simpl in H. destruct (pv s) as [[v r1]|] eqn:E; [|done].
  apply Hpv in E. pose proof (skipWs_length r1) as Hws.
  destruct (skipWs r1) as [|c r'] eqn:E1; [done|]. simpl in Hws.
  repeat case_match; simplify_eq.
  - apply IH in H. lia.
  - lia.
Qed.

Lemma parseMembers_shrinks pv : shrinking pv ->
  forall fuel s acc fields r,
    parseMembers pv fuel s acc = Some (fields, r) -> (length r < length s)%nat.
Proof.
  intros Hpv. induction fuel as [|fuel IH]; intros s acc fields r H; [done|].
  simpl in H. pose proof (skipWs_length s) as Hws.
  destruct (skipWs s) as [|q r0]; [done|]. simpl in Hws.
  destruct (q =? 34)%N; [|done].
  destruct (parseString r0 []) as [[key r1]|] eqn:Es; [|done].
  apply (parseString_shrinks (length r0)) in Es; [|lia].
  pose proof (skipWs_length r1) as Hws1.
  destruct (skipWs r1) as [|colon r2]; [done|]. simpl in Hws1.
  destruct (colon =? 58)%N; [|done].
  destruct (pv r2) as [[v r3]|] eqn:E; [|done]. apply Hpv in E.
  pose proof (skipWs_length r3) as Hws3.
  destruct (skipWs r3) as [|c r4]; [done|]. simpl in Hws3.
  repeat case_match; simplify_eq.
  - apply IH in H. lia.
  - lia.
Qed.

Lemma parseValue_shrinks fuel : shrinking (parseValue fuel).
Proof.
  induction fuel as [|fuel IH]; intros s v r H; [done|].
  simpl in H. pose proof (skipWs_length s) as Hws.
  destruct (skipWs s) as [|c r0]; [done|]. simpl in Hws.
  repeat case_match; simplify_eq; simpl in *; try lia.
  all: repeat match goal with
         | H : skipWs ?x = _ |- _ =>
             let Hl := fresh in
             pose proof (skipWs_length x) as Hl; rewrite H in Hl; clear H;
             simpl in Hl
         | H : parseElements _ _ _ _ = Some _ |- _ =>
             apply (parseElements_shrinks _ IH) in H
         | H : parseMembers _ _ _ _ = Some _ |- _ =>
             apply (parseMembers_shrinks _ IH) in H
         | H : parseString ?x _ = Some _ |- _ =>
             apply (parseString_shrinks (length x)) in H; [|lia]
         | H : parseNumber _ = Some _ |- _ => apply parseNumber_shrinks in H
         end; simpl in *; try lia.
  all: rewrite ?length_drop; simpl; try lia.
Qed.

Lemma shrinking_nil pv : shrinking pv -> pv [] = None.
Proof.
  intros H. destruct (pv []) as [[v r]|] eqn:E; [|done].
  apply H in E. simpl in E. lia.
Qed.

Lemma parseElements_ext pv1 pv2 : shrinking pv1 ->
  forall fuel s acc,
    (forall s', (length s' <= length s)%nat -> pv1 s' = pv2 s') ->
    parseElements pv1 fuel s acc = parseElements pv2 fuel s acc.
Proof.
  intros Hpv. induction fuel as [|fuel IH]; intros s acc H; [done|].
  simpl. rewrite <- (H s) by lia.
  destruct (pv1 s) as [[v r1]|] eqn:E; [|done]. apply Hpv in E.
  pose proof (skipWs_length r1) as Hws.
  destruct (skipWs r1) as [|c r']; [done|]. simpl in Hws.
  destruct (c =? 44)%N; [|done]. apply IH. intros s' Hs'. apply H. lia.
Qed.

Lemma parseMembers_ext pv1 pv2 : shrinking pv1 ->
  forall fuel s acc,
    (forall s', (length s' <= length s)%nat -> pv1 s' = pv2 s') ->
    parseMembers pv1 fuel s acc = parseMembers pv2 fuel s acc.
Proof.
  intros Hpv. induction fuel as [|fuel IH]; intros s acc H; [done|].
  simpl. pose proof (skipWs_length s) as Hws.
  destruct (skipWs s) as [|q r0]; [done|]. simpl in Hws.
  destruct (q =? 34)%N; [|done].
  destruct (parseString r0 []) as [[key r1]|] eqn:Es; [|done].
  apply (parseString_shrinks (length r0)) in Es; [|lia].
  pose proof (skipWs_length r1) as Hws1.
  destruct (skipWs r1) as [|colon r2]; [done|]. simpl in Hws1.
  destruct (colon =? 58)%N; [|done].
  rewrite <- (H r2) by lia.
  destruct (pv1 r2) as [[v r3]|] eqn:E; [|done]. apply Hpv in E.
  pose proof (skipWs_length r3) as Hws3.
  destruct (skipWs r3) as [|c r4]; [done|]. simpl in Hws3.
  destruct (c =? 44)%N; [|done]. apply IH. intros s' Hs'. apply H. lia.
Qed.

Lemma parseElements_fuel pv : shrinking pv ->
  forall k k' s acc,
    (length s <= k)%nat -> (length s <= k')%nat ->
    parseElements pv k s acc = parseElements pv k' s acc.
Proof.
  intros Hpv. induction k as [|k IH]; intros k' s acc Hk Hk'.
  - destruct s; [|simpl in Hk; lia]. destruct k'; [done|].
    simpl. by rewrite (shrinking_nil pv Hpv).
  - destruct k' as [|k'].
    + destruct s; [|simpl in Hk'; lia]. simpl.
      by rewrite (shrinking_nil pv Hpv).
    + simpl. destruct (pv s) as [[v r1]|] eqn:E; [|done]. apply Hpv in E.
      pose proof (skipWs_length r1) as Hws.
      destruct (skipWs r1) as [|c r']; [done|]. simpl in Hws.
      destruct (c =? 44)%N; [|done]. apply IH; lia.
Qed.

Lemma parseMembers_fuel pv : shrinking pv ->
  forall k k' s acc,
    (length s <= k)%nat -> (length s <= k')%nat ->
    parseMembers pv k s acc = parseMembers pv k' s acc.
Proof.
  intros Hpv. induction k as [|k IH]; intros k' s acc Hk Hk'.
  - destruct s; [|simpl in Hk; lia]. by destruct k'.
  - destruct k' as [|k'].
    + destruct s; [|simpl in Hk'; lia]. done.
    + simpl. pose proof (skipWs_length s) as Hws.
      destruct (skipWs s) as [|q r0]; [done|]. simpl in Hws.
      destruct (q =? 34)%N; [|done].
      destruct (parseString r0 []) as [[key r1]|] eqn:Es; [|done].
      apply (parseString_shrinks (length r0)) in Es; [|lia].
      pose proof (skipWs_length r1) as Hws1.
      destruct (skipWs r1) as [|colon r2]; [done|]. simpl in Hws1.
      destruct (colon =? 58)%N; [|done].
      destruct (pv r2) as [[v r3]|] eqn:E; [|done]. apply Hpv in E.
      pose proof (skipWs_length r3) as Hws3.
      destruct (skipWs r3) as [|c r4]; [done|]. simpl in Hws3.
      destruct (c =? 44)%N; [|done]. apply IH; lia.
Qed.

Lemma parseValue_fuel n : forall s f f',
  (length s <= n)%nat -> (n < f)%nat -> (n < f')%nat ->
  parseValue f s = parseValue f' s.
Proof.
  induction n as [|n IH]; intros s f f' Hs Hf Hf'.
  - destruct s; [|simpl in Hs; lia].
    destruct f, f'; try lia. done.
  - destruct f as [|f], f' as [|f']; try lia. simpl.
    pose proof (skipWs_length s) as Hws.
    destruct (skipWs s) as [|c r]; [done|]. simpl in Hws.
    rewrite (parseElements_ext (parseValue f) (parseValue f')
               (parseValue_shrinks f) (length r) r []).
    2:{ intros s' Hs'. apply IH; lia. }
    rewrite (parseMembers_ext (parseValue f) (parseValue f')
               (parseValue_shrinks f) (length r) r []).
    2:{ intros s' Hs'. apply IH; lia. }
    done.
Qed.

Lemma JSON_parse_fuel s f :
  (length s < f)%nat ->
  JSON_parse s
  = match parseValue f s with
    | Some (v, r) => match skipWs r with [] => Some v | _ => None end
    | None => None
    end.
Proof.
  intros Hf. unfold JSON_parse.
  by rewrite (parseValue_fuel (length s) s (S (length s)) f) by lia.
Qed.
End JsonFacts.

(** ** Reading the classifier's answer *)

Section ParserFacts.
Import Gemini.

Lemma fromFirstOpen_Some s r :
  fromFirstOpen s = Some r
  <-> exists pre rest, s = pre ++ 91%N :: rest /\ r = 91%N :: rest
                       /\ 91%N ∉ pre.
Proof.
  revert r. induction s as [|c s IH]; intros r; simpl.
  - split; [done|]. intros (pre & rest & H & _). by destruct pre.
  - destruct (N.eqb_spec c 91) as [->|Hc].
    + split.
      * intros [= <-]. exists [], s. split; [done|]. split; [done|].
        apply not_elem_of_nil.
      * intros (pre & rest & H & -> & Hpre). destruct pre as [|p pre].
        -- simpl in H. by injection H as <-.
        -- injection H as <- _. exfalso. apply Hpre. by left.
    + rewrite IH. split.
      * intros (pre & rest & -> & -> & Hpre). exists (c :: pre), rest.
        split; [done|]. split; [done|].
        rewrite not_elem_of_cons. split; [congruence|done].
      * intros (pre & rest & H & -> & Hpre). destruct pre as [|p pre].
        -- simpl in H. injection H as -> _. done.
        -- injection H as -> ->. exists pre, rest.
           split; [done|]. split; [done|].
           by apply not_elem_of_cons in Hpre as [_ ?].
Qed.

Lemma fromFirstClose_Some s r :
  fromFirstClose s = Some r
  <-> exists pre rest, s = pre ++ 93%N :: rest /\ r = 93%N :: rest
                       /\ 93%N ∉ pre.
Proof.
  revert r. induction s as [|c s IH]; intros r; simpl.
  - split; [done|]. intros (pre & rest & H & _). by destruct pre.
  - destruct (N.eqb_spec c 93) as [->|Hc].
    + split.
      * intros [= <-]. exists [], s. split; [done|]. split; [done|].
        apply not_elem_of_nil.
      * intros (pre & rest & H & -> & Hpre). destruct pre as [|p pre].
        -- simpl in H. by injection H as <-.
        -- injection H as <- _. exfalso. apply Hpre. by left.
    + rewrite IH. split.
      * intros (pre & rest & -> & -> & Hpre). exists (c :: pre), rest.
        split; [done|]. split; [done|].
        rewrite not_elem_of_cons. split; [congruence|done].
      * intros (pre & rest & H & -> & Hpre). destruct pre as [|p pre].
        -- simpl in H. injection H as -> _. done.
        -- injection H as -> ->. exists pre, rest.
           split; [done|]. split; [done|].
           by apply not_elem_of_cons in Hpre as [_ ?].
Qed.

(** The match runs from the first opening bracket to the last closing
    bracket. *)
Lemma matchArray_Some raw m :
  matchArray raw = Some m
  <-> exists pre body post,
        raw = pre ++ [91%N] ++ body ++ [93%N] ++ post
        /\ (91%N ∉ pre) /\ (93%N ∉ post)
        /\ m = [91%N] ++ body ++ [93%N].
Proof.
  unfold matchArray. split.
  - destruct (fromFirstOpen raw) as [[|open rest]|] eqn:Ho; try done.
    apply fromFirstOpen_Some in Ho as (pre & rest' & -> & Heq & Hpre).
    injection Heq as -> ->.
    destruct (fromFirstClose (rev rest')) as [upto|] eqn:Hc; [|done].
    apply fromFirstClose_Some in Hc as (p & q & Hrev & -> & Hp).
    intros [= <-]. exists pre, (rev q), (rev p).
    assert (Hrest : rest' = rev q ++ 93%N :: rev p).
    { rewrite <- (rev_involutive rest'), Hrev, rev_app_distr. simpl.
      by rewrite <- app_assoc. }
    split; [by rewrite Hrest|]. split; [done|]. split.
    + intros Hin. apply Hp. apply list_elem_of_In, in_rev.
      by apply list_elem_of_In.
    + done.
  - intros (pre & body & post & -> & Hpre & Hpost & ->).
    assert (Ho : fromFirstOpen (pre ++ [91%N] ++ body ++ [93%N] ++ post)
                 = Some (91%N :: body ++ [93%N] ++ post)).
    { apply fromFirstOpen_Some. by exists pre, (body ++ [93%N] ++ post). }
    rewrite Ho.
    assert (Hc : fromFirstClose (rev (body ++ [93%N] ++ post))
                 = Some (93%N :: rev body)).
    { apply fromFirstClose_Some. exists (rev post), (rev body).
      split; [|split; [done|]].
      - rewrite !rev_app_distr. simpl. by rewrite <- app_assoc.
      - intros Hin. apply Hpost. apply list_elem_of_In, in_rev.
        by apply list_elem_of_In. }
    rewrite Hc. simpl. by rewrite rev_involutive.
Qed.

Lemma JSON_parse_bracket rest v :
  JSON_parse (91%N :: rest) = Some v -> exists items, v = JArray items.
Proof.
  unfold JSON_parse. simpl parseValue.
  destruct (skipWs rest) as [|c2 r'].
  - done.
  - destruct (c2 =? 93)%N.
    + destruct (skipWs r'); [|done]. intros [= <-]. by eexists.
    + destruct (parseElements _ _ _ _) as [[items r'']|]; [|done].
      destruct (skipWs r''); [|done]. intros [= <-]. by eexists.
Qed.

Lemma keptString_Some item s :
  keptString item = Some s <-> item = JString s /\ trim s <> [].
Proof.
  destruct item; simpl; try (split; [done|by intros [? _]]).
  destruct (trim s0) as [|c t] eqn:E; simpl.
  - split; [done|]. intros [[= ->] H]. by rewrite E in H.
  - split.
    + intros [= ->]. split; [done|]. by rewrite E.
    + by intros [[= ->] _].
Qed.
End ParserFacts.

Example parseForbiddenList_sample :
  Gemini.parseForbiddenList
    (Gemini.jsq "Sure. ['John Doe', 7, '  ', '', null, 'Pune'] Done.")
  = Gemini.Resolved [js "John Doe"; js "Pune"].
Proof. reflexivity. Qed.

(** C9, as stated, fails: what is cut out of the response is not the first
    JSON array in it but everything from the first opening bracket to the
    last closing bracket. When the prose after the array has a bracket of
    its own, the first array, valid and holding a phrase, is lost and the
    result is empty. *)
Lemma parseForbiddenList_later_bracket :
  let raw := Gemini.jsq "['John Doe'] (see note [1])" in
  Gemini.JSON_parse (substring raw 0 12)
  = Some (Gemini.JArray [Gemini.JString (js "John Doe")])
  /\ Gemini.matchArray raw
     = Some (Gemini.jsq "['John Doe'] (see note [1]")
  /\ Gemini.JSON_parse (Gemini.jsq "['John Doe'] (see note [1]") = None
  /\ Gemini.parseForbiddenList raw = Gemini.Resolved [].
Proof. repeat split; reflexivity. Qed.

(** C9, amended. Reading the classifier's answer never throws. The text
    from the first opening bracket to the last closing bracket of the
    response is cut out; when there is no such text, or when it is not valid
    JSON, the result is the empty list; otherwise it parses to an array,
    and the result lists, in order, its entries that are strings and are
    not empty after trimming; every other entry is dropped silently. *)
Theorem parseForbiddenList_permissive :
  forall raw : jsstring,
    (exists l, Gemini.parseForbiddenList raw = Gemini.Resolved l)
    /\ (Gemini.matchArray raw = None ->
        Gemini.parseForbiddenList raw = Gemini.Resolved [])
    /\ (forall m, Gemini.matchArray raw = Some m ->
                  Gemini.JSON_parse m = None ->
                  Gemini.parseForbiddenList raw = Gemini.Resolved [])
    /\ (forall m v, Gemini.matchArray raw = Some m ->
                    Gemini.JSON_parse m = Some v ->
                    exists items,
                      v = Gemini.JArray items
                      /\ Gemini.parseForbiddenList raw
                         = Gemini.Resolved (omap Gemini.keptString items)
                      /\ forall s, s ∈ omap Gemini.keptString items
                                   <-> Gemini.JString s ∈ items
                                       /\ trim s <> [])
    /\ (forall m, Gemini.matchArray raw = Some m
                  <-> exists pre body post,
                        raw = pre ++ [91%N] ++ body ++ [93%N] ++ post
                        /\ (91%N ∉ pre) /\ (93%N ∉ post)
                        /\ m = [91%N] ++ body ++ [93%N])
    /\ (forall fullText apiKey,
          apiKey <> [] -> trim fullText <> [] ->
          Gemini.getGeminiForbiddenList fullText apiKey (Gemini.HttpOk raw)
          = Gemini.parseForbiddenList raw).
Proof.
  intros raw.
  assert (Harr : forall m v, Gemini.matchArray raw = Some m ->
                             Gemini.JSON_parse m = Some v ->
                             exists items, v = Gemini.JArray items).
  { intros m v Hm Hv. apply matchArray_Some in Hm
      as (pre & body & post & _ & _ & _ & ->).
    by eapply JSON_parse_bracket. }
  split; [|split; [|split; [|split; [|split]]]].
  - unfold Gemini.parseForbiddenList.
    destruct (Gemini.matchArray raw) as [m|] eqn:Hm; [|by eexists].
    destruct (Gemini.JSON_parse m) as [v|] eqn:Hv; [|by eexists].
    destruct (Harr m v eq_refl Hv) as [items ->]. by eexists.
  - unfold Gemini.parseForbiddenList. by intros ->.
  - unfold Gemini.parseForbiddenList. by intros m -> ->.
  - intros m v Hm Hv. destruct (Harr m v Hm Hv) as [items ->].
    exists items. split; [done|]. split.
    + unfold Gemini.parseForbiddenList. by rewrite Hm, Hv.
    + intros s. rewrite list_elem_of_omap. split.
      * intros (item & Hin & Hk). apply keptString_Some in Hk as [-> Ht].
        by split.
      * intros [Hin Ht]. exists (Gemini.JString s). split; [done|].
        by apply keptString_Some.
  - intros m. apply matchArray_Some.
  - intros fullText apiKey Hk Ht. unfold Gemini.getGeminiForbiddenList.
    destruct apiKey; [done|]. destruct (trim fullText); [done|]. done.
Qed.

(** An answer whose array has a trailing comma. *)
Lemma parseForbiddenList_invalid_json :
  Gemini.parseForbiddenList (Gemini.jsq "Here you go: ['John Doe', ] ok")
  = Gemini.Resolved [].
Proof.
  apply (proj1 (proj2 (proj2 (parseForbiddenList_permissive
                                (Gemini.jsq "Here you go: ['John Doe', ] ok"))))
           (Gemini.jsq "['John Doe', ]")); reflexivity.
Defined.

(** ** The legacy classifier path *)

Section LegacyFacts.
Import Gemini.
Variable randomUUID : nat -> jsstring.
Variables (words : list OCRWord) (pageIndex : Z).

Lemma geminiStep_aligned st item st' :
  allAligned words pageIndex (fst st) ->
  geminiStep randomUUID words pageIndex st item = Resolved st' ->
  allAligned words pageIndex (fst st').
Proof.
  intros Hst H. destruct st as [entities seen]. unfold geminiStep in H.
  repeat case_match; simplify_eq; try done.
  all: intros e He; simpl in He; apply elem_of_app in He as [He|He];
    [by apply Hst|apply list_elem_of_singleton in He as ->; done].
Qed.

Lemma geminiLoop_aligned items : forall st st',
  allAligned words pageIndex (fst st) ->
  geminiLoop randomUUID words pageIndex st items = Resolved st' ->
  allAligned words pageIndex (fst st').
Proof.
  induction items as [|item items IH]; intros st st' Hst H; simpl in H.
  - by injection H as <-.
  - destruct (geminiStep randomUUID words pageIndex st item) as [st1|]
      eqn:E; [|done].
    eapply IH; [|exact H]. by eapply geminiStep_aligned.
Qed.

Lemma geminiStep_unaligned entities seen item text :
  getProp item (js "text") = Some (JString text) ->
  readableCategory item ->
  findBBoxForString (trim text) words pageIndex = None ->
  exists seen',
    geminiStep randomUUID words pageIndex (entities, seen) item
    = Resolved (entities, seen').
Proof.
  intros Ht Hc Hb. unfold geminiStep, readableCategory in *.
  destruct item; try done. rewrite Ht.
  destruct (length text =? 0)%nat; [by eexists|].
  case_bool_decide; [by eexists|].
  destruct (getProp _ (js "category")) as [[]|]; try done;
    rewrite Hb; by eexists.
Qed.

Lemma runGeminiDetection_aligned fullText apiKey response entities :
  runGeminiDetection randomUUID words pageIndex fullText apiKey response
  = Resolved entities ->
  allAligned words pageIndex entities.
Proof.
  assert (Hnil : allAligned words pageIndex []).
  { intros e He. by apply elem_of_nil in He. }
  unfold runGeminiDetection, parseDetection. intros H.
  repeat case_match; simplify_eq; try done.
  eapply (geminiLoop_aligned _ ([], ∅) (_, _)); [exact Hnil|eassumption].
Qed.
End LegacyFacts.

(** C10. In the legacy path an item whose text the bbox finder cannot
    align yields no entity: the loop goes on with the entity list as it
    was, without failing and without a placeholder box. Hence every entity
    [runGeminiDetection] returns carries the box the finder found for its
    value, and no returned entity has a value the finder cannot align. *)
Theorem runGeminiDetection_drops_unaligned :
  forall (randomUUID : nat -> jsstring) (words : list OCRWord)
         (pageIndex : Z),
    (forall entities seen item text,
       Gemini.getProp item (js "text") = Some (Gemini.JString text) ->
       Gemini.readableCategory item ->
       Gemini.findBBoxForString (trim text) words pageIndex = None ->
       exists seen',
         Gemini.geminiStep randomUUID words pageIndex (entities, seen) item
         = Gemini.Resolved (entities, seen'))
    /\ (forall fullText apiKey response entities,
          Gemini.runGeminiDetection randomUUID words pageIndex
                                    fullText apiKey response
          = Gemini.Resolved entities ->
          (forall e, e ∈ entities ->
                     Gemini.findBBoxForString (ent_value e) words pageIndex
                     = Some (ent_bbox e))
          /\ (forall text e,
                Gemini.findBBoxForString (trim text) words pageIndex = None ->
                e ∈ entities -> ent_value e <> trim text)).
Proof.
  intros. split.
  - apply geminiStep_unaligned.
  - intros fullText apiKey response entities H.
    pose proof (runGeminiDetection_aligned _ _ _ _ _ _ _ H) as Hal.
    split; [exact Hal|].
    intros text e Hnone He Heq. apply Hal in He. congruence.
Qed.

(** An answer naming John Doe, who is on the page, and Jane Roe, who is
    not: the one entity returned carries the box found for John Doe. *)
Lemma runGeminiDetection_sample :
  Gemini.findBBoxForString (js "John Doe") Samples.sentenceWords 0
  = Some (mkBBox 10 10 77 13 0).
Proof.
  apply (proj1 (proj2 (runGeminiDetection_drops_unaligned
                         Samples.sampleUUID Samples.sentenceWords 0)
                  (js "John Doe lives in Pune") (js "key")
                  Samples.legacyAnswer _ eq_refl)
           (mkEntity (js "gem_3f2a9c1e") NAME (js "John Doe") (qc 9 10)
                     (mkBBox 10 10 77 13 0) true 2)).
  left.
Defined.

(** ** Instances of the pipeline properties *)

(** A PAN found by the deterministic layer, PAN being required. *)
Lemma required_fields_sample :
  ent_masked (mkEntity (js "l1_3f2a9c1e") PAN (js "ABCDE1234F") (qc 1 1)
                       (mkBBox 0 0 100 20 0) false 1) = false.
Proof.
  apply (proj1 (proj2 (required_fields_forced_visible
                         (fun _ => true) (fun _ => true) (fun _ => true)
                         Samples.panMatches
                         (fun _ _ => Gemini.Resolved [])
                         Samples.sampleUUID Samples.sampleUUID
                         Samples.sampleUUID
                         (fun _ => Samples.quota) (fun _ => Samples.quota)
                         (js "PAN: ABCDE1234F") Samples.strangerWords []
                         (qc 1 2) [js "PAN"] 0))).
  - vm_compute. left.
  - left.
Defined.

(** The base confidence of a category without validator. *)
Lemma layer1_confidence_sample :
  Layer1.specConfidence true EMAIL = qc 85 100.
Proof.
  apply (proj1 (proj2 (proj2 (proj2 (proj2 (proj2 (proj2 (proj2 (proj2
           (proj2 (layer1_confidence_rule
                     (fun _ => true) (fun _ => true) (fun _ => true)
                     Samples.panMatches Samples.sampleUUID
                     (js "PAN: ABCDE1234F") Samples.strangerWords
                     0)))))))))));
    [reflexivity|discriminate].
Defined.

(** ** Further properties of the deduplication *)

Lemma StronglySorted_sublist {A} (R : relation A) (l1 l2 : list A) :
  l1 `sublist_of` l2 -> StronglySorted R l2 -> StronglySorted R l1.
Proof.
  induction 1 as [|x l1 l2 Hsub IH|x l1 l2 Hsub IH]; intros Hs.
  - constructor.
  - apply StronglySorted_inv in Hs as [Hs Hx]. constructor; [auto|].
    rewrite Forall_forall in Hx |- *. intros y Hy. apply Hx.
    by apply (sublist_subseteq _ _ Hsub).
  - apply StronglySorted_inv in Hs as [Hs _]. auto.
Qed.

Lemma filter_sublist {A} (P : A -> bool) (l : list A) :
  List.filter P l `sublist_of` l.
Proof.
  induction l as [|a l IH]; simpl; [done|].
  destruct (P a); by constructor.
Qed.

Section DedupMore.
Import Pipeline.

Lemma overlapArea_sym a b : overlapArea a b = overlapArea b a.
Proof.
  unfold overlapArea.
  by rewrite (Z.min_comm (bbox_x a + _)), (Z.max_comm (bbox_x a)),
             (Z.min_comm (bbox_y a + _)), (Z.max_comm (bbox_y a)).
Qed.

Lemma minArea_sym a b : minArea a b = minArea b a.
Proof. unfold minArea. apply Z.min_comm. Qed.

Lemma boxesOverlap_sym a b t : boxesOverlap a b t = boxesOverlap b a t.
Proof.
  unfold boxesOverlap, overlapRatio.
  by rewrite overlapArea_sym, minArea_sym.
Qed.

Lemma conflicts_sym k e : conflicts k e = conflicts e k.
Proof.
  unfold conflicts. rewrite boxesOverlap_sym. f_equal.
  apply bool_decide_ext. split; congruence.
Qed.

Lemma NoConflict_nil : NoConflict [].
Proof. intros i j a b _ Ha. by rewrite lookup_nil in Ha. Qed.

Lemma dedup_fold_keeps l : forall acc,
  NoConflict (acc ++ l) -> fold_left dedupStep l acc = acc ++ l.
Proof.
  induction l as [|e l IH]; intros acc H; simpl.
  - by rewrite app_nil_r.
  - assert (Hex : existsb (fun k => conflicts k e) acc = false).
    { apply not_true_iff_false. intros Hex.
      apply existsb_exists in Hex as (k & Hk & Hc).
      apply list_elem_of_In, list_elem_of_lookup_1 in Hk as [i Hi].
      rewrite (H i (length acc) k e) in Hc; [done| | |].
      - eauto using lookup_lt_Some.
      - rewrite lookup_app_l; eauto using lookup_lt_Some.
      - by rewrite list_lookup_middle. }
    unfold dedupStep at 2. rewrite Hex.
    rewrite IH; rewrite <- app_assoc; done.
Qed.

Lemma sorted_in_order l :
  StronglySorted confGe l ->
  forall i j a b, (i < j)%nat -> l !! i = Some a -> l !! j = Some b ->
                  byConfidenceDesc a b = false.
Proof.
  induction 1 as [|x l Hl IH Hx]; intros i j a b Hij Ha Hb.
  - by rewrite lookup_nil in Ha.
  - destruct j as [|j]; [lia|]. simpl in Hb.
    destruct i as [|i]; simpl in Ha.
    + injection Ha as <-. rewrite Forall_forall in Hx.
      apply Qcltb_false. apply Hx. eauto using list_elem_of_lookup_2.
    + apply (IH i j); (done || lia).
Qed.

Lemma deduplicateEntities_sublist entities :
  deduplicateEntities entities `sublist_of` js_sort byConfidenceDesc entities.
Proof.
  unfold deduplicateEntities.
  destruct (dedup_fold_extends (js_sort byConfidenceDesc entities) [])
    as (r & -> & Hr). done.
Qed.

Lemma deduplicateEntities_sorted entities :
  StronglySorted confGe (deduplicateEntities entities).
Proof.
  eapply StronglySorted_sublist;
    [apply deduplicateEntities_sublist|apply byConfidenceDesc_sorted].
Qed.

Lemma deduplicateEntities_NoConflict entities :
  NoConflict (deduplicateEntities entities).
Proof. apply dedup_fold_NoConflict, NoConflict_nil. Qed.

Lemma deduplicateEntities_elem entities e :
  e ∈ deduplicateEntities entities -> e ∈ entities.
Proof.
  intros He. rewrite <- (js_sort_perm byConfidenceDesc entities).
  by apply (sublist_subseteq _ _ (deduplicateEntities_sublist entities)).
Qed.

Lemma conflicts_area k e :
  conflicts k e = true ->
  0 < bbox_w (ent_bbox k) * bbox_h (ent_bbox k)
  /\ 0 < bbox_w (ent_bbox e) * bbox_h (ent_bbox e).
Proof.
  intros H. apply conflicts_true in H as [_ H].
  apply overlapRatio_gt_half in H as [H _].
  unfold minArea in H. lia.
Qed.

Lemma conflicts_same_box a b :
  ent_bbox a = ent_bbox b ->
  0 < bbox_w (ent_bbox a) -> 0 < bbox_h (ent_bbox a) ->
  conflicts a b = true.
Proof.
  intros Heq Hpw Hph. apply conflicts_true. rewrite <- Heq.
  split; [done|].
  apply overlapRatio_gt_half. unfold minArea, overlapArea.
  rewrite !Z.min_id, !Z.max_id.
  replace (bbox_x (ent_bbox a) + bbox_w (ent_bbox a) - bbox_x (ent_bbox a))
    with (bbox_w (ent_bbox a)) by lia.
  replace (bbox_y (ent_bbox a) + bbox_h (ent_bbox a) - bbox_y (ent_bbox a))
    with (bbox_h (ent_bbox a)) by lia.
  rewrite !Z.max_r by lia. nia.
Qed.

Lemma dedup_fold_kept l : forall acc e,
  e ∈ l -> (forall k, conflicts k e = false) ->
  e ∈ fold_left dedupStep l acc.
Proof.
  induction l as [|x l IH]; intros acc e He Hno.
  { by apply elem_of_nil in He. }
  simpl. apply elem_of_cons in He as [->|He]; [|by apply IH].
  destruct (dedup_fold_extends l (dedupStep acc x)) as (r & -> & _).
  apply elem_of_app. left. unfold dedupStep.
  replace (existsb (fun k => conflicts k x) acc) with false.
  - apply elem_of_app. right. by left.
  - symmetry. apply not_true_iff_false. intros Hex.
    apply existsb_exists in Hex as (k & _ & Hc). by rewrite Hno in Hc.
Qed.
End DedupMore.

(** X1. The overlap test does not depend on the order of its two boxes,
    and neither does the conflict test of the deduplication. *)
Theorem boxesOverlap_symmetric :
  (forall (a b : BoundingBox) (threshold : Qc),
     Pipeline.boxesOverlap a b threshold = Pipeline.boxesOverlap b a threshold)
  /\ (forall k e : DetectedEntity,
        Pipeline.conflicts k e = Pipeline.conflicts e k).
Proof. split; [apply boxesOverlap_sym|apply conflicts_sym]. Qed.

(** X2. An entity whose box has no positive area (a zero or negative width
    or height, as the legacy finder can produce) never overlaps anything:
    the deduplication keeps it, whatever else is detected. *)
Theorem deduplicateEntities_keeps_degenerate :
  forall (entities : list DetectedEntity) (e : DetectedEntity),
    e ∈ entities ->
    bbox_w (ent_bbox e) * bbox_h (ent_bbox e) <= 0 ->
    (forall (b : BoundingBox) (threshold : Qc),
       Pipeline.boxesOverlap (ent_bbox e) b threshold = false)
    /\ e ∈ Pipeline.deduplicateEntities entities.
Proof.
  intros entities e He Harea. split.
  - intros b t. unfold Pipeline.boxesOverlap.
    rewrite bool_decide_eq_false_2; [done|].
    unfold Pipeline.minArea. lia.
  - apply dedup_fold_kept; [by rewrite js_sort_perm|].
    intros k. apply not_true_iff_false. intros Hc.
    apply conflicts_area in Hc. lia.
Qed.

(** X3. Deduplicating twice changes nothing: the output of the
    deduplication is a fixed point of it. *)
Theorem deduplicateEntities_idempotent :
  forall entities : list DetectedEntity,
    Pipeline.deduplicateEntities (Pipeline.deduplicateEntities entities)
    = Pipeline.deduplicateEntities entities.
Proof.
  intros entities.
  unfold Pipeline.deduplicateEntities at 1.
  rewrite js_sort_in_order
    by (apply sorted_in_order, deduplicateEntities_sorted).
  apply (dedup_fold_keeps _ []). simpl.
  apply deduplicateEntities_NoConflict.
Qed.

(** X4. The deduplication never drops the best detection: of a non-empty
    input the first entity returned is an entity of the input whose
    confidence no other entity of the input exceeds. *)
Theorem deduplicateEntities_keeps_most_confident :
  forall entities : list DetectedEntity,
    entities <> [] ->
    exists e rest,
      Pipeline.deduplicateEntities entities = e :: rest
      /\ e ∈ entities
      /\ forall e', e' ∈ entities -> (ent_confidence e' <= ent_confidence e)%Qc.
Proof.
  intros entities Hne.
  pose proof (js_sort_perm Pipeline.byConfidenceDesc entities) as Hperm.
  pose proof (byConfidenceDesc_sorted entities) as Hsorted.
  unfold Pipeline.deduplicateEntities.
  destruct (js_sort Pipeline.byConfidenceDesc entities) as [|e sorted].
  { by apply Permutation_nil in Hperm. }
  simpl. unfold Pipeline.dedupStep at 2. simpl.
  destruct (dedup_fold_extends sorted [e]) as (r & -> & _).
  exists e, r. split; [done|]. split.
  - rewrite <- Hperm. by left.
  - intros e' He'. rewrite <- Hperm in He'.
    apply StronglySorted_inv in Hsorted as [_ Hall].
    apply elem_of_cons in He' as [->|He']; [apply Qcle_refl|].
    rewrite Forall_forall in Hall. by apply Hall.
Qed.

(** X5. Two entities that survive the deduplication never carry the same
    box of positive area on one page. In particular at most one detection
    per page keeps the placeholder box of the Alignment Engine. *)
Theorem deduplicateEntities_one_per_box :
  forall (entities : list DetectedEntity) (i j : nat) (a b : DetectedEntity),
    (i < j)%nat ->
    Pipeline.deduplicateEntities entities !! i = Some a ->
    Pipeline.deduplicateEntities entities !! j = Some b ->
    0 < bbox_w (ent_bbox a) -> 0 < bbox_h (ent_bbox a) ->
    ent_bbox a <> ent_bbox b.
Proof.
  intros entities i j a b Hij Ha Hb Hw Hh Heq.
  pose proof (deduplicateEntities_NoConflict entities i j a b Hij Ha Hb)
    as Hno.
  rewrite conflicts_same_box in Hno; congruence.
Qed.

(** ** The output of the pipeline *)

Section OutputFacts.
Import Pipeline.

Lemma NoConflict_sorted l :
  NoConflict l <-> StronglySorted (fun a b => conflicts a b = false) l.
Proof.
  split.
  - induction l as [|a l IH]; intros H; constructor.
    + apply IH. intros i j x y Hij Hx Hy.
      apply (H (S i) (S j)); (done || lia).
    + apply Forall_forall. intros b Hb.
      apply list_elem_of_lookup_1 in Hb as [j Hj].
      apply (H 0%nat (S j)); (done || lia).
  - induction 1 as [|a l Hl IH Ha]; intros i j x y Hij Hx Hy.
    + by rewrite lookup_nil in Hx.
    + destruct j as [|j]; [lia|]. simpl in Hy.
      destruct i as [|i]; simpl in Hx.
      * injection Hx as <-. rewrite Forall_forall in Ha.
        apply Ha. eauto using list_elem_of_lookup_2.
      * apply (IH i j); (done || lia).
Qed.

Lemma markRequired_confidence rf e :
  ent_confidence (markRequired rf e) = ent_confidence e.
Proof. unfold markRequired. by case_bool_decide. Qed.

Lemma markRequired_bbox rf e : ent_bbox (markRequired rf e) = ent_bbox e.
Proof. unfold markRequired. by case_bool_decide. Qed.

Lemma mergeLayers_shape allEntities threshold rf :
  let output := mergeLayers allEntities threshold rf in
  (forall e, e ∈ output -> (threshold <= ent_confidence e)%Qc)
  /\ StronglySorted confGe output
  /\ NoConflict output
  /\ (length output <= length allEntities)%nat.
Proof.
  intros output. unfold output, mergeLayers, survivors.
  split; [|split; [|split]].
  - intros e He. apply list_elem_of_fmap in He as (e0 & -> & He0).
    rewrite markRequired_confidence.
    apply list_elem_of_In, filter_In in He0 as [_ He0].
    unfold Qcleb in He0. apply negb_true_iff in He0.
    by apply Qcltb_false in He0.
  - apply (StronglySorted_fmap _ confGe).
    + intros x y. unfold confGe. by rewrite !markRequired_confidence.
    + eapply StronglySorted_sublist;
        [apply filter_sublist|apply deduplicateEntities_sorted].
  - apply NoConflict_sorted.
    apply (StronglySorted_fmap _ (fun a b => conflicts a b = false)).
    + intros x y. unfold conflicts. by rewrite !markRequired_bbox.
    + eapply StronglySorted_sublist; [apply filter_sublist|].
      apply NoConflict_sorted, deduplicateEntities_NoConflict.
  - rewrite length_map.
    etrans; [apply sublist_length, filter_sublist|].
    etrans; [apply sublist_length, deduplicateEntities_sublist|].
    by rewrite (js_sort_perm byConfidenceDesc allEntities).
Qed.
End OutputFacts.

(** X6. What the pipeline returns, whatever the layers detect: every entity
    has at least the threshold confidence, the entities are in descending
    order of confidence, no entity conflicts with a later one (same page,
    overlap above half the smaller area), and there are no more entities
    than the layers detected. *)
Theorem runDetectionPipeline_output_shape :
  forall (verhoeffValidate luhnValidate panValidate : jsstring -> bool)
         (findAllRegexMatches : jsstring -> list Layer1.RegexMatch)
         (runNLPWorker :
            list OCRWord -> Z -> Gemini.outcome (list DetectedEntity))
         (uuidLayer1 uuidZones uuidLegacy : nat -> jsstring)
         (primaryResponses legacyResponses : nat -> Gemini.httpResponse)
         (fullText : jsstring) (words : list OCRWord)
         (geminiApiKey : jsstring) (confidenceThreshold : Qc)
         (requiredFields : list jsstring) (pageIndex : Z),
    let layers :=
      Pipeline.detectedLayers verhoeffValidate luhnValidate panValidate
        findAllRegexMatches runNLPWorker uuidLayer1 uuidZones uuidLegacy
        primaryResponses legacyResponses
        fullText words geminiApiKey requiredFields pageIndex in
    let output :=
      Pipeline.runDetectionPipeline verhoeffValidate luhnValidate
        panValidate findAllRegexMatches runNLPWorker uuidLayer1 uuidZones
        uuidLegacy primaryResponses legacyResponses
        fullText words geminiApiKey confidenceThreshold requiredFields
        pageIndex in
    (forall e, e ∈ output -> (confidenceThreshold <= ent_confidence e)%Qc)
    /\ StronglySorted Pipeline.confGe output
    /\ Pipeline.NoConflict output
    /\ (length output <= length layers)%nat.
Proof. intros. apply mergeLayers_shape. Qed.

(** ** The semantic stage without an answer *)

Section DegradeFacts.
Import Pipeline.

Lemma retryFrom_all_rejected {T} (fn : nat -> Gemini.outcome T) :
  (forall k, exists message, fn k = Gemini.Rejected message) ->
  forall remaining attempt delay,
    exists message,
      run_outcome (retryFrom fn remaining attempt delay)
      = Gemini.Rejected message.
Proof.
  intros Hfn. induction remaining as [|remaining IH]; intros attempt delay;
    simpl; destruct (Hfn attempt) as [message ->]; simpl.
  - by exists message.
  - destruct (isRateLimit message); simpl; [apply IH|by exists message].
Qed.

Lemma semanticStage_nothing primaryResponses legacyResponses uuidZones
  uuidLegacy fullText words geminiApiKey requiredFields pageIndex spatialMap :
  geminiApiKey = [] \/ trim fullText = []
  \/ ((forall k, failing (primaryResponses k))
      /\ (forall k, failing (legacyResponses k))) ->
  semanticStage uuidZones uuidLegacy primaryResponses legacyResponses
                fullText words geminiApiKey requiredFields pageIndex
                spatialMap = [].
Proof.
  intros H. unfold semanticStage.
  destruct (length geminiApiKey =? 0)%nat eqn:Hkey; [done|].
  destruct H as [->|H]; [done|].
  unfold primaryCall, legacyCall, withRetry.
  destruct (decide (trim fullText = [])) as [Hblank|Htext].
  - rewrite (retryFrom_not_rateLimited _ 3 0).
    + simpl. unfold Gemini.getGeminiForbiddenList.
      by rewrite Hblank, orb_true_r.
    + unfold Gemini.getGeminiForbiddenList.
      by rewrite Hblank, orb_true_r.
  - destruct H as [?|[Hp Hl]]; [done|].
    assert (Hlen : (length (trim fullText) =? 0)%nat = false).
    { apply Nat.eqb_neq. by destruct (trim fullText). }
    destruct (retryFrom_all_rejected
                (fun k => Gemini.getGeminiForbiddenList
                            fullText geminiApiKey (primaryResponses k)))
      with (remaining := 3%nat) (attempt := 0%nat) (delay := qc 15000 1)
      as [message ->].
    { intros k. unfold Gemini.getGeminiForbiddenList.
      rewrite Hkey, Hlen. simpl. specialize (Hp k).
      destruct (primaryResponses k); [by eexists|by eexists|done]. }
    destruct (retryFrom_all_rejected
                (fun k => Gemini.runGeminiDetection
                            uuidLegacy words pageIndex
                            fullText geminiApiKey (legacyResponses k)))
      with (remaining := 2%nat) (attempt := 0%nat) (delay := qc 15000 1)
      as [message' ->]; [|done].
    intros k. unfold Gemini.runGeminiDetection.
    rewrite Hkey, Hlen. simpl. specialize (Hl k).
    destruct (legacyResponses k); [by eexists|by eexists|done].
Qed.
End DegradeFacts.

(** X7. The semantic stage degrades to nothing: without an API key, on a
    page whose text is blank, or when every request of the primary and of
    the legacy call fails (network failure or HTTP error, rate-limited or
    not), the pipeline returns what the deterministic matcher and the NLP
    worker alone give, deduplicated and filtered as usual. *)
Theorem runDetectionPipeline_without_classifier :
  forall (verhoeffValidate luhnValidate panValidate : jsstring -> bool)
         (findAllRegexMatches : jsstring -> list Layer1.RegexMatch)
         (runNLPWorker :
            list OCRWord -> Z -> Gemini.outcome (list DetectedEntity))
         (uuidLayer1 uuidZones uuidLegacy : nat -> jsstring)
         (primaryResponses legacyResponses : nat -> Gemini.httpResponse)
         (fullText : jsstring) (words : list OCRWord)
         (geminiApiKey : jsstring) (confidenceThreshold : Qc)
         (requiredFields : list jsstring) (pageIndex : Z),
    geminiApiKey = [] \/ trim fullText = []
    \/ ((forall k, failing (primaryResponses k))
        /\ (forall k, failing (legacyResponses k))) ->
    Pipeline.runDetectionPipeline verhoeffValidate luhnValidate
      panValidate findAllRegexMatches runNLPWorker uuidLayer1 uuidZones
      uuidLegacy primaryResponses legacyResponses
      fullText words geminiApiKey confidenceThreshold requiredFields
      pageIndex
    = Pipeline.mergeLayers
        (Layer1.runLayer1Detection verhoeffValidate luhnValidate panValidate
           findAllRegexMatches uuidLayer1 fullText words pageIndex
         ++ match runNLPWorker words pageIndex with
            | Gemini.Resolved entities => entities
            | Gemini.Rejected _ => []
            end)
        confidenceThreshold requiredFields.
Proof.
  intros. unfold Pipeline.runDetectionPipeline, Pipeline.detectedLayers.
  rewrite semanticStage_nothing by done. by rewrite app_nil_r.
Qed.

(** ** The time spent waiting *)

Section DelayFacts.
Context {T : Type}.
Implicit Types (fn : nat -> Gemini.outcome T) (delay : Qc).

Lemma retryFrom_delays fn : forall remaining attempt delay,
  let r := Pipeline.retryFrom fn remaining attempt delay in
  Pipeline.run_delays r = Pipeline.backoff delay (Pipeline.run_calls r - 1).
Proof.
  induction remaining as [|remaining IH]; intros attempt delay; simpl.
  - by destruct (fn attempt).
  - destruct (fn attempt) as [v|message]; [done|].
    destruct (Pipeline.isRateLimit message); simpl; [|done].
    specialize (IH (S attempt) (delay * qc 3 2)%Qc). simpl in IH.
    rewrite IH, Nat.sub_0_r.
    pose proof (retryFrom_bounded fn remaining (S attempt)
                  (delay * qc 3 2)%Qc) as [_ Hc]. simpl in Hc.
    destruct (Pipeline.run_calls _) as [|k]; [done|].
    simpl. by rewrite Nat.sub_0_r, backoff_S.
Qed.
End DelayFacts.

(** X25. The time a classifier call can spend waiting. Whatever the
    requests do, the delays [withRetry] sleeps are the first delays of the
    backoff sequence, one less than the calls made; so the primary call
    waits 0, 15000, 37500 or 71250 ms in all, and the legacy call 0, 15000
    or 37500 ms. *)
Theorem withRetry_total_delay :
  forall (T : Type) (fn : nat -> Gemini.outcome T),
    (forall maxRetries initialDelayMs,
       let r := Pipeline.withRetry fn maxRetries initialDelayMs in
       Pipeline.run_delays r
       = Pipeline.backoff initialDelayMs (Pipeline.run_calls r - 1))
    /\ totalDelay (Pipeline.run_delays (Pipeline.primaryCall fn))
       ∈ [qc 0 1; qc 15000 1; qc 37500 1; qc 71250 1]
    /\ totalDelay (Pipeline.run_delays (Pipeline.legacyCall fn))
       ∈ [qc 0 1; qc 15000 1; qc 37500 1].
Proof.
  intros T fn. split; [|split].
  - intros maxRetries d r. apply retryFrom_delays.
  - unfold Pipeline.primaryCall, Pipeline.withRetry.
    pose proof (retryFrom_delays fn 3 0 (qc 15000 1)) as Hd.
    pose proof (retryFrom_bounded fn 3 0 (qc 15000 1)) as [Hle Hc].
    cbv zeta in Hd, Hle, Hc. rewrite Hd.
    destruct (Pipeline.run_calls _) as [|[|[|[|[|k]]]]]; try lia.
    + left.
    + right. left.
    + do 2 right. left.
    + do 3 right. left.
  - unfold Pipeline.legacyCall, Pipeline.withRetry.
    pose proof (retryFrom_delays fn 2 0 (qc 15000 1)) as Hd.
    pose proof (retryFrom_bounded fn 2 0 (qc 15000 1)) as [Hle Hc].
    cbv zeta in Hd, Hle, Hc. rewrite Hd.
    destruct (Pipeline.run_calls _) as [|[|[|[|k]]]]; try lia.
    + left.
    + right. left.
    + do 2 right. left.
Qed.

(** ** The rate-limit signal *)

Lemma startsWith_prefix needle : forall s,
  startsWith needle s = true <-> exists post, s = needle ++ post.
Proof.
  induction needle as [|a needle IH]; intros s; simpl.
  - split; [by exists s|done].
  - destruct s as [|b s].
    + split; [done|by intros [post ?]].
    + rewrite andb_true_iff, N.eqb_eq, IH. split.
      * intros [-> [post ->]]. by exists post.
      * intros [post [= -> ->]]. eauto.
Qed.

Lemma indexOf_aux_is_Some needle : forall s i,
  is_Some (indexOf_aux needle s i)
  <-> exists pre post, s = pre ++ needle ++ post.
Proof.
  induction s as [|c s IH]; intros i; simpl.
  - destruct (startsWith needle []) eqn:Hs.
    + split; [intros _|done].
      apply startsWith_prefix in Hs as [post Hs]. by exists [], post.
    + split; [by intros [? ?]|]. intros (pre & post & H).
      destruct pre; simpl in H.
      * rewrite (proj2 (startsWith_prefix needle [])) in Hs by eauto. done.
      * done.
  - destruct (startsWith needle (c :: s)) eqn:Hs.
    + split; [intros _|done].
      apply startsWith_prefix in Hs as [post Hs]. by exists [], post.
    + rewrite IH. split.
      * intros (pre & post & ->). by exists (c :: pre), post.
      * intros (pre & post & H). destruct pre as [|c' pre]; simpl in H.
        -- rewrite (proj2 (startsWith_prefix needle (c :: s))) in Hs
             by eauto. done.
        -- injection H as -> ->. eauto.
Qed.

Lemma includes_true s needle :
  includes s needle = true <-> exists pre post, s = pre ++ needle ++ post.
Proof.
  unfold includes, indexOf. rewrite bool_decide_eq_true. simpl.
  apply indexOf_aux_is_Some.
Qed.

Lemma includes_app_r a s needle :
  includes s needle = true -> includes (a ++ s) needle = true.
Proof.
  rewrite !includes_true. intros (pre & post & ->).
  exists (a ++ pre), post. by rewrite <- app_assoc.
Qed.

Lemma includes_app_l s b needle :
  includes s needle = true -> includes (s ++ b) needle = true.
Proof.
  rewrite !includes_true. intros (pre & post & ->).
  exists pre, (post ++ b). by rewrite <- !app_assoc.
Qed.

Lemma apiError_isRateLimit status errText statusText :
  status = 429%nat \/ includes errText (js "429") = true ->
  Pipeline.isRateLimit (Gemini.apiError status errText statusText) = true.
Proof.
  unfold Pipeline.isRateLimit, Gemini.apiError. intros [->|H].
  - apply includes_app_r, includes_app_l. reflexivity.
  - apply includes_app_r, includes_app_r, includes_app_r.
    destruct errText; [done|]. exact H.
Qed.

(** X8. Which failures are retried. A request answered with HTTP status 429,
    or with an error of any status whose body contains the characters 429,
    makes both classifier calls fail with the rate-limit signal, so that
    [withRetry] tries again. *)
Theorem http_429_is_rate_limited :
  forall (status : nat) (errText statusText : jsstring)
         (uuid : nat -> jsstring) (words : list OCRWord) (pageIndex : Z)
         (fullText apiKey : jsstring),
    status = 429%nat \/ includes errText (js "429") = true ->
    apiKey <> [] -> trim fullText <> [] ->
    Pipeline.rateLimited
      (Gemini.getGeminiForbiddenList fullText apiKey
         (Gemini.HttpError status errText statusText)) = true
    /\ Pipeline.rateLimited
         (Gemini.runGeminiDetection uuid words pageIndex fullText apiKey
            (Gemini.HttpError status errText statusText)) = true.
Proof.
  intros status errText statusText uuid words pageIndex fullText apiKey
         H Hkey Htext.
  unfold Gemini.getGeminiForbiddenList, Gemini.runGeminiDetection.
  destruct apiKey; [done|]. destruct (trim fullText); [done|].
  simpl. split; by apply apiError_isRateLimit.
Qed.

(** ** Further properties of the Alignment Engine *)

Section AlignmentFacts.
Import Layer1.

Lemma slice_sublist {A} (l : list A) i j : slice l i j `sublist_of` l.
Proof.
  unfold slice. etrans; [apply sublist_take|apply sublist_drop].
Qed.

Lemma slice_lookup {A} (l : list A) i n j :
  slice l i (i + n) !! j = if decide (j < n)%nat then l !! (i + j)%nat else None.
Proof.
  unfold slice. replace (i + n - i)%nat with n by lia.
  rewrite lookup_take. case_decide; [|done]. apply lookup_drop.
Qed.

Lemma slice_length {A} (l : list A) i n :
  (i + n <= length l)%nat -> length (slice l i (i + n)) = n.
Proof.
  intros H. unfold slice. rewrite length_take, length_drop. lia.
Qed.

Lemma greedyScan_sublist cleanedTokens : forall rest next matched,
  exists r, greedyScan cleanedTokens rest next matched = matched ++ r
            /\ r `sublist_of` rest.
Proof.
  induction rest as [|w rest IH]; intros next matched; simpl.
  - exists []. by rewrite app_nil_r.
  - destruct (next <? length cleanedTokens)%nat.
    + case_bool_decide.
      * destruct (IH (S next) (matched ++ [w])) as (r & -> & Hr).
        exists (w :: r). rewrite <- app_assoc. split; [done|].
        by apply sublist_skip.
      * destruct (IH next matched) as (r & -> & Hr).
        exists r. split; [done|]. by apply sublist_cons.
    + exists []. rewrite app_nil_r. split; [done|]. apply sublist_nil_l.
Qed.

Lemma partialAt_sublist cleanedTokens words i matched :
  partialAt cleanedTokens words i = Some matched ->
  matched <> [] /\ matched `sublist_of` words.
Proof.
  unfold partialAt. destruct (words !! i) as [w|] eqn:Hw; [|done].
  case_bool_decide; [|done].
  destruct (greedyScan_sublist cleanedTokens (drop (S i) words) 1 [w])
    as (r & -> & Hr).
  destruct (_ <=? _)%nat; [|done]. intros [= <-]. split; [done|].
  rewrite <- (take_drop_middle words i w Hw).
  apply sublist_inserts_l. simpl. by apply sublist_skip.
Qed.

Lemma firstSome_Some {A B} (f : A -> option B) l b :
  firstSome f l = Some b -> exists a, a ∈ l /\ f a = Some b.
Proof.
  induction l as [|a l IH]; simpl; [done|].
  destruct (f a) as [b'|] eqn:Hfa.
  - intros [= ->]. exists a. split; [by left|done].
  - intros H. destruct (IH H) as (a' & Ha' & Hf).
    exists a'. split; [by right|done].
Qed.

Lemma positionScan_sublist fullText startIdx endIdx :
  forall words currentPos matchingWords,
    exists r,
      positionScan fullText startIdx endIdx words currentPos matchingWords
      = matchingWords ++ r
      /\ r `sublist_of` words.
Proof.
  induction words as [|w words IH]; intros currentPos acc; simpl.
  - exists []. by rewrite app_nil_r.
  - destruct (indexOf fullText (word_text w) currentPos) as [wordStart|].
    + destruct ((startIdx <? _)%nat && (wordStart <? endIdx)%nat).
      * destruct (endIdx <? wordStart)%nat.
        -- exists [w]. split; [done|]. apply sublist_skip, sublist_nil_l.
        -- destruct (IH (wordStart + length (word_text w))%nat (acc ++ [w]))
             as (r & -> & Hr).
           exists (w :: r). rewrite <- app_assoc. split; [done|].
           by apply sublist_skip.
      * destruct (endIdx <? wordStart)%nat.
        -- exists []. rewrite app_nil_r. split; [done|]. apply sublist_nil_l.
        -- destruct (IH (wordStart + length (word_text w))%nat acc)
             as (r & -> & Hr).
           exists r. split; [done|]. by apply sublist_cons.
    + destruct (IH currentPos acc) as (r & -> & Hr).
      exists r. split; [done|]. by apply sublist_cons.
Qed.

Lemma find_Some_first {A} (f : A -> bool) l a :
  List.find f l = Some a ->
  exists pre post, l = pre ++ a :: post /\ f a = true
                   /\ forall b, b ∈ pre -> f b = false.
Proof.
  induction l as [|x l IH]; simpl; [done|].
  destruct (f x) eqn:Hx.
  - intros [= ->]. exists [], l. split; [done|]. split; [done|].
    intros b Hb. by apply elem_of_nil in Hb.
  - intros H. destruct (IH H) as (pre & post & -> & Ha & Hpre).
    exists (x :: pre), post. split; [done|]. split; [done|].
    intros b Hb. apply elem_of_cons in Hb as [->|Hb]; auto.
Qed.

Lemma find_seq_first (f : nat -> bool) n i :
  List.find f (seq 0 n) = Some i ->
  (i < n)%nat /\ f i = true /\ forall j, (j < i)%nat -> f j = false.
Proof.
  intros H. apply find_Some_first in H as (pre & post & Hseq & Hi & Hpre).
  assert (length pre = i /\ (i < n)%nat) as [Hlen Hlt].
  { assert (Hl : seq 0 n !! length pre = Some i)
      by (rewrite Hseq; apply list_lookup_middle; done).
    apply lookup_seq in Hl. lia. }
  split; [done|]. split; [done|]. intros j Hj. apply Hpre.
  assert (Hl : seq 0 n !! j = Some j) by (apply lookup_seq; lia).
  rewrite Hseq, lookup_app_l in Hl by lia.
  eauto using list_elem_of_lookup_2.
Qed.

Lemma find_seq_is_first (f : nat -> bool) n i :
  (i < n)%nat -> f i = true -> (forall j, (j < i)%nat -> f j = false) ->
  List.find f (seq 0 n) = Some i.
Proof.
  intros Hi Hfi Hpre.
  destruct (List.find f (seq 0 n)) as [k|] eqn:Hfind.
  - apply find_seq_first in Hfind as (Hk & Hfk & Hkpre).
    f_equal. destruct (Nat.lt_trichotomy k i) as [Hlt|[->|Hgt]]; [|done|].
    + rewrite Hpre in Hfk; done.
    + rewrite Hkpre in Hfi; done.
  - apply find_none with (x := i) in Hfind; [congruence|].
    apply in_seq. lia.
Qed.

Lemma exactWindow_Some cleanedTokens words i :
  exactWindow cleanedTokens words = Some i ->
  (i + length cleanedTokens <= length words)%nat
  /\ allMatch cleanedTokens words i = true
  /\ forall j, (j < i)%nat -> allMatch cleanedTokens words j = false.
Proof.
  unfold exactWindow. destruct (_ <=? _)%nat eqn:Hn; [|done].
  apply Nat.leb_le in Hn. intros H.
  apply find_seq_first in H as (Hi & Hm & Hpre). split; [lia|done].
Qed.

Lemma allMatch_spells cleanedTokens words i :
  allMatch cleanedTokens words i = true
  <-> spellsAt clean cleanedTokens words i.
Proof.
  unfold allMatch, spellsAt. rewrite forallb_forall. split.
  - intros H. apply list_eq. intros j.
    rewrite list_lookup_fmap, slice_lookup. case_decide as Hj.
    + assert (Hin : In j (seq 0 (length cleanedTokens)))
        by (apply in_seq; lia).
      specialize (H j Hin). cbv beta in H.
      destruct (words !! (i + j)%nat) as [w|]; [|done].
      destruct (cleanedTokens !! j) as [t|]; [|done].
      simpl. f_equal. unfold str_eqb in H.
      by apply bool_decide_eq_true in H.
    + symmetry. apply lookup_ge_None. lia.
  - intros Heq j Hj. apply in_seq in Hj.
    destruct (lookup_lt_is_Some_2 cleanedTokens j) as [t Ht]; [lia|].
    pose proof Ht as Ht'. rewrite <- Heq in Ht' at 1.
    rewrite list_lookup_fmap, slice_lookup in Ht'.
    case_decide; [|lia].
    destruct (words !! (i + j)%nat) as [w|]; [|done].
    rewrite Ht. simpl in Ht'. injection Ht' as <-.
    unfold str_eqb. by apply bool_decide_eq_true_2.
Qed.

Lemma mapTextToBBox_cases startIdx endIdx fullText words pageIndex :
  mapTextToBBox startIdx endIdx fullText words pageIndex
  = fallbackBBox pageIndex
  \/ exists ws, ws <> [] /\ ws `sublist_of` words
                /\ mapTextToBBox startIdx endIdx fullText words pageIndex
                   = mergeWordBBoxes ws pageIndex.
Proof.
  unfold mapTextToBBox, tokenStrategy.
  set (matchedText := trim (substring fullText startIdx endIdx)).
  fold (cleanedTokensOf matchedText).
  set (toks := cleanedTokensOf matchedText).
  assert (Hscan :
    (let matchingWords := positionScan fullText startIdx endIdx words 0 [] in
     if (0 <? length matchingWords)%nat
     then mergeWordBBoxes matchingWords pageIndex
     else fallbackBBox pageIndex) = fallbackBBox pageIndex
    \/ exists ws, ws <> [] /\ ws `sublist_of` words
         /\ (let matchingWords :=
               positionScan fullText startIdx endIdx words 0 [] in
             if (0 <? length matchingWords)%nat
             then mergeWordBBoxes matchingWords pageIndex
             else fallbackBBox pageIndex) = mergeWordBBoxes ws pageIndex).
  { cbv zeta.
    destruct (positionScan_sublist fullText startIdx endIdx words 0 [])
      as (r & -> & Hr). simpl.
    destruct r as [|w r]; [by left|right].
    exists (w :: r). by simpl. }
  destruct (_ && _); [|exact Hscan].
  destruct (0 <? length toks)%nat eqn:Hn; [|exact Hscan].
  apply Nat.ltb_lt in Hn.
  destruct (exactWindow toks words) as [i|] eqn:Hex.
  - right. apply exactWindow_Some in Hex as (Hi & _ & _).
    exists (slice words i (i + length toks)).
    split; [|split; [apply slice_sublist|done]].
    intros Hnil. apply (f_equal length) in Hnil.
    rewrite slice_length in Hnil by done. simpl in Hnil. lia.
  - destruct (partialMatch toks words) as [matched|] eqn:Hp;
      [|exact Hscan].
    right. apply firstSome_Some in Hp as (i & _ & Hp).
    apply partialAt_sublist in Hp as [Hne Hsub]. by exists matched.
Qed.

Lemma union_nonneg ws b :
  ws <> [] -> properWords ws -> unionOfWords ws b ->
  0 <= bbox_w b /\ 0 <= bbox_h b.
Proof.
  intros Hne Hproper (Hl & Ht & Hr & Hb).
  destruct Hl as [Hl _], Ht as [Ht _], Hr as [_ Hr], Hb as [_ Hb].
  apply list_elem_of_fmap in Hl as (w1 & Hx & Hw1).
  apply list_elem_of_fmap in Ht as (w2 & Hy & Hw2).
  pose proof (Hr (bbox_x (word_bbox w1) + bbox_w (word_bbox w1))) as Hr1.
  pose proof (Hb (bbox_y (word_bbox w2) + bbox_h (word_bbox w2))) as Hb2.
  destruct (Hproper w1 Hw1) as [? _], (Hproper w2 Hw2) as [_ ?].
  split.
  - assert (bbox_x (word_bbox w1) + bbox_w (word_bbox w1)
            <= bbox_x b + bbox_w b).
    { apply Hr1. apply list_elem_of_fmap. by exists w1. }
    lia.
  - assert (bbox_y (word_bbox w2) + bbox_h (word_bbox w2)
            <= bbox_y b + bbox_h b).
    { apply Hb2. apply list_elem_of_fmap. by exists w2. }
    lia.
Qed.
End AlignmentFacts.

(** X9. What the Alignment Engine returns. The box of [mapTextToBBox] is on
    the requested page and is either the placeholder box or the min/max
    union of a non-empty selection of the page's words, taken in reading
    order. *)
Theorem mapTextToBBox_placeholder_or_union :
  forall (startIdx endIdx : nat) (fullText : jsstring)
         (words : list OCRWord) (pageIndex : Z),
    let b := Layer1.mapTextToBBox startIdx endIdx fullText words pageIndex in
    bbox_pageIndex b = pageIndex
    /\ (b = Layer1.fallbackBBox pageIndex
        \/ exists ws, ws <> [] /\ ws `sublist_of` words
                      /\ b = Layer1.mergeWordBBoxes ws pageIndex
                      /\ unionOfWords ws b).
Proof.
  intros startIdx endIdx fullText words pageIndex b. unfold b.
  destruct (mapTextToBBox_cases startIdx endIdx fullText words pageIndex)
    as [->|(ws & Hne & Hsub & ->)].
  - split; [done|by left].
  - split; [done|right]. exists ws.
    split; [done|]. split; [done|]. split; [done|].
    by apply mergeWordBBoxes_union.
Qed.

(** X10. On words of non-negative width and height the Alignment Engine
    never returns a box of negative width or height (the legacy finder
    can). *)
Theorem mapTextToBBox_nonnegative_size :
  forall (startIdx endIdx : nat) (fullText : jsstring)
         (words : list OCRWord) (pageIndex : Z),
    properWords words ->
    let b := Layer1.mapTextToBBox startIdx endIdx fullText words pageIndex in
    0 <= bbox_w b /\ 0 <= bbox_h b.
Proof.
  intros startIdx endIdx fullText words pageIndex Hproper b. unfold b.
  destruct (mapTextToBBox_cases startIdx endIdx fullText words pageIndex)
    as [->|(ws & Hne & Hsub & ->)]; [simpl; lia|].
  apply (union_nonneg ws); [done| |by apply mergeWordBBoxes_union].
  intros w Hw. apply Hproper. by apply (sublist_subseteq _ _ Hsub).
Qed.

(** X11. Strategy 1a finds the first window. When the cleaned tokens of the
    matched text are spelled by the words from index [i] on, and by the
    words from no earlier index, the box returned is the min/max union of
    exactly those words. *)
Theorem mapTextToBBox_first_exact_window :
  forall (startIdx endIdx : nat) (fullText : jsstring)
         (words : list OCRWord) (pageIndex : Z) (i : nat),
    let cleanedTokens :=
      Layer1.cleanedTokensOf (trim (substring fullText startIdx endIdx)) in
    let window := slice words i (i + length cleanedTokens) in
    cleanedTokens <> [] ->
    spellsAt Layer1.clean cleanedTokens words i ->
    (forall j, (j < i)%nat -> ~ spellsAt Layer1.clean cleanedTokens words j) ->
    Layer1.mapTextToBBox startIdx endIdx fullText words pageIndex
    = Layer1.mergeWordBBoxes window pageIndex
    /\ unionOfWords window
         (Layer1.mapTextToBBox startIdx endIdx fullText words pageIndex).
Proof.
  intros startIdx endIdx fullText words pageIndex i toks window
         Hne Hspell Hfirst.
  assert (Hlen : length window = length toks).
  { unfold window.
    rewrite <- (length_map (fun w => Layer1.clean (word_text w))).
    unfold spellsAt in Hspell. by rewrite Hspell. }
  assert (Hi : (i + length toks <= length words)%nat).
  { destruct toks as [|t toks']; [done|].
    assert (Hl : is_Some (window !! length toks')).
    { apply lookup_lt_is_Some. rewrite Hlen. simpl. lia. }
    unfold window in Hl. rewrite slice_lookup in Hl.
    case_decide; [|by destruct Hl].
    apply lookup_lt_is_Some in Hl. simpl. lia. }
  assert (Hex : Layer1.exactWindow toks words = Some i).
  { unfold Layer1.exactWindow.
    rewrite (proj2 (Nat.leb_le _ _)) by lia.
    apply find_seq_is_first; [lia|by apply allMatch_spells|].
    intros j Hj. apply not_true_iff_false. intros Hm.
    apply allMatch_spells in Hm. by apply (Hfirst j). }
  assert (Heq : Layer1.mapTextToBBox startIdx endIdx fullText words pageIndex
                = Layer1.mergeWordBBoxes window pageIndex).
  { unfold Layer1.mapTextToBBox, Layer1.tokenStrategy.
    fold (Layer1.cleanedTokensOf (trim (substring fullText startIdx endIdx))).
    fold toks. rewrite Hex.
    assert (Hw : (0 <? length words)%nat = true).
    { apply Nat.ltb_lt. destruct toks; [done|]. simpl in Hi. lia. }
    assert (Ht : (0 <? length toks)%nat = true).
    { apply Nat.ltb_lt. destruct toks; [done|]. simpl. lia. }
    rewrite Hw, Ht, andb_true_r.
    destruct (0 <? length (List.filter Layer1.nonEmpty _))%nat eqn:Hraw;
      [done|].
    exfalso. apply Nat.ltb_ge in Hraw.
    unfold toks, Layer1.cleanedTokensOf in Ht.
    destruct (List.filter Layer1.nonEmpty
                (split_ws (trim (substring fullText startIdx endIdx))));
      [done|simpl in Hraw; lia]. }
  split; [done|]. rewrite Heq. apply mergeWordBBoxes_union.
  intros Hnil. rewrite Hnil in Hlen. by destruct toks.
Qed.

(** ** Further properties of the zone merge *)

Lemma concat_map_perm {A B} (f : A -> list B) (l l' : list A) :
  l ≡ₚ l' -> concat (map f l) ≡ₚ concat (map f l').
Proof.
  induction 1 as [|x l l' _ IH|x y l|l1 l2 l3 _ IH1 _ IH2]; simpl.
  - done.
  - by rewrite IH.
  - rewrite !app_assoc. f_equiv. apply Permutation_app_comm.
  - by etrans.
Qed.

Section MergeMore.
Import MatchingEngine.

Lemma zoneCovers_refl z : zoneCovers z z.
Proof. unfold zoneCovers. lia. Qed.

Lemma zoneCovers_trans a b c :
  zoneCovers a b -> zoneCovers b c -> zoneCovers a c.
Proof. unfold zoneCovers. lia. Qed.

Lemma mergeInto_covers lastZone current :
  adjacent lastZone current = true ->
  zoneCovers (mergeInto lastZone current) lastZone
  /\ zoneCovers (mergeInto lastZone current) current.
Proof.
  unfold adjacent. rewrite !andb_true_iff, bool_decide_eq_true.
  intros [[[Hp _] _] _]. unfold zoneCovers, mergeInto. simpl. lia.
Qed.

Lemma mergeStep_covers merged current :
  (forall z, z ∈ merged ->
             exists z', z' ∈ mergeStep merged current /\ zoneCovers z' z)
  /\ exists z', z' ∈ mergeStep merged current /\ zoneCovers z' current.
Proof.
  unfold mergeStep. destruct (last merged) as [lastZone|] eqn:Hl.
  - destruct (adjacent lastZone current) eqn:Hadj.
    + destruct (mergeInto_covers lastZone current Hadj) as [Hc1 Hc2].
      split.
      * intros z Hz. rewrite (removelast_last merged lastZone Hl) in Hz.
        apply elem_of_app in Hz as [Hz|Hz].
        -- exists z. split; [|apply zoneCovers_refl].
           apply elem_of_app. by left.
        -- apply list_elem_of_singleton in Hz as ->.
           exists (mergeInto lastZone current). split; [|done].
           apply elem_of_app. right. by left.
      * exists (mergeInto lastZone current). split; [|done].
        apply elem_of_app. right. by left.
    + split.
      * intros z Hz. exists z. split; [|apply zoneCovers_refl].
        apply elem_of_app. by left.
      * exists current. split; [|apply zoneCovers_refl].
        apply elem_of_app. right. by left.
  - split.
    + intros z Hz. exists z. split; [|apply zoneCovers_refl].
      apply elem_of_app. by left.
    + exists current. split; [|apply zoneCovers_refl].
      apply elem_of_app. right. by left.
Qed.

Lemma merge_fold_covers l : forall merged z,
  z ∈ merged ++ l ->
  exists z', z' ∈ fold_left mergeStep l merged /\ zoneCovers z' z.
Proof.
  induction l as [|c l IH]; intros merged z Hz; simpl.
  - rewrite app_nil_r in Hz. exists z. split; [done|apply zoneCovers_refl].
  - destruct (mergeStep_covers merged c) as [Hold Hnew].
    apply elem_of_app in Hz as [Hz|Hz].
    + destruct (Hold z Hz) as (z1 & Hz1 & Hc1).
      destruct (IH (mergeStep merged c) z1) as (z2 & Hz2 & Hc2).
      { apply elem_of_app. by left. }
      exists z2. split; [done|]. by eapply zoneCovers_trans.
    + apply elem_of_cons in Hz as [->|Hz].
      * destruct Hnew as (z1 & Hz1 & Hc1).
        destruct (IH (mergeStep merged c) z1) as (z2 & Hz2 & Hc2).
        { apply elem_of_app. by left. }
        exists z2. split; [done|]. by eapply zoneCovers_trans.
      * apply IH. apply elem_of_app. by right.
Qed.

Lemma mergeStep_length merged current :
  merged <> [] ->
  mergeStep merged current <> []
  /\ (length (mergeStep merged current) <= S (length merged))%nat.
Proof.
  intros Hne. unfold mergeStep.
  destruct (last merged) as [lastZone|] eqn:Hl.
  - destruct (adjacent lastZone current).
    + split; [by destruct (removelast merged)|].
      rewrite (removelast_last merged lastZone Hl) at 2.
      rewrite !length_app. simpl. lia.
    + split; [by destruct merged|]. rewrite length_app. simpl. lia.
  - split; [by destruct merged|]. rewrite length_app. simpl. lia.
Qed.

Lemma merge_fold_length l : forall merged,
  merged <> [] ->
  fold_left mergeStep l merged <> []
  /\ (length (fold_left mergeStep l merged) <= length merged + length l)%nat.
Proof.
  induction l as [|c l IH]; intros merged Hne; simpl.
  - split; [done|lia].
  - destruct (mergeStep_length merged c Hne) as [Hne' Hlen].
    destruct (IH _ Hne') as [Hne'' Hlen']. split; [done|lia].
Qed.

Lemma mergeAdjacentZones_covers zones z :
  z ∈ zones ->
  exists z', z' ∈ mergeAdjacentZones zones /\ zoneCovers z' z.
Proof.
  intros Hz. rewrite mergeAdjacentZones_unfold.
  rewrite <- (js_sort_perm zoneOrder zones) in Hz.
  destruct (js_sort zoneOrder zones) as [|first rest].
  - by apply elem_of_nil in Hz.
  - by apply (merge_fold_covers rest [first]).
Qed.
End MergeMore.

(** X12. The zone merge loses nothing: every zone given to
    [mergeAdjacentZones] lies, on its page, inside one of the zones
    returned; the zones returned are no more than those given and there is
    one whenever one was given; and the matched tokens of the zones
    returned are those of the zones given. *)
Theorem mergeAdjacentZones_covers_input :
  forall zones : list RedactionZone,
    let merged := MatchingEngine.mergeAdjacentZones zones in
    (forall z, z ∈ zones -> exists z', z' ∈ merged /\ zoneCovers z' z)
    /\ (length merged <= length zones)%nat
    /\ (merged = [] <-> zones = [])
    /\ concat (map zone_matchedWords merged)
       ≡ₚ concat (map zone_matchedWords zones).
Proof.
  intros zones merged. split; [|split; [|split]].
  - intros z Hz. by apply mergeAdjacentZones_covers.
  - unfold merged. rewrite mergeAdjacentZones_unfold.
    rewrite <- (js_sort_perm MatchingEngine.zoneOrder zones) at 2.
    destruct (js_sort MatchingEngine.zoneOrder zones) as [|first rest];
      [done|].
    destruct (merge_fold_length rest [first]) as [_ H]; [done|].
    simpl in *. lia.
  - unfold merged. rewrite mergeAdjacentZones_unfold.
    pose proof (js_sort_perm MatchingEngine.zoneOrder zones) as Hperm.
    destruct (js_sort MatchingEngine.zoneOrder zones) as [|first rest].
    + split; [intros _|done]. by apply Permutation_nil in Hperm.
    + destruct (merge_fold_length rest [first]) as [Hne _]; [done|].
      split; [done|]. intros ->. symmetry in Hperm.
      by apply Permutation_nil_cons in Hperm.
  - unfold merged. rewrite mergeAdjacentZones_unfold.
    etrans; [|apply concat_map_perm,
                (js_sort_perm MatchingEngine.zoneOrder zones)].
    destruct (js_sort MatchingEngine.zoneOrder zones) as [|first rest];
      [done|].
    rewrite merge_fold_words. simpl. by rewrite app_nil_r.
Qed.

(** ** Further properties of the Phrase-to-Zone Matcher *)

Section MatcherMore.
Import MatchingEngine.

Local Abbreviation phraseStep :=
  (fun st phrase => fallbackPass phrase (exactPass phrase st)).

Lemma phraseStep_extends st phrase : extends st (phraseStep st phrase).
Proof.
  eapply extends_trans; [apply exactPass_extends|apply fallbackPass_extends].
Qed.

Lemma collectZones_extends spatialMap forbiddenList :
  extends (spatialMap, []) (collectZones spatialMap forbiddenList).
Proof.
  unfold collectZones.
  destruct (fold_left partitionStep forbiddenList (∅, [])) as [sw mp].
  eapply extends_trans.
  - apply (fold_extends phraseStep). apply phraseStep_extends.
  - apply fold_extends. intros st i. apply singleStep_extends.
Qed.

Lemma calculateRedactionZones_parts spatialMap forbiddenList rf :
  calculateRedactionZones spatialMap forbiddenList rf
  = (fst (collectZones spatialMap forbiddenList),
     mergeAdjacentZones (snd (collectZones spatialMap forbiddenList))).
Proof.
  unfold calculateRedactionZones.
  by destruct (collectZones spatialMap forbiddenList).
Qed.

Lemma step_covered p sm zones js z :
  flaggedCovered p (sm, zones) ->
  (forall j e0, j ∈ js -> sm !! j = Some e0 ->
                zoneCoversEntry REDACTION_PADDING z e0) ->
  flaggedCovered p (markAll js sm, zones ++ [z]).
Proof.
  intros [Hpage Hcov] Hz. simpl in *. split; simpl.
  - intros e He. apply list_elem_of_lookup_1 in He as [k Hk].
    rewrite markAll_lookup in Hk.
    destruct (sm !! k) as [e0|] eqn:He0; [|by case_bool_decide].
    apply list_elem_of_lookup_2 in He0.
    case_bool_decide; simpl in Hk; injection Hk as <-; simpl;
      by apply Hpage.
  - intros e He Hflag. apply list_elem_of_lookup_1 in He as [k Hk].
    rewrite markAll_lookup in Hk.
    destruct (sm !! k) as [e0|] eqn:He0; [|by case_bool_decide].
    case_bool_decide as Hin; simpl in Hk; injection Hk as <-.
    + exists z. split; [apply elem_of_app; right; by left|].
      by apply (Hz k e0).
    + destruct (Hcov e0) as (z0 & Hz0 & Hc); [|done|].
      { by eapply list_elem_of_lookup_2. }
      exists z0. split; [apply elem_of_app; by left|done].
Qed.

Lemma zoneOf_covers p matched orig e :
  e ∈ matched -> (forall e', e' ∈ matched -> sm_pageIndex e' = p) ->
  zoneCoversEntry REDACTION_PADDING (zoneOf matched orig) e.
Proof.
  intros He Hpage.
  assert (Hne : matched <> []) by (intros ->; by apply elem_of_nil in He).
  destruct (zoneOf_padded_union matched orig Hne)
    as ([_ Hl] & [_ Ht] & [_ Hr] & [_ Hb]).
  unfold zoneCoversEntry. split.
  - rewrite (Hpage e He). unfold zoneOf. simpl.
    destruct matched as [|e1 matched]; [done|]. apply Hpage. by left.
  - specialize (Hl (sm_left e)). specialize (Ht (sm_top e)).
    specialize (Hr (sm_left e + sm_width e)).
    specialize (Hb (sm_top e + sm_height e)).
    rewrite !list_elem_of_fmap in Hl, Ht, Hr, Hb.
    assert (zone_x (zoneOf matched orig) + REDACTION_PADDING <= sm_left e)
      by (apply Hl; by exists e).
    assert (zone_y (zoneOf matched orig) + REDACTION_PADDING <= sm_top e)
      by (apply Ht; by exists e).
    assert (sm_left e + sm_width e
            <= zone_x (zoneOf matched orig) + zone_w (zoneOf matched orig)
               - REDACTION_PADDING)
      by (apply Hr; by exists e).
    assert (sm_top e + sm_height e
            <= zone_y (zoneOf matched orig) + zone_h (zoneOf matched orig)
               - REDACTION_PADDING)
      by (apply Hb; by exists e).
    lia.
Qed.

Lemma exactStep_covered p phrase st i :
  flaggedCovered p st -> flaggedCovered p (exactStep phrase st i).
Proof.
  destruct st as [sm zones]. intros Hinv. unfold exactStep.
  destruct (allMatch (tokens phrase) sm i); [|done].
  apply step_covered; [done|].
  intros j e0 Hj He0.
  apply list_elem_of_fmap in Hj as (k & -> & Hk).
  apply list_elem_of_In, in_seq in Hk.
  apply (zoneOf_covers p).
  - apply (list_elem_of_lookup_2 _ k). rewrite slice_lookup.
    case_decide; [done|lia].
  - intros e' He'. apply (proj1 Hinv). simpl.
    by apply (sublist_subseteq _ _
                (slice_sublist sm i (i + length (tokens phrase)))).
Qed.

Lemma exactPass_covered p phrase st :
  flaggedCovered p st -> flaggedCovered p (exactPass phrase st).
Proof.
  intros Hinv. unfold exactPass.
  destruct (_ <=? _)%nat; [|done].
  generalize (length (fst st) - length (tokens phrase) + 1)%nat.
  intros n. revert st Hinv. induction (seq 0 n) as [|i l IH]; intros st Hinv; [done|].
  simpl. apply IH. by apply exactStep_covered.
Qed.

Lemma fallbackPass_covered p phrase st :
  flaggedCovered p st -> flaggedCovered p (fallbackPass phrase st).
Proof.
  destruct st as [sm zones]. intros Hinv. unfold fallbackPass.
  destruct (existsb _ zones); [done|].
  destruct (Layer1.firstSome _ _) as [matched|]; [|done].
  apply step_covered; [done|].
  intros j e0 Hj He0. apply (zoneOf_covers p).
  - apply list_elem_of_omap. by exists j.
  - intros e' He'. apply list_elem_of_omap in He' as (k & _ & Hk).
    apply (proj1 Hinv). simpl. by eapply list_elem_of_lookup_2.
Qed.

Lemma singleStep_covered p singleWords st i :
  flaggedCovered p st -> flaggedCovered p (singleStep singleWords st i).
Proof.
  destruct st as [sm zones]. intros Hinv. unfold singleStep.
  destruct (sm !! i) as [entry|] eqn:Hentry; [|done].
  destruct (sm_redact entry); [done|].
  destruct (_ =? _)%nat; [done|].
  case_bool_decide; [|done].
  apply (step_covered p sm zones [i]); [done|].
  intros j e0 Hj He0. apply list_elem_of_singleton in Hj as ->.
  rewrite Hentry in He0. injection He0 as <-.
  unfold zoneCoversEntry, REDACTION_PADDING. simpl. lia.
Qed.

Lemma fold_covered {A} p (step : state -> A -> state) l :
  (forall st a, flaggedCovered p st -> flaggedCovered p (step st a)) ->
  forall st, flaggedCovered p st -> flaggedCovered p (fold_left step l st).
Proof.
  intros Hstep. induction l as [|a l IH]; intros st Hinv; simpl; auto.
Qed.

Lemma collectZones_covered p spatialMap forbiddenList :
  freshMap p spatialMap ->
  flaggedCovered p (collectZones spatialMap forbiddenList).
Proof.
  intros Hfresh. unfold collectZones.
  destruct (fold_left partitionStep forbiddenList (∅, [])) as [sw mp].
  apply fold_covered; [intros; by apply singleStep_covered|].
  apply (fold_covered p phraseStep).
  { intros st a Hinv. by apply fallbackPass_covered, exactPass_covered. }
  split; simpl.
  - intros e He. by apply Hfresh.
  - intros e He Hflag. destruct (Hfresh e He) as [_ Hno]. congruence.
Qed.

Lemma partition_single forbiddenList p t :
  p ∈ forbiddenList -> cleanedTokensOf p = [t] ->
  t ∈ fst (fold_left partitionStep forbiddenList (∅, [])).
Proof.
  intros Hp Htok.
  assert (Hgrow : forall l acc q,
             q ∈ fst acc -> q ∈ fst (fold_left partitionStep l acc)).
  { induction l as [|x l IH]; intros acc q Hq; [done|]. simpl. apply IH.
    destruct acc as [sw mp]. unfold partitionStep.
    destruct (List.filter _ _) as [|t1 [|t' ts]]; simpl; try done.
    apply elem_of_union. by right. }
  generalize (∅ : gset jsstring, [] : list MultiPhrase).
  induction forbiddenList as [|x l IH]; intros acc.
  { by apply elem_of_nil in Hp. }
  apply elem_of_cons in Hp as [<-|Hp]; [|by apply IH].
  simpl. apply Hgrow. destruct acc as [sw mp].
  unfold partitionStep. fold (cleanedTokensOf p). rewrite Htok. simpl.
  apply elem_of_union. left. by apply elem_of_singleton.
Qed.

Lemma single_pass_marks singleWords l : forall st j e e',
  j ∈ l -> fst st !! j = Some e' -> unmark e' = unmark e ->
  clean (sm_text e) ∈ singleWords -> clean (sm_text e) <> [] ->
  fst (fold_left (singleStep singleWords) l st) !! j = Some (markRedact e).
Proof.
  induction l as [|x l IH]; intros st j e e' Hj He' Hun Hin Hne.
  { by apply elem_of_nil in Hj. }
  simpl. apply elem_of_cons in Hj as [->|Hj].
  - apply (extends_marked (singleStep singleWords st x)).
    { apply fold_extends. intros. apply singleStep_extends. }
    destruct st as [sm zones]. simpl in He'. unfold singleStep.
    rewrite He'.
    assert (Htext : sm_text e' = sm_text e) by (injection Hun; done).
    destruct (sm_redact e') eqn:Hflag.
    + simpl. rewrite He'. f_equal.
      rewrite <- (markRedact_unmark e' e Hun).
      destruct e'. simpl in Hflag. by subst.
    + rewrite Htext.
      destruct (length (clean (sm_text e)) =? 0)%nat eqn:Hlen.
      { apply Nat.eqb_eq in Hlen. by destruct (clean (sm_text e)). }
      rewrite bool_decide_eq_true_2 by done. simpl.
      rewrite list_lookup_alter_eq, He'. simpl. f_equal.
      by apply markRedact_unmark.
  - pose proof (singleStep_extends singleWords st x) as Hext.
    pose proof (lookup_unmark _ _ j (extends_unmark _ _ Hext)) as Hk.
    rewrite He' in Hk.
    destruct (fst (singleStep singleWords st x) !! j) as [e1|] eqn:He1;
      [|done].
    simpl in Hk. apply (IH _ j e e1); try done. congruence.
Qed.
End MatcherMore.

(** X13. The Phrase-to-Zone Matcher leaves the words as they are: the
    spatial map it hands back has the entries of the one it was given, with
    the same text, rectangle and page, and an entry that was flagged stays
    flagged. *)
Theorem calculateRedactionZones_keeps_entries :
  forall (spatialMap : list SpatialMapEntry)
         (forbiddenList requiredFields : list jsstring),
    let spatialMap' :=
      fst (MatchingEngine.calculateRedactionZones
             spatialMap forbiddenList requiredFields) in
    length spatialMap' = length spatialMap
    /\ map MatchingEngine.unmark spatialMap'
       = map MatchingEngine.unmark spatialMap
    /\ forall j e, spatialMap !! j = Some e -> sm_redact e = true ->
                   spatialMap' !! j = Some e.
Proof.
  intros spatialMap forbiddenList requiredFields spatialMap'.
  unfold spatialMap'. rewrite calculateRedactionZones_parts. simpl.
  pose proof (collectZones_extends spatialMap forbiddenList) as Hext.
  pose proof (extends_unmark _ _ Hext) as Hun. simpl in Hun.
  split; [|split; [done|]].
  - rewrite <- (length_map MatchingEngine.unmark), Hun. apply length_map.
  - intros j e He Hflag.
    assert (Heq : e = MatchingEngine.markRedact e).
    { destruct e. simpl in Hflag. by subst. }
    rewrite Heq. apply (extends_marked _ _ _ _ Hext). simpl.
    by rewrite <- Heq.
Qed.

(** X14. No flagged word is left uncovered. On the spatial map of a page
    (every entry on that page, none flagged) every entry the matcher has
    flagged lies, with the padding of 5 on every side, inside one of the
    zones it returns, on that page. *)
Theorem calculateRedactionZones_covers_flagged :
  forall (spatialMap : list SpatialMapEntry)
         (forbiddenList requiredFields : list jsstring) (pageIndex : Z),
    freshMap pageIndex spatialMap ->
    let result :=
      MatchingEngine.calculateRedactionZones
        spatialMap forbiddenList requiredFields in
    forall e, e ∈ fst result -> sm_redact e = true ->
              exists z, z ∈ snd result
                        /\ zoneCoversEntry MatchingEngine.REDACTION_PADDING z e.
Proof.
  intros spatialMap forbiddenList requiredFields pageIndex Hfresh result.
  unfold result. rewrite calculateRedactionZones_parts. simpl.
  intros e He Hflag.
  destruct (collectZones_covered pageIndex spatialMap forbiddenList Hfresh)
    as [_ Hcov].
  destruct (Hcov e He Hflag) as (z0 & Hz0 & Hc0).
  destruct (mergeAdjacentZones_covers _ z0 Hz0) as (z & Hz & Hc).
  exists z. split; [done|].
  unfold zoneCoversEntry, zoneCovers in *. lia.
Qed.

(** X15. Every forbidden single word is flagged. When an item of the
    forbidden list cleans to one token, every entry of the spatial map
    whose cleaned text is that token is flagged in the map handed back,
    wherever it stands and whatever the other items are. *)
Theorem calculateRedactionZones_flags_single_words :
  forall (spatialMap : list SpatialMapEntry)
         (forbiddenList requiredFields : list jsstring)
         (p t : jsstring) (j : nat) (e : SpatialMapEntry),
    p ∈ forbiddenList ->
    MatchingEngine.cleanedTokensOf p = [t] ->
    spatialMap !! j = Some e ->
    MatchingEngine.clean (sm_text e) = t ->
    fst (MatchingEngine.calculateRedactionZones
           spatialMap forbiddenList requiredFields) !! j
    = Some (MatchingEngine.markRedact e).
Proof.
  intros spatialMap forbiddenList requiredFields p t j e Hp Htok He Ht.
  rewrite calculateRedactionZones_parts. simpl.
  pose proof (partition_single forbiddenList p t Hp Htok) as Hin.
  assert (Hne : t <> []).
  { intros ->.
    assert (Hall : Forall (fun x => MatchingEngine.nonEmpty x = true)
                          (MatchingEngine.cleanedTokensOf p)).
    { unfold MatchingEngine.cleanedTokensOf. apply Forall_forall.
      intros x Hx. by apply list_elem_of_In, filter_In in Hx as [_ Hx]. }
    rewrite Htok in Hall. by apply Forall_inv in Hall. }
  unfold MatchingEngine.collectZones.
  destruct (fold_left MatchingEngine.partitionStep forbiddenList (∅, []))
    as [sw mp]. simpl in Hin.
  set (st1 := fold_left
                (fun st phrase =>
                   MatchingEngine.fallbackPass
                     phrase (MatchingEngine.exactPass phrase st))
                mp (spatialMap, [])).
  assert (Hext : MatchingEngine.extends (spatialMap, []) st1).
  { apply (fold_extends
             (fun st phrase =>
                MatchingEngine.fallbackPass
                  phrase (MatchingEngine.exactPass phrase st))).
    apply phraseStep_extends. }
  pose proof (lookup_unmark _ _ j (extends_unmark _ _ Hext)) as Hk.
  simpl in Hk. rewrite He in Hk.
  destruct (fst st1 !! j) as [e1|] eqn:He1; [|done]. simpl in Hk.
  apply (single_pass_marks sw _ st1 j e e1); try done.
  - apply list_elem_of_In, in_seq.
    apply lookup_lt_Some in He. lia.
  - congruence.
  - by rewrite Ht.
  - by rewrite Ht.
Qed.

(** ** Further properties of the legacy classifier path *)

Section FinderFacts.
Import Gemini.

Lemma split_ws_aux_not_nil s : forall inws cur, split_ws_aux inws cur s <> [].
Proof.
  induction s as [|c s IH]; intros inws cur; simpl; [done|].
  destruct (isWhiteSpace c); [destruct inws|]; auto.
Qed.

Lemma sliceBBox_Some sl pageIndex b :
  sliceBBox sl pageIndex = Some b ->
  bbox_pageIndex b = pageIndex /\ legacyBoxOf sl b.
Proof.
  unfold sliceBBox. destruct sl as [|firstW rest]; [done|].
  destruct (last (firstW :: rest)) as [lastW|] eqn:Hl; [|done].
  intros [= <-]. split; [done|].
  exists firstW, lastW. simpl bbox_x. simpl bbox_y. simpl bbox_w.
  simpl bbox_h.
  split; [done|]. split; [done|]. split; [done|]. split; [lia|].
  rewrite Zplus_minus. split.
  - by apply (Math_min_isMin
                (map (fun w => bbox_y (word_bbox w)) (firstW :: rest))).
  - by apply (Math_max_isMax
                (map (fun w => bbox_y (word_bbox w) + bbox_h (word_bbox w))
                     (firstW :: rest))).
Qed.

Lemma everyMatches_head needleCleaned w rest :
  everyMatches needleCleaned (w :: rest) = true ->
  head needleCleaned = Some (clean (word_text w)).
Proof.
  unfold everyMatches. simpl. rewrite andb_true_iff.
  intros [H _]. apply bool_decide_eq_true in H.
  by rewrite head_lookup.
Qed.

Lemma consecutive_bounds needleCleaned : forall rest j,
  (j <= consecutive needleCleaned rest j <= j + length rest)%nat.
Proof.
  induction rest as [|w rest IH]; intros j; simpl; [lia|].
  destruct (_ && _); [|lia]. specialize (IH (S j)). lia.
Qed.

Lemma slice_one {A} (l : list A) i x :
  l !! i = Some x -> slice l i (i + 1) = [x].
Proof.
  intros H. unfold slice. replace (i + 1 - i)%nat with 1%nat by lia.
  rewrite (drop_S l x i H). done.
Qed.

Lemma findBBoxForString_Some sensitiveText words pageIndex b :
  findBBoxForString sensitiveText words pageIndex = Some b ->
  bbox_pageIndex b = pageIndex
  /\ exists i j,
       head (map clean (split_ws (trim sensitiveText)))
       = (fun w => clean (word_text w)) <$> head (slice words i j)
       /\ legacyBoxOf (slice words i j) b.
Proof.
  unfold findBBoxForString.
  set (needleCleaned := map clean (split_ws (trim sensitiveText))).
  set (n := length (split_ws (trim sensitiveText))).
  destruct (if (n <=? length words)%nat then _ else None) as [i|] eqn:Hwin.
  - intros Hb. destruct (n <=? length words)%nat; [|done].
    apply find_some in Hwin as [_ Hm].
    apply sliceBBox_Some in Hb as [Hpage Hbox]. split; [done|].
    exists i, (i + n)%nat. split; [|done].
    destruct Hbox as (firstW & _ & Hhead & _).
    destruct (slice words i (i + n)) as [|w rest]; [done|].
    simpl in Hhead. injection Hhead as ->. simpl.
    by apply everyMatches_head in Hm.
  - destruct (if (n =? 1)%nat then _ else None) as [word|] eqn:Hsingle.
    + intros [= <-]. split; [done|].
      destruct (n =? 1)%nat; [|done].
      apply find_some in Hsingle as [Hin Hm].
      apply bool_decide_eq_true in Hm.
      apply list_elem_of_In, list_elem_of_lookup_1 in Hin as [i Hi].
      exists i, (i + 1)%nat. rewrite (slice_one words i word Hi). simpl.
      split; [by rewrite head_lookup|].
      exists word, word. simpl.
      split; [done|]. split; [done|]. split; [done|]. split; [done|].
      split; (split; [by left|]); intros z Hz;
        apply list_elem_of_singleton in Hz as ->; lia.
    + intros Hp. apply firstSome_Some in Hp as (i & _ & Hp).
      unfold partialAt in Hp.
      destruct (words !! i) as [w|] eqn:Hw; [|done].
      case_bool_decide as Hfirst; [|done].
      destruct (_ <=? consecutive _ _ _)%nat; [|done].
      pose proof (consecutive_bounds needleCleaned (drop (S i) words) 1)
        as [Hj _].
      apply sliceBBox_Some in Hp as [Hpage Hbox]. split; [done|].
      eexists i, _. split; [|exact Hbox].
      rewrite head_lookup, (head_lookup (slice _ _ _)), slice_lookup.
      case_decide; [|lia]. rewrite Nat.add_0_r, Hw. done.
Qed.

Lemma findBBoxForString_absent sensitiveText words pageIndex :
  (forall w, w ∈ words ->
             head (map clean (split_ws (trim sensitiveText)))
             <> Some (clean (word_text w))) ->
  findBBoxForString sensitiveText words pageIndex = None.
Proof.
  intros Habs.
  destruct (findBBoxForString sensitiveText words pageIndex) as [b|] eqn:Hb;
    [exfalso|done].
  apply findBBoxForString_Some in Hb as (_ & i & j & Hhead & Hbox).
  destruct Hbox as (firstW & _ & Hfirst & _).
  rewrite Hfirst in Hhead. simpl in Hhead.
  apply (Habs firstW); [|done].
  apply (sublist_subseteq _ _ (slice_sublist words i j)).
  rewrite head_lookup in Hfirst. by eapply list_elem_of_lookup_2.
Qed.
End FinderFacts.

(** X16. What the legacy finder returns. A box it finds is on the requested
    page and is built from a run of consecutive words whose first word
    cleans to the first token of the text looked for: it reaches from the
    left edge of the first word of the run to the right edge of its last
    word, and from the least top to the greatest bottom of the run. *)
Theorem findBBoxForString_found_run :
  forall (sensitiveText : jsstring) (words : list OCRWord) (pageIndex : Z)
         (b : BoundingBox),
    Gemini.findBBoxForString sensitiveText words pageIndex = Some b ->
    bbox_pageIndex b = pageIndex
    /\ exists i j,
         head (map Gemini.clean (split_ws (trim sensitiveText)))
         = (fun w => Gemini.clean (word_text w)) <$> head (slice words i j)
         /\ legacyBoxOf (slice words i j) b.
Proof. apply findBBoxForString_Some. Qed.

(** X17. The legacy finder finds nothing when no word of the page cleans to
    the first token of the text looked for, and so on a page without
    words. *)
Theorem findBBoxForString_first_token_absent :
  forall (sensitiveText : jsstring) (words : list OCRWord) (pageIndex : Z),
    (forall w, w ∈ words ->
               head (map Gemini.clean (split_ws (trim sensitiveText)))
               <> Some (Gemini.clean (word_text w))) ->
    Gemini.findBBoxForString sensitiveText words pageIndex = None.
Proof. apply findBBoxForString_absent. Qed.

Section LegacyMore.
Import Gemini.
Variable randomUUID : nat -> jsstring.
Variables (words : list OCRWord) (pageIndex : Z).

Lemma legacyInv_push entities seen text type bbox :
  legacyInv pageIndex (entities, seen) ->
  toLowerCase (trim text) ∉ seen ->
  bbox_pageIndex bbox = pageIndex ->
  legacyInv pageIndex
    (entities ++
       [mkEntity (js "gem_" ++ substring (randomUUID (length entities)) 0 8)
                 type (trim text) (qc 9 10) bbox true 2],
     {[ toLowerCase (trim text) ]} ∪ seen).
Proof.
  intros [Hall Hnodup] Hnew Hpage. split; simpl.
  - intros e He. apply elem_of_app in He as [He|He].
    + destruct (Hall e He) as (Hk & H). split; [|exact H].
      apply elem_of_union. by right.
    + apply list_elem_of_singleton in He as ->. simpl.
      split; [|done]. apply elem_of_union. left.
      by apply elem_of_singleton.
  - rewrite map_app. apply NoDup_app. split; [done|]. split.
    + intros k Hk Hk'. apply list_elem_of_singleton in Hk'.
      apply list_elem_of_fmap in Hk as (e & Hkey & He).
      apply Hnew.
      assert (toLowerCase (trim text) = seenKey e) as ->
        by (by rewrite <- Hkey, Hk').
      by apply Hall.
    + simpl. apply NoDup_singleton.
Qed.

Lemma legacyInv_seen entities seen key :
  legacyInv pageIndex (entities, seen) ->
  legacyInv pageIndex (entities, {[ key ]} ∪ seen).
Proof.
  intros [Hall Hnodup]. split; [|done]. simpl in *.
  intros e He. destruct (Hall e He) as (Hk & H). split; [|exact H].
  apply elem_of_union. by right.
Qed.

Lemma geminiStep_inv st item st' :
  legacyInv pageIndex st ->
  geminiStep randomUUID words pageIndex st item = Resolved st' ->
  legacyInv pageIndex st'.
Proof.
  intros Hst H. destruct st as [entities seen]. unfold geminiStep in H.
  repeat case_match; simplify_eq; try done;
    try (by apply legacyInv_seen).
  all: apply legacyInv_push; try done;
    try (by eapply bool_decide_eq_false_1);
    match goal with
    | Hb : findBBoxForString _ _ _ = Some _ |- _ =>
        by apply findBBoxForString_Some in Hb as [? _]
    end.
Qed.

Lemma geminiLoop_inv items : forall st st',
  legacyInv pageIndex st ->
  geminiLoop randomUUID words pageIndex st items = Resolved st' ->
  legacyInv pageIndex st'.
Proof.
  induction items as [|item items IH]; intros st st' Hst H; simpl in H.
  - by injection H as <-.
  - destruct (geminiStep randomUUID words pageIndex st item) as [st1|]
      eqn:E; [|done].
    eapply IH; [|exact H]. by eapply geminiStep_inv.
Qed.

Lemma runGeminiDetection_inv fullText apiKey response entities :
  runGeminiDetection randomUUID words pageIndex fullText apiKey response
  = Resolved entities ->
  exists seen, legacyInv pageIndex (entities, seen).
Proof.
  assert (Hnil : legacyInv pageIndex ([], ∅)).
  { split; simpl; [|constructor]. intros e He. by apply elem_of_nil in He. }
  unfold runGeminiDetection, parseDetection. intros H.
  repeat case_match; simplify_eq; try (by exists ∅).
  eexists. eapply (geminiLoop_inv _ ([], ∅) (_, _)); [exact Hnil|eassumption].
Qed.
End LegacyMore.


(** ** The review dialog *)

Section ReviewFacts.
Import ReviewModal.


Lemma toggleOne_twice rf entityId e :
  toggleOne rf entityId (toggleOne rf entityId e)
  = if str_eqb (ent_id e) entityId
       && bool_decide (PIIType_name (ent_type e) ∈ rf)
    then withMasked true e else e.
Proof.
  unfold toggleOne.
  destruct (str_eqb (ent_id e) entityId) eqn:Hid; simpl;
    [|by rewrite Hid].
  destruct (bool_decide (PIIType_name (ent_type e) ∈ rf)) eqn:Hreq,
           (ent_masked e) eqn:Hm; simpl; rewrite ?Hid, ?Hreq, ?Hm; simpl;
    destruct e; simpl in *; by subst.
Qed.

Lemma toggleOne_same rf entityId e :
  Pipeline.sameButMask e (toggleOne rf entityId e)
  /\ (ent_id e <> entityId -> toggleOne rf entityId e = e).
Proof.
  unfold toggleOne, str_eqb. split.
  - destruct (negb _); [done|]. by destruct (_ && _).
  - intros Hne. by rewrite bool_decide_eq_false_2.
Qed.

Lemma counts_add_up l : (maskedCount l + keptCount l = length l)%nat.
Proof.
  unfold maskedCount, keptCount.
  induction l as [|e l IH]; simpl; [done|].
  destruct (ent_masked e); simpl; lia.
Qed.
End ReviewFacts.


(** X20. Clicking an entity of the review dialog changes nothing but the
    mask of the entities with that identifier, and a second click undoes
    the first, except on an entity of a required category: such an entity,
    once masked, stays masked whatever is clicked. The two counters of the
    dialog always add up to the number of entities. *)
Theorem toggleEntity_twice :
  forall (requiredFields : list jsstring) (entityId : jsstring)
         (prev : list DetectedEntity),
    let once := ReviewModal.toggleEntity requiredFields entityId prev in
    Forall2 (fun e e' =>
               Pipeline.sameButMask e e'
               /\ (ent_id e <> entityId -> e' = e))
            prev once
    /\ ReviewModal.toggleEntity requiredFields entityId once
       = map (fun e =>
                if str_eqb (ent_id e) entityId
                   && bool_decide (PIIType_name (ent_type e) ∈ requiredFields)
                then ReviewModal.withMasked true e else e)
             prev
    /\ (ReviewModal.maskedCount once + ReviewModal.keptCount once
        = length prev)%nat.
Proof.
  intros requiredFields entityId prev once. unfold once.
  split; [|split].
  - unfold ReviewModal.toggleEntity.
    induction prev as [|e prev IH]; simpl; constructor; [|done].
    apply toggleOne_same.
  - unfold ReviewModal.toggleEntity. rewrite map_map.
    apply map_ext. intros e. apply toggleOne_twice.
  - rewrite counts_add_up. unfold ReviewModal.toggleEntity.
    apply length_map.
Qed.

(** ** Redacting the image *)

Section RedactFacts.
Import ImageProcessor.

Lemma redactImageRegions_rect canvasWidth canvasHeight entities e :
  e ∈ entities -> ent_masked e = true ->
  mkRect (Z.max 0 (bbox_x (ent_bbox e) - SUB_PIXEL_PADDING))
         (Z.max 0 (bbox_y (ent_bbox e) - SUB_PIXEL_PADDING))
         (Z.min (canvasWidth
                 - Z.max 0 (bbox_x (ent_bbox e) - SUB_PIXEL_PADDING))
                (bbox_w (ent_bbox e) + SUB_PIXEL_PADDING * 2))
         (Z.min (canvasHeight
                 - Z.max 0 (bbox_y (ent_bbox e) - SUB_PIXEL_PADDING))
                (bbox_h (ent_bbox e) + SUB_PIXEL_PADDING * 2))
  ∈ redactImageRegions true canvasWidth canvasHeight entities.
Proof.
  intros He Hm. unfold redactImageRegions. simpl.
  apply list_elem_of_fmap. exists e. split; [done|].
  apply list_elem_of_In, filter_In. split; [by apply list_elem_of_In|done].
Qed.

Lemma redactImageRegions_covers canvasWidth canvasHeight entities e u v :
  e ∈ entities -> ent_masked e = true ->
  onCanvas canvasWidth canvasHeight u v ->
  bbox_x (ent_bbox e) - SUB_PIXEL_PADDING <= u
    < bbox_x (ent_bbox e) + bbox_w (ent_bbox e) + SUB_PIXEL_PADDING ->
  bbox_y (ent_bbox e) - SUB_PIXEL_PADDING <= v
    < bbox_y (ent_bbox e) + bbox_h (ent_bbox e) + SUB_PIXEL_PADDING ->
  exists r, r ∈ redactImageRegions true canvasWidth canvasHeight entities
            /\ paints r u v.
Proof.
  intros He Hm [Hu Hv] Hx Hy.
  eexists. split; [by apply redactImageRegions_rect|].
  unfold paints, SUB_PIXEL_PADDING in *. simpl. lia.
Qed.
End RedactFacts.

(** X21. The redaction of an image covers every masked entity. With a 2d
    context, every pixel of the canvas that lies in the box of a masked
    entity, or within 5 pixels of it, is inside a rectangle that
    [redactImageRegions] fills; one rectangle is filled per masked entity;
    and without a context nothing is filled. *)
Theorem redactImageRegions_covers_masked :
  forall (canvasWidth canvasHeight : Z) (entities : list DetectedEntity),
    (forall e u v,
       e ∈ entities -> ent_masked e = true ->
       ImageProcessor.onCanvas canvasWidth canvasHeight u v ->
       bbox_x (ent_bbox e) - 5 <= u
         < bbox_x (ent_bbox e) + bbox_w (ent_bbox e) + 5 ->
       bbox_y (ent_bbox e) - 5 <= v
         < bbox_y (ent_bbox e) + bbox_h (ent_bbox e) + 5 ->
       exists r,
         r ∈ ImageProcessor.redactImageRegions
               true canvasWidth canvasHeight entities
         /\ ImageProcessor.paints r u v)
    /\ length (ImageProcessor.redactImageRegions
                 true canvasWidth canvasHeight entities)
       = ReviewModal.maskedCount entities
    /\ ImageProcessor.redactImageRegions
         false canvasWidth canvasHeight entities = [].
Proof.
  intros canvasWidth canvasHeight entities. split; [|split].
  - intros e u v. apply redactImageRegions_covers.
  - unfold ImageProcessor.redactImageRegions. simpl. apply length_map.
  - done.
Qed.

(** X22. The redaction of an image fills nothing else. When no masked
    entity has a negative width or height, every pixel of the canvas that
    is filled lies in the rectangle of a masked entity that starts 5
    pixels left of and above its box (or at the edge of the canvas) and is
    10 pixels wider and higher than the box. An entity that is not masked
    gives no rectangle. *)
Theorem redactImageRegions_only_masked :
  forall (hasContext : bool) (canvasWidth canvasHeight : Z)
         (entities : list DetectedEntity) (r : ImageProcessor.Rect)
         (u v : Z),
    (forall e, e ∈ entities -> ent_masked e = true ->
               0 <= bbox_w (ent_bbox e) /\ 0 <= bbox_h (ent_bbox e)) ->
    r ∈ ImageProcessor.redactImageRegions
          hasContext canvasWidth canvasHeight entities ->
    ImageProcessor.paints r u v ->
    ImageProcessor.onCanvas canvasWidth canvasHeight u v ->
    exists e,
      e ∈ entities /\ ent_masked e = true
      /\ Z.max 0 (bbox_x (ent_bbox e) - 5) <= u
           < Z.max 0 (bbox_x (ent_bbox e) - 5) + bbox_w (ent_bbox e) + 10
      /\ Z.max 0 (bbox_y (ent_bbox e) - 5) <= v
           < Z.max 0 (bbox_y (ent_bbox e) - 5) + bbox_h (ent_bbox e) + 10.
Proof.
  intros hasContext canvasWidth canvasHeight entities r u v
         Hproper Hr Hpaint [Hu Hv].
  unfold ImageProcessor.redactImageRegions in Hr.
  destruct hasContext; simpl in Hr; [|by apply elem_of_nil in Hr].
  apply list_elem_of_fmap in Hr as (e & -> & He).
  apply list_elem_of_In, filter_In in He as [He Hm].
  apply list_elem_of_In in He.
  exists e. split; [done|]. split; [done|].
  destruct (Hproper e He Hm) as [Hw Hh].
  unfold ImageProcessor.paints, ImageProcessor.SUB_PIXEL_PADDING in Hpaint.
  simpl in Hpaint. lia.
Qed.

(** ** From the matcher to the image *)

Section ZoneEntityFacts.
Import MatchingEngine.
Variable randomUUID : nat -> jsstring.

Lemma zonesToEntities_lookup zones k :
  zonesToEntities randomUUID zones !! k
  = zoneToEntity randomUUID k <$> zones !! k.
Proof. unfold zonesToEntities. apply list_lookup_imap. Qed.

Lemma zonesToEntities_elem zones z :
  z ∈ zones ->
  exists k, zoneToEntity randomUUID k z ∈ zonesToEntities randomUUID zones.
Proof.
  intros Hz. apply list_elem_of_lookup_1 in Hz as [k Hk]. exists k.
  apply (list_elem_of_lookup_2 _ k). by rewrite zonesToEntities_lookup, Hk.
Qed.
End ZoneEntityFacts.

(** X23. The entities made from the zones. [zonesToEntities] gives one
    entity per zone, in order; each is a masked SENSITIVE entity of layer 3
    with confidence 0.9 whose value is the zone's label; its box is on the
    zone's page, starts at non-negative coordinates, and contains every
    point of the zone that has non-negative coordinates. *)
Theorem zonesToEntities_one_per_zone :
  forall (randomUUID : nat -> jsstring) (zones : list RedactionZone),
    let entities := MatchingEngine.zonesToEntities randomUUID zones in
    length entities = length zones
    /\ forall k z, zones !! k = Some z ->
         exists e,
           entities !! k = Some e
           /\ ent_type e = SENSITIVE /\ ent_confidence e = qc 9 10
           /\ ent_masked e = true /\ ent_layer e = 3%nat
           /\ ent_value e = zone_matchedPhrase z
           /\ bbox_pageIndex (ent_bbox e) = zone_pageIndex z
           /\ 0 <= bbox_x (ent_bbox e) /\ 0 <= bbox_y (ent_bbox e)
           /\ forall u v,
                0 <= u -> 0 <= v ->
                zone_x z <= u < zone_x z + zone_w z ->
                zone_y z <= v < zone_y z + zone_h z ->
                ImageProcessor.inBox (ent_bbox e) u v.
Proof.
  intros randomUUID zones entities. unfold entities. split.
  - unfold MatchingEngine.zonesToEntities. apply length_imap.
  - intros k z Hk. eexists. rewrite zonesToEntities_lookup, Hk.
    split; [done|]. simpl.
    do 6 (split; [done|]). split; [lia|]. split; [lia|].
    intros u v Hu Hv Hx Hy. unfold ImageProcessor.inBox. simpl. lia.
Qed.

(** X24. From the forbidden list to the black rectangles. When the zones
    the matcher returns for the spatial map of a page are turned into
    entities and these reach the redaction of the image as they are, every
    pixel of the canvas that lies in the rectangle of a flagged word is
    filled. *)
Theorem flagged_words_are_filled :
  forall (randomUUID : nat -> jsstring)
         (spatialMap : list SpatialMapEntry)
         (forbiddenList requiredFields : list jsstring) (pageIndex : Z)
         (canvasWidth canvasHeight : Z),
    freshMap pageIndex spatialMap ->
    let result :=
      MatchingEngine.calculateRedactionZones
        spatialMap forbiddenList requiredFields in
    let entities := MatchingEngine.zonesToEntities randomUUID (snd result) in
    forall e u v,
      e ∈ fst result -> sm_redact e = true ->
      ImageProcessor.onCanvas canvasWidth canvasHeight u v ->
      sm_left e <= u < sm_left e + sm_width e ->
      sm_top e <= v < sm_top e + sm_height e ->
      exists r,
        r ∈ ImageProcessor.redactImageRegions
              true canvasWidth canvasHeight entities
        /\ ImageProcessor.paints r u v.
Proof.
  intros randomUUID spatialMap forbiddenList requiredFields pageIndex
         canvasWidth canvasHeight Hfresh result entities e u v
         He Hflag Hcanvas Hx Hy.
  unfold result in He.
  rewrite calculateRedactionZones_parts in He. simpl in He.
  destruct (collectZones_covered pageIndex spatialMap forbiddenList Hfresh)
    as [_ Hcov].
  destruct (Hcov e He Hflag) as (z0 & Hz0 & Hc0).
  destruct (mergeAdjacentZones_covers _ z0 Hz0) as (z & Hz & Hc).
  destruct (zonesToEntities_elem randomUUID _ z Hz) as [k Hk].
  apply (redactImageRegions_covers _ _ entities
           (MatchingEngine.zoneToEntity randomUUID k z)).
  - unfold entities, result.
    by rewrite calculateRedactionZones_parts.
  - done.
  - done.
  - destruct Hcanvas as [Hu Hv].
    unfold zoneCoversEntry, zoneCovers, MatchingEngine.REDACTION_PADDING,
      ImageProcessor.SUB_PIXEL_PADDING in *. simpl. lia.
  - destruct Hcanvas as [Hu Hv].
    unfold zoneCoversEntry, zoneCovers, MatchingEngine.REDACTION_PADDING,
      ImageProcessor.SUB_PIXEL_PADDING in *. simpl. lia.
Qed.

(** ** Instances of the further properties *)

(** The entity with the negative-width box of the wrapped phrase is kept
    beside an entity it would otherwise overlap. *)
Lemma deduplicateEntities_keeps_wrapped :
  Cases.entWrapped
  ∈ Pipeline.deduplicateEntities [Samples.entA; Cases.entWrapped].
Proof.
  apply (deduplicateEntities_keeps_degenerate
           [Samples.entA; Cases.entWrapped] Cases.entWrapped).
  - right. left.
  - simpl. lia.
Defined.

(** Of the two overlapping sample entities the more confident comes
    first. *)
Lemma deduplicateEntities_best_of_two :
  exists e rest,
    Pipeline.deduplicateEntities [Samples.entB; Samples.entA] = e :: rest
    /\ e ∈ [Samples.entB; Samples.entA]
    /\ forall e', e' ∈ [Samples.entB; Samples.entA] ->
                  (ent_confidence e' <= ent_confidence e)%Qc.
Proof.
  apply (deduplicateEntities_keeps_most_confident
           [Samples.entB; Samples.entA]).
  discriminate.
Defined.

(** Two entities that both survive carry different boxes. *)
Lemma deduplicateEntities_two_boxes :
  ent_bbox Samples.entA <> ent_bbox Cases.entFar.
Proof.
  apply (deduplicateEntities_one_per_box
           [Samples.entA; Cases.entFar] 0 1 Samples.entA Cases.entFar).
  - lia.
  - reflexivity.
  - reflexivity.
  - simpl. lia.
  - simpl. lia.
Defined.

(** Without an API key the pipeline returns the one PAN the deterministic
    matcher reports. *)
Lemma runDetectionPipeline_no_key :
  Pipeline.runDetectionPipeline
    (fun _ => true) (fun _ => true) (fun _ => true) Samples.panMatches
    (fun _ _ => Gemini.Resolved []) Samples.sampleUUID Samples.sampleUUID
    Samples.sampleUUID (fun _ => Samples.answer) (fun _ => Samples.answer)
    Cases.textOfPage Samples.sentenceWords [] (qc 7 10) [] 0
  = Pipeline.mergeLayers
      (Layer1.runLayer1Detection
         (fun _ => true) (fun _ => true) (fun _ => true) Samples.panMatches
         Samples.sampleUUID Cases.textOfPage Samples.sentenceWords 0
       ++ [])
      (qc 7 10) [].
Proof.
  apply (runDetectionPipeline_without_classifier
           (fun _ => true) (fun _ => true) (fun _ => true) Samples.panMatches
           (fun _ _ => Gemini.Resolved []) Samples.sampleUUID
           Samples.sampleUUID Samples.sampleUUID
           (fun _ => Samples.answer) (fun _ => Samples.answer)
           Cases.textOfPage Samples.sentenceWords [] (qc 7 10) [] 0).
  left. reflexivity.
Defined.

(** A response with status 500 whose body mentions 429 is retried. *)
Lemma http_500_mentioning_429 :
  Pipeline.rateLimited
    (Gemini.getGeminiForbiddenList Cases.textOfPage (js "key")
       (Gemini.HttpError 500 (js "upstream said 429") (js "Server Error")))
  = true
  /\ Pipeline.rateLimited
       (Gemini.runGeminiDetection Samples.sampleUUID Samples.sentenceWords 0
          Cases.textOfPage (js "key")
          (Gemini.HttpError 500 (js "upstream said 429")
                            (js "Server Error")))
     = true.
Proof.
  apply (http_429_is_rate_limited
           500 (js "upstream said 429") (js "Server Error")
           Samples.sampleUUID Samples.sentenceWords 0
           Cases.textOfPage (js "key")).
  - right. reflexivity.
  - discriminate.
  - vm_compute. discriminate.
Defined.

(** The words of the sample sentence have no negative size, and neither
    has the box found for its first two words. *)
Lemma mapTextToBBox_john_doe_size :
  0 <= bbox_w (Layer1.mapTextToBBox 0 8 Cases.textOfPage
                                    Samples.sentenceWords 0)
  /\ 0 <= bbox_h (Layer1.mapTextToBBox 0 8 Cases.textOfPage
                                       Samples.sentenceWords 0).
Proof.
  apply (mapTextToBBox_nonnegative_size
           0 8 Cases.textOfPage Samples.sentenceWords 0).
  intros w Hw.
  repeat (apply elem_of_cons in Hw as [->|Hw]; [simpl; lia|]).
  by apply elem_of_nil in Hw.
Defined.

(** The span of John Doe in the sample sentence is aligned with the first
    two words. *)
Lemma mapTextToBBox_john_doe_window :
  Layer1.mapTextToBBox 0 8 Cases.textOfPage Samples.sentenceWords 0
  = Layer1.mergeWordBBoxes (slice Samples.sentenceWords 0 2) 0
  /\ unionOfWords
       (slice Samples.sentenceWords 0 2)
       (Layer1.mapTextToBBox 0 8 Cases.textOfPage Samples.sentenceWords 0).
Proof.
  apply (mapTextToBBox_first_exact_window
           0 8 Cases.textOfPage Samples.sentenceWords 0 0).
  - discriminate.
  - reflexivity.
  - intros j Hj. lia.
Defined.

(** Two zones that are merged lie inside the merged zone. *)
Lemma mergeAdjacentZones_covers_near :
  exists z',
    z' ∈ MatchingEngine.mergeAdjacentZones [Samples.zoneLeft; Samples.zoneNear]
    /\ zoneCovers z' Samples.zoneNear.
Proof.
  apply (proj1 (mergeAdjacentZones_covers_input
                  [Samples.zoneLeft; Samples.zoneNear])).
  right. left.
Defined.

(** The sample spatial map is that of a page. *)
Lemma sentenceMap_fresh : freshMap 0 Samples.sentenceMap.
Proof.
  intros e He.
  repeat (apply elem_of_cons in He as [->|He]; [done|]).
  by apply elem_of_nil in He.
Qed.

(** On the sample sentence every word flagged for the phrase John Doe is
    inside a zone. *)
Lemma calculateRedactionZones_covers_john_doe :
  exists z,
    z ∈ snd (MatchingEngine.calculateRedactionZones
               Samples.sentenceMap [js "John Doe"] [])
    /\ zoneCoversEntry MatchingEngine.REDACTION_PADDING z
                       (MatchingEngine.markRedact Cases.entryJohn).
Proof.
  apply (calculateRedactionZones_covers_flagged
           Samples.sentenceMap [js "John Doe"] [] 0 sentenceMap_fresh
           (MatchingEngine.markRedact Cases.entryJohn)).
  - left.
  - reflexivity.
Defined.

(** The single word Pune of the forbidden list flags the last word of the
    sample sentence. *)
Lemma calculateRedactionZones_flags_pune :
  fst (MatchingEngine.calculateRedactionZones
         Samples.sentenceMap [js "John Doe"; js "Pune."] []) !! 4%nat
  = Some (MatchingEngine.markRedact Cases.entryPune).
Proof.
  apply (calculateRedactionZones_flags_single_words
           Samples.sentenceMap [js "John Doe"; js "Pune."] []
           (js "Pune.") (js "pune") 4 Cases.entryPune).
  - right. left.
  - reflexivity.
  - reflexivity.
  - reflexivity.
Defined.

(** A flagged entry given to the matcher stays as it is. *)
Lemma calculateRedactionZones_keeps_flagged :
  fst (MatchingEngine.calculateRedactionZones
         [MatchingEngine.markRedact Cases.entryJohn] [js "Pune"] [])
    !! 0%nat
  = Some (MatchingEngine.markRedact Cases.entryJohn).
Proof.
  apply (proj2 (proj2 (calculateRedactionZones_keeps_entries
                         [MatchingEngine.markRedact Cases.entryJohn]
                         [js "Pune"] []))
           0%nat (MatchingEngine.markRedact Cases.entryJohn));
    reflexivity.
Defined.

(** The box found for John Doe in the sample sentence. *)
Lemma findBBoxForString_john_doe_run :
  bbox_pageIndex (mkBBox 10 10 77 13 0) = 0
  /\ exists i j,
       head (map Gemini.clean (split_ws (trim (js "John Doe"))))
       = (fun w => Gemini.clean (word_text w))
           <$> head (slice Samples.sentenceWords i j)
       /\ legacyBoxOf (slice Samples.sentenceWords i j)
                      (mkBBox 10 10 77 13 0).
Proof.
  apply (findBBoxForString_found_run
           (js "John Doe") Samples.sentenceWords 0 (mkBBox 10 10 77 13 0)).
  reflexivity.
Defined.

(** Jane Roe is not on the sample page. *)
Lemma findBBoxForString_jane_roe :
  Gemini.findBBoxForString (js "Jane Roe") Samples.sentenceWords 0 = None.
Proof.
  apply (findBBoxForString_first_token_absent
           (js "Jane Roe") Samples.sentenceWords 0).
  intros w Hw.
  repeat (apply elem_of_cons in Hw as [->|Hw]; [vm_compute; discriminate|]).
  by apply elem_of_nil in Hw.
Defined.



(** A pixel in the box of the masked sample entity is filled. *)
Lemma redactImageRegions_fills_entA :
  exists r,
    r ∈ ImageProcessor.redactImageRegions
          true 300 100 [Samples.entA; Cases.entName]
    /\ ImageProcessor.paints r 50 20.
Proof.
  apply (proj1 (redactImageRegions_covers_masked
                  300 100 [Samples.entA; Cases.entName])
           Samples.entA 50 20).
  - left.
  - reflexivity.
  - unfold ImageProcessor.onCanvas. lia.
  - simpl. lia.
  - simpl. lia.
Defined.

(** A filled pixel next to the masked sample entity. *)
Lemma redactImageRegions_near_entA :
  exists e,
    e ∈ [Samples.entA; Cases.entName] /\ ent_masked e = true
    /\ Z.max 0 (bbox_x (ent_bbox e) - 5) <= 6
         < Z.max 0 (bbox_x (ent_bbox e) - 5) + bbox_w (ent_bbox e) + 10
    /\ Z.max 0 (bbox_y (ent_bbox e) - 5) <= 34
         < Z.max 0 (bbox_y (ent_bbox e) - 5) + bbox_h (ent_bbox e) + 10.
Proof.
  apply (redactImageRegions_only_masked
           true 300 100 [Samples.entA; Cases.entName]
           (ImageProcessor.mkRect 5 5 110 30) 6 34).
  - intros e He Hm.
    repeat (apply elem_of_cons in He as [->|He]; [simpl; lia|]).
    by apply elem_of_nil in He.
  - left.
  - unfold ImageProcessor.paints. simpl. lia.
  - unfold ImageProcessor.onCanvas. lia.
Defined.

(** The entity made from a zone that starts left of the page. *)
Lemma zonesToEntities_clamped_zone :
  exists e,
    MatchingEngine.zonesToEntities
      Samples.sampleUUID [mkZone (-3) 5 50 22 0 (js "Aadhaar") [js "Aadhaar"]]
      !! 0%nat = Some e
    /\ ent_type e = SENSITIVE /\ ent_confidence e = qc 9 10
    /\ ent_masked e = true /\ ent_layer e = 3%nat
    /\ ent_value e = js "Aadhaar"
    /\ bbox_pageIndex (ent_bbox e) = 0
    /\ 0 <= bbox_x (ent_bbox e) /\ 0 <= bbox_y (ent_bbox e)
    /\ forall u v,
         0 <= u -> 0 <= v ->
         -3 <= u < -3 + 50 -> 5 <= v < 5 + 22 ->
         ImageProcessor.inBox (ent_bbox e) u v.
Proof.
  apply (proj2 (zonesToEntities_one_per_zone
                  Samples.sampleUUID
                  [mkZone (-3) 5 50 22 0 (js "Aadhaar") [js "Aadhaar"]])
           0%nat (mkZone (-3) 5 50 22 0 (js "Aadhaar") [js "Aadhaar"])).
  reflexivity.
Defined.

(** The top-left pixel of the word John is filled when John Doe is
    forbidden. *)
Lemma flagged_john_is_filled :
  exists r,
    r ∈ ImageProcessor.redactImageRegions
          true 300 100
          (MatchingEngine.zonesToEntities
             Samples.sampleUUID
             (snd (MatchingEngine.calculateRedactionZones
                     Samples.sentenceMap [js "John Doe"] [])))
    /\ ImageProcessor.paints r 10 10.
Proof.
  apply (flagged_words_are_filled
           Samples.sampleUUID Samples.sentenceMap [js "John Doe"] [] 0
           300 100 sentenceMap_fresh
           (MatchingEngine.markRedact Cases.entryJohn) 10 10).
  - left.
  - reflexivity.
  - unfold ImageProcessor.onCanvas. lia.
  - simpl. lia.
  - simpl. lia.
Defined.

(** ** The entities of the semantic stage *)

Section SemanticFacts.
Import Pipeline.

Lemma retryFrom_outcome {T} (fn : nat -> Gemini.outcome T) :
  forall remaining attempt delay,
    exists k, run_outcome (retryFrom fn remaining attempt delay) = fn k.
Proof.
  induction remaining as [|remaining IH]; intros attempt delay; simpl.
  - exists attempt. by destruct (fn attempt).
  - destruct (fn attempt) as [v|message] eqn:Hfn.
    + exists attempt. by rewrite Hfn.
    + destruct (isRateLimit message); simpl.
      * apply IH.
      * exists attempt. by rewrite Hfn.
Qed.

Lemma semanticStage_fields primaryResponses legacyResponses uuidZones
  uuidLegacy fullText words geminiApiKey requiredFields pageIndex
  spatialMap e :
  e ∈ semanticStage uuidZones uuidLegacy primaryResponses legacyResponses
        fullText words geminiApiKey requiredFields pageIndex spatialMap ->
  ent_confidence e = qc 9 10 /\ ent_masked e = true
  /\ ((ent_layer e = 3%nat /\ ent_type e = SENSITIVE)
      \/ (ent_layer e = 2%nat
          /\ bbox_pageIndex (ent_bbox e) = pageIndex)).
Proof.
  unfold semanticStage.
  destruct (length geminiApiKey =? 0)%nat.
  { intros He. by apply elem_of_nil in He. }
  destruct (run_outcome (primaryCall _)) as [forbiddenList|message].
  - destruct (_ && _).
    + intros He. apply list_elem_of_lookup_1 in He as [k Hk].
      rewrite zonesToEntities_lookup in Hk.
      destruct (_ !! k) as [z|]; [|done].
      simpl in Hk. injection Hk as <-. simpl. auto.
    + intros He. by apply elem_of_nil in He.
  - unfold legacyCall, withRetry.
    destruct (retryFrom_outcome
                (fun k => Gemini.runGeminiDetection
                            uuidLegacy words pageIndex
                            fullText geminiApiKey (legacyResponses k))
                2 0 (qc 15000 1)) as [k ->].
    destruct (Gemini.runGeminiDetection _ _ _ _ _ _) as [entities|]
      eqn:Hrun.
    + intros He.
      apply runGeminiDetection_inv in Hrun as [seen [Hall _]].
      destruct (Hall e He) as (_ & Hc & Hm & Hl & Hp & _). auto.
    + intros He. by apply elem_of_nil in He.
Qed.
End SemanticFacts.

(** X26. Every entity of the semantic stage, whether it comes from the
    zones of the matcher or from the legacy detection, is masked and has
    confidence 0.9; it is a SENSITIVE entity of layer 3, or an entity of
    layer 2 on the requested page. So a confidence threshold above 0.9
    removes all of them from the output of the pipeline. *)
Theorem semanticStage_confidence :
  forall (uuidZones uuidLegacy : nat -> jsstring)
         (primaryResponses legacyResponses : nat -> Gemini.httpResponse)
         (fullText : jsstring) (words : list OCRWord)
         (geminiApiKey : jsstring) (requiredFields : list jsstring)
         (pageIndex : Z) (spatialMap : list SpatialMapEntry)
         (e : DetectedEntity),
    e ∈ Pipeline.semanticStage uuidZones uuidLegacy primaryResponses
          legacyResponses fullText words geminiApiKey requiredFields
          pageIndex spatialMap ->
    ent_confidence e = qc 9 10 /\ ent_masked e = true
    /\ ((ent_layer e = 3%nat /\ ent_type e = SENSITIVE)
        \/ (ent_layer e = 2%nat /\ bbox_pageIndex (ent_bbox e) = pageIndex))
    /\ forall allEntities confidenceThreshold,
         (qc 9 10 < confidenceThreshold)%Qc ->
         e ∉ Pipeline.mergeLayers allEntities confidenceThreshold
                                  requiredFields.
Proof.
  intros uuidZones uuidLegacy primaryResponses legacyResponses fullText
         words geminiApiKey requiredFields pageIndex spatialMap e He.
  apply semanticStage_fields in He as (Hc & Hm & Hl).
  split; [done|]. split; [done|]. split; [done|].
  intros allEntities threshold Ht Hout.
  apply (mergeLayers_shape allEntities threshold requiredFields) in Hout.
  rewrite Hc in Hout. by apply Qcle_not_lt in Hout.
Qed.

(** The entity the semantic stage makes for the phrase John Doe. *)
Lemma semanticStage_john_doe :
  ent_confidence Cases.entZone = qc 9 10 /\ ent_masked Cases.entZone = true
  /\ ((ent_layer Cases.entZone = 3%nat /\ ent_type Cases.entZone = SENSITIVE)
      \/ (ent_layer Cases.entZone = 2%nat
          /\ bbox_pageIndex (ent_bbox Cases.entZone) = 0))
  /\ forall allEntities confidenceThreshold,
       (qc 9 10 < confidenceThreshold)%Qc ->
       Cases.entZone
       ∉ Pipeline.mergeLayers allEntities confidenceThreshold [].
Proof.
  apply (semanticStage_confidence
           Samples.sampleUUID Samples.sampleUUID
           (fun _ => Samples.answer) (fun _ => Samples.answer)
           Cases.textOfPage Samples.sentenceWords (js "key") [] 0
           Samples.sentenceMap Cases.entZone).
  left.
Defined.

(** ** Reading a well-formed answer *)

Section AnswerFacts.
Import Gemini.

Lemma skipWs_ws ws c r :
  forallb isJsonWs ws = true -> isJsonWs c = false ->
  skipWs (ws ++ c :: r) = c :: r.
Proof.
  intros Hws Hc. induction ws as [|w ws IH]; simpl.
  - by rewrite Hc.
  - simpl in Hws. apply andb_true_iff in Hws as [-> Hws]. by apply IH.
Qed.

Lemma parseString_plain s : forall rest acc,
  forallb plainChar s = true ->
  parseString (s ++ 34%N :: rest) acc = Some (rev acc ++ s, rest).
Proof.
  induction s as [|c s IH]; intros rest acc Hs; simpl.
  - by rewrite app_nil_r.
  - simpl in Hs. apply andb_true_iff in Hs as [Hc Hs].
    unfold plainChar in Hc.
    apply andb_true_iff in Hc as [Hc H32].
    apply andb_true_iff in Hc as [H34 H92].
    apply negb_true_iff in H34, H92, H32.
    rewrite H34, H92, H32. rewrite IH by done.
    simpl. by rewrite <- app_assoc.
Qed.

Lemma parseValue_element fuel e rest c :
  wellFormedElement e = true -> isJsonWs c = false ->
  parseValue (S fuel) (elementText e ++ c :: rest)
  = Some (JString (elementString e), snd e ++ c :: rest)
  /\ skipWs (snd e ++ c :: rest) = c :: rest.
Proof.
  destruct e as [[b s] a]. unfold wellFormedElement, elementText,
    elementString, quoted. simpl fst. simpl snd.
  intros Hwf Hc.
  apply andb_true_iff in Hwf as [Hwf Ha].
  apply andb_true_iff in Hwf as [Hb Hs].
  split; [|by apply skipWs_ws].
  simpl parseValue. rewrite <- !app_assoc. simpl.
  rewrite skipWs_ws by done. simpl.
  rewrite <- app_assoc, <- app_comm_cons.
  rewrite parseString_plain by done. done.
Qed.

Lemma elementsText_length l : (length l <= length (elementsText l))%nat.
Proof.
  induction l as [|e [|e' l] IH]; simpl in *; [lia| |].
  - destruct e as [[b s] a]. unfold elementText, quoted. simpl.
    rewrite !length_app. simpl. lia.
  - rewrite !length_app. simpl. lia.
Qed.

Lemma parseElements_S pv fuel s acc :
  parseElements pv (S fuel) s acc
  = match pv s with
    | Some (v, r) =>
        match skipWs r with
        | c :: r' =>
            if (c =? 44)%N then parseElements pv fuel r' (acc ++ [v])
            else if (c =? 93)%N then Some (acc ++ [v], r')
            else None
        | [] => None
        end
    | None => None
    end.
Proof. done. Qed.

Lemma parseElements_array fuelV l : forall fuel acc tail,
  l <> [] -> Forall (fun e => wellFormedElement e = true) l ->
  (length l <= fuel)%nat ->
  parseElements (parseValue (S fuelV)) fuel
                (elementsText l ++ 93%N :: tail) acc
  = Some (acc ++ map (fun e => JString (elementString e)) l, tail).
Proof.
  induction l as [|e l IH]; intros fuel acc tail Hne Hwf Hfuel; [done|].
  apply Forall_cons in Hwf as [He Hwf].
  destruct fuel as [|fuel]; [simpl in Hfuel; lia|].
  destruct l as [|e' l].
  - change (elementsText [e]) with (elementText e).
    rewrite parseElements_S.
    destruct (parseValue_element fuelV e tail 93%N He eq_refl)
      as [-> ->]. done.
  - change (elementsText (e :: e' :: l))
      with (elementText e ++ [44%N] ++ elementsText (e' :: l)).
    rewrite parseElements_S.
    destruct (parseValue_element fuelV e
                (elementsText (e' :: l) ++ 93%N :: tail) 44%N He eq_refl)
      as [Hv Hs].
    replace ((elementText e ++ [44%N] ++ elementsText (e' :: l))
             ++ 93%N :: tail)
      with (elementText e
            ++ 44%N :: elementsText (e' :: l) ++ 93%N :: tail)
      by (by rewrite <- !app_assoc).
    rewrite Hv, Hs.
    change (44 =? 44)%N with true. cbv iota.
    rewrite IH; [|done|done|simpl in *; lia].
    simpl. by rewrite <- app_assoc.
Qed.

Lemma elementsText_head e l :
  wellFormedElement e = true ->
  exists r, skipWs (elementsText (e :: l) ++ [93%N]) = 34%N :: r.
Proof.
  destruct e as [[b s] a]. unfold wellFormedElement. simpl fst. simpl snd.
  intros Hwf. apply andb_true_iff in Hwf as [Hwf _].
  apply andb_true_iff in Hwf as [Hb _].
  destruct l as [|e' l]; simpl elementsText;
    unfold elementText, quoted; simpl fst; simpl snd;
    rewrite <- !app_assoc; simpl; rewrite skipWs_ws by done; eauto.
Qed.

Lemma parseValue_open fuel r :
  parseValue (S fuel) (91%N :: r)
  = match skipWs r with
    | c2 :: r' =>
        if (c2 =? 93)%N then Some (JArray [], r')
        else
          match parseElements (parseValue fuel) (length r) r [] with
          | Some (items, r'') => Some (JArray items, r'')
          | None => None
          end
    | [] => None
    end.
Proof. done. Qed.

Lemma JSON_parse_arrayText l :
  Forall (fun e => wellFormedElement e = true) l ->
  JSON_parse (arrayText l)
  = Some (JArray (map (fun e => JString (elementString e)) l)).
Proof.
  intros Hwf. unfold JSON_parse, arrayText.
  destruct l as [|e l]; [done|].
  change ([91%N] ++ elementsText (e :: l) ++ [93%N])
    with (91%N :: (elementsText (e :: l) ++ [93%N])).
  destruct (elementsText_head e l) as [r Hr].
  { by apply Forall_inv in Hwf. }
  set (body := elementsText (e :: l) ++ [93%N]) in *.
  rewrite parseValue_open, Hr.
  change (34 =? 93)%N with false. cbv iota.
  change (length (91%N :: body)) with (S (length body)).
  unfold body at 2.
  rewrite (parseElements_array _ (e :: l) _ [] []); [done|done|done|].
  unfold body. rewrite length_app.
  pose proof (elementsText_length (e :: l)). lia.
Qed.

Lemma omap_keptString strs :
  omap keptString (map JString strs) = List.filter nonBlank strs.
Proof.
  induction strs as [|s strs IH]; simpl; [done|].
  unfold nonBlank at 1. destruct (0 <? length (trim s))%nat; simpl;
    by rewrite <- IH.
Qed.

Lemma parseForbiddenList_arrayText pre post l :
  91%N ∉ pre -> 93%N ∉ post ->
  Forall (fun e => wellFormedElement e = true) l ->
  parseForbiddenList (pre ++ arrayText l ++ post)
  = Resolved (List.filter nonBlank (map elementString l)).
Proof.
  intros Hpre Hpost Hwf. unfold parseForbiddenList.
  assert (Hm : matchArray (pre ++ arrayText l ++ post)
               = Some (arrayText l)).
  { apply matchArray_Some. exists pre, (elementsText l), post.
    unfold arrayText. by rewrite <- !app_assoc. }
  rewrite Hm, JSON_parse_arrayText by done.
  by rewrite <- omap_keptString, map_map.
Qed.
End AnswerFacts.

(** X27. A well-formed answer is read back. When the text of the
    classifier's answer holds a JSON array of string literals without
    escapes, laid out with any white space around the literals, possibly
    inside prose or a code fence that has no opening bracket before the
    array and no closing bracket after it, [getGeminiForbiddenList]
    resolves with the strings of the array that are not blank, in
    order. *)
Theorem getGeminiForbiddenList_reads_array :
  forall (fullText apiKey pre post : jsstring) (l : list arrayElement),
    apiKey <> [] -> trim fullText <> [] ->
    91%N ∉ pre -> 93%N ∉ post ->
    Forall (fun e => wellFormedElement e = true) l ->
    Gemini.getGeminiForbiddenList
      fullText apiKey (Gemini.HttpOk (pre ++ arrayText l ++ post))
    = Gemini.Resolved (List.filter nonBlank (map elementString l)).
Proof.
  intros fullText apiKey pre post l Hkey Htext Hpre Hpost Hwf.
  unfold Gemini.getGeminiForbiddenList.
  destruct apiKey; [done|]. destruct (trim fullText); [done|]. simpl.
  by apply parseForbiddenList_arrayText.
Qed.

(** An answer in a code fence, with a blank string among its items. *)
Lemma getGeminiForbiddenList_fenced_answer :
  Gemini.getGeminiForbiddenList
    Cases.textOfPage (js "key")
    (Gemini.HttpOk (Gemini.jsq "```json ['John Doe', ' ', 'Pune'] ```"))
  = Gemini.Resolved [js "John Doe"; js "Pune"].
Proof.
  apply (getGeminiForbiddenList_reads_array
           Cases.textOfPage (js "key") (js "```json ") (js " ```")
           [([], js "John Doe", []); (js " ", js " ", []);
            (js " ", js "Pune", [])]).
  - discriminate.
  - vm_compute. discriminate.
  - by apply (bool_decide_unpack _).
  - by apply (bool_decide_unpack _).
  - repeat constructor.
Defined.
